(** * Self-driving car simulation: the decision engine

    A shallow embedding of [environment.py], [pathfinding.py],
    [agent.py] and the set-up code of [main.py].  Python integers are
    [Z], Python floats are IEEE 754 binary64 values ([PrimFloat.float]),
    dictionaries are [gmap]s, sets are [gset]s, and exceptions are values
    of the [result] type. *)

From Stdlib Require Import ZArith Floats Lia.
From stdpp Require Import gmap list.

Set Default Proof Using "Type".
Set Warnings "-inexact-float".
Local Open Scope Z_scope.

(** ** Python runtime *)

Module Py.

(** The exceptions the modelled code can raise. *)
Inductive exn := KeyError | IndexError | OverflowError | ValueError.

(** Outcome of a call: a value, a raised exception, or a loop that is
    still running when the unrolling budget is used up. *)
Inductive result (A : Type) : Type :=
| Ok (a : A)
| Raise (e : exn)
| Timeout.
Arguments Ok {A} a.
Arguments Raise {A} e.
Arguments Timeout {A}.

Definition bind {A B} (r : result A) (k : A → result B) : result B :=
  match r with
  | Ok a => k a
  | Raise e => Raise e
  | Timeout => Timeout
  end.

Definition is_ok {A} (r : result A) : bool :=
  match r with Ok _ => true | _ => false end.

(** [d[k]] on a dictionary. *)
Definition getitem `{Countable K} {V} (d : gmap K V) (k : K) : result V :=
  match d !! k with
  | Some v => Ok v
  | None => Raise KeyError
  end.

(** [l[i]] on a list, negative indices counting from the end. *)
Definition index {A} (l : list A) (i : Z) : result A :=
  let n := Z.of_nat (length l) in
  let j := if i <? 0 then i + n else i in
  if (0 <=? j) && (j <? n)
  then match l !! Z.to_nat j with
       | Some a => Ok a
       | None => Raise IndexError
       end
  else Raise IndexError.

(** [float(n)] for an integer [n]: the nearest binary64 value, ties to
    even; [OverflowError] when that is not finite. *)
Definition float_of_int (n : Z) : result float :=
  let f := SF2Prim (binary_normalize prec emax n 0 false) in
  if PrimFloat.is_infinity f then Raise OverflowError else Ok f.

(** [math.sqrt(n)] for an integer [n]. *)
Definition math_sqrt (n : Z) : result float :=
  if n <? 0 then Raise ValueError
  else bind (float_of_int n) (λ f, Ok (PrimFloat.sqrt f)).

(** [int(f)]: truncation towards zero. *)
Definition int_of_float (f : float) : result Z :=
  match Prim2SF f with
  | S754_zero _ => Ok 0
  | S754_infinity _ => Raise OverflowError
  | S754_nan => Raise ValueError
  | S754_finite s m e =>
      let v := if 0 <=? e then Z.pos m * 2 ^ e else Z.pos m / 2 ^ (- e) in
      Ok (if s then - v else v)
  end.

(** A value that is an [int] on one path and a [float] on another. *)
Inductive number := Int (z : Z) | Float (f : float).

(** [int(v)] *)
Definition int (v : number) : result Z :=
  match v with
  | Int z => Ok z
  | Float f => int_of_float f
  end.

(** [max(a, b)] and [min(a, b)] on floats: the first argument wins
    unless the second is strictly better. *)
Definition max2 (a b : float) : float := if PrimFloat.ltb a b then b else a.
Definition min2 (a b : float) : float := if PrimFloat.ltb b a then b else a.

(** [max(l)] and [min(l)] over a sequence of floats. *)
Definition max_list (l : list float) : result float :=
  match l with
  | [] => Raise ValueError
  | x :: l' => Ok (foldl max2 x l')
  end.

Definition min_list (l : list float) : result float :=
  match l with
  | [] => Raise ValueError
  | x :: l' => Ok (foldl min2 x l')
  end.

(** [l.index(v)]: position of the first element equal to [v]. *)
Fixpoint list_index (v : float) (l : list float) : result Z :=
  match l with
  | [] => Raise ValueError
  | x :: l' =>
      if PrimFloat.eqb x v then Ok 0
      else bind (list_index v l') (λ i, Ok (i + 1))
  end.

(** Traverse a list with a fallible function, left to right. *)
Fixpoint mapM {A B} (f : A → result B) (l : list A) : result (list B) :=
  match l with
  | [] => Ok []
  | a :: l' => bind (f a) (λ b, bind (mapM f l') (λ bs, Ok (b :: bs)))
  end.

(** [random.randint(a, b)]: [ValueError] on an empty range, otherwise a
    value between [a] and [b], both included; the integer [r] stands for
    the state of the generator. *)
Definition randint (a b : Z) (r : Z) : result Z :=
  if b <? a then Raise ValueError else Ok (a + r `mod` (b - a + 1)).

End Py.

Import Py.

Global Instance result_bind : MBind result := λ A B k r, Py.bind r k.
Global Instance result_ret : MRet result := @Py.Ok.

(** ** environment.py *)

Definition pos : Type := (Z * Z)%type.

Record Environment := {
  grid_width : Z;
  grid_height : Z;
  road_map : list (list Z);
  start_pos : pos;
  destination : pos;
  obstacles : gset pos
}.

Module Env.

(** [road_map[y][x]] when the caller has already checked
    [0 <= x < grid_width] and [0 <= y < grid_height].  On the rectangular
    map built by [_create_road_layout] the cell exists (lemma
    [road_cell_defined]); the fallback [0] is only met on a map smaller
    than the declared grid, which the constructor never builds. *)
Definition road_cell (env : Environment) (x y : Z) : Z :=
  match road_map env !! Z.to_nat y with
  | Some row => default 0 (row !! Z.to_nat x)
  | None => 0
  end.

Definition in_bounds (env : Environment) (p : pos) : bool :=
  (0 <=? p.1) && (p.1 <? grid_width env) &&
  (0 <=? p.2) && (p.2 <? grid_height env).

Definition is_road (env : Environment) (p : pos) : bool :=
  in_bounds env p && (road_cell env p.1 p.2 =? 1).

Definition is_valid_position (env : Environment) (p : pos) : bool :=
  is_road env p && negb (bool_decide (p ∈ obstacles env)).

(** [road_map[y][x] = v] inside a nested loop. *)
Definition set_cell (rm : list (list Z)) (y x : Z) (v : Z)
  : result (list (list Z)) :=
  row ← Py.index rm y;
  _ ← Py.index row x;
  let ny := Z.to_nat (if y <? 0 then y + Z.of_nat (length rm) else y) in
  let nx := Z.to_nat (if x <? 0 then x + Z.of_nat (length row) else x) in
  Ok (<[ny := <[nx := v]> row]> rm).

Fixpoint for_each {S A} (l : list A) (body : A → S → result S) (s : S)
  : result S :=
  match l with
  | [] => Ok s
  | a :: l' => s' ← body a s; for_each l' body s'
  end.

(** [range(a, b)] *)
Definition range (a b : Z) : list Z := seqZ a (b - a).

Definition _create_road_layout (gw gh : Z) : result (list (list Z)) :=
  let road_map0 := replicate (Z.to_nat gh) (replicate (Z.to_nat gw) 0) in
  let road_start := gh `div` 2 - 2 in
  let road_end := gh `div` 2 + 3 in
  rm1 ← for_each (range road_start road_end) (λ y rm,
           for_each (range 0 gw) (λ x rm, set_cell rm y x 1) rm) road_map0;
  for_each [gw `div` 3; (2 * gw) `div` 3] (λ road_x rm,
    for_each (range 0 gh) (λ y rm,
      if (y <? road_start) || (road_end <=? y) then
        for_each (range (road_x - 1) (road_x + 2)) (λ x rm,
          if (0 <=? x) && (x <? gw) then set_cell rm y x 1 else Ok rm) rm
      else Ok rm) rm) rm1.

(** The constructor, with the outcome of the random obstacle placement
    as an argument. *)
Definition init (width height : Z) (obs : gset pos) : result Environment :=
  let grid_size := 20 in
  let gw := width `div` grid_size in
  let gh := height `div` grid_size in
  rm ← _create_road_layout gw gh;
  Ok {| grid_width := gw; grid_height := gh; road_map := rm;
        start_pos := (2, gh `div` 2);
        destination := (gw - 3, gh `div` 2);
        obstacles := obs |}.

Definition set_obstacles (env : Environment) (obs : gset pos) : Environment :=
  {| grid_width := grid_width env; grid_height := grid_height env;
     road_map := road_map env; start_pos := start_pos env;
     destination := destination env; obstacles := obs |}.

Definition set_destination (env : Environment) (p : pos)
  : bool * Environment :=
  if is_valid_position env p then
    (true, {| grid_width := grid_width env; grid_height := grid_height env;
              road_map := road_map env; start_pos := start_pos env;
              destination := p; obstacles := obstacles env |})
  else (false, env).

(** Squared Euclidean distance, the integer under [math.sqrt]. *)
Definition sq_dist (p q : pos) : Z := (p.1 - q.1) ^ 2 + (p.2 - q.2) ^ 2.

(** The set is visited in the order of [elements]; the callers only
    take the emptiness and the minimum distance of the outcome. *)
Definition get_obstacles_in_radius (env : Environment) (p : pos) (radius : float)
  : result (list (Z * Z * float)) :=
  for_each (elements (obstacles env)) (λ o nearby,
    dist ← Py.math_sqrt (sq_dist p o);
    Ok (if PrimFloat.leb dist radius then nearby ++ [(o.1, o.2, dist)]
        else nearby)) [].

Definition grid_size : Z := 20.

Definition pixel_to_grid (pixel_pos : pos) : pos :=
  (pixel_pos.1 `div` grid_size, pixel_pos.2 `div` grid_size).

Definition grid_to_pixel (grid_pos : pos) : pos :=
  (grid_pos.1 * grid_size + grid_size `div` 2,
   grid_pos.2 * grid_size + grid_size `div` 2).

(** The [while] loop of [_place_obstacles], unrolled at most [fuel]
    times.  [rand n] stands for the two draws of attempt [n]. *)
Fixpoint place_loop (fuel : nat) (env : Environment) (num_obstacles : Z)
    (rand : Z → Z * Z) (attempts : Z) (obs : gset pos) : result (gset pos) :=
  match fuel with
  | O => Timeout
  | S fuel' =>
      let max_attempts := num_obstacles * 50 in
      if (Z.of_nat (size obs) <? num_obstacles) && (attempts <? max_attempts)
      then
        let attempts := attempts + 1 in
        x ← Py.randint 0 (grid_width env - 1) (rand attempts).1;
        y ← Py.randint 0 (grid_height env - 1) (rand attempts).2;
        row ← Py.index (road_map env) y;
        cell ← Py.index row x;
        if (cell =? 1) && negb (bool_decide ((x, y) ∈ obs)) &&
           negb (bool_decide ((x, y) = start_pos env)) &&
           negb (bool_decide ((x, y) = destination env))
        then place_loop fuel' env num_obstacles rand attempts (obs ∪ {[(x, y)]})
        else place_loop fuel' env num_obstacles rand attempts obs
      else Ok obs
  end.

(** Every pass uses up one attempt, so one pass more than
    [max_attempts] always suffices (lemma [_place_obstacles_spec]). *)
Definition _place_obstacles (env : Environment) (num_obstacles : Z)
    (rand : Z → Z * Z) : result (gset pos) :=
  place_loop (S (Z.to_nat (num_obstacles * 50))) env num_obstacles rand 0 ∅.

Definition regenerate_obstacles (env : Environment) (num_obstacles : Z)
    (rand : Z → Z * Z) : result (gset pos * Environment) :=
  obs ← _place_obstacles env num_obstacles rand;
  Ok (obs, set_obstacles env obs).

(** The constructor with its own call of [_place_obstacles]. *)
Definition init_random (width height : Z) (rand : Z → Z * Z)
  : result Environment :=
  env ← init width height ∅;
  obs ← _place_obstacles env 15 rand;
  Ok (set_obstacles env obs).

End Env.

(** ** pathfinding.py *)

Module AStar.

Import Env.

(** Manhattan distance. *)
Definition heuristic (pos1 pos2 : pos) : Z :=
  Z.abs (pos1.1 - pos2.1) + Z.abs (pos1.2 - pos2.2).

Definition deltas : list pos := [(0, 1); (0, -1); (1, 0); (-1, 0)].

Definition get_neighbors (env : Environment) (p : pos) : list pos :=
  filter (λ new_pos, is_valid_position env new_pos = true)
         ((λ d, (p.1 + d.1, p.2 + d.2)) <$> deltas).

(** [reconstruct_path]: the [while current in came_from] loop, unrolled
    at most [fuel] times. *)
Fixpoint reconstruct_loop (fuel : nat) (came_from : gmap pos pos)
    (current : pos) (path : list pos) : result (list pos) :=
  match fuel with
  | O => Timeout
  | S fuel' =>
      match came_from !! current with
      | Some prev => reconstruct_loop fuel' came_from prev (path ++ [prev])
      | None => Ok path
      end
  end.

Definition reconstruct_path (fuel : nat) (came_from : gmap pos pos)
    (current : pos) : result (list pos) :=
  path ← reconstruct_loop fuel came_from current [current];
  Ok (reverse path).

(** *** The frontier

    [open_set] is a [heapq] heap of tuples [(f, (x, y))], compared
    lexicographically.  The code only pushes, pops the least tuple and
    scans for membership, and no cell is ever on the frontier twice
    (invariant [inv_nodup]), so the least tuple is unique and the heap
    behaves as the bag of its items whatever its layout: [heappush]
    adds an item, [heappop] takes the least one out. *)
Definition item : Type := (Z * pos)%type.

Definition item_lt (a b : item) : bool :=
  (a.1 <? b.1) ||
  ((a.1 =? b.1) &&
   ((a.2.1 <? b.2.1) || ((a.2.1 =? b.2.1) && (a.2.2 <? b.2.2)))).

Definition heappush (h : list item) (e : item) : list item := h ++ [e].

Definition least (a : item) (h : list item) : item :=
  foldl (λ m b, if item_lt b m then b else m) a h.

Fixpoint remove_first (e : item) (h : list item) : list item :=
  match h with
  | [] => []
  | a :: h' => if decide (a = e) then h' else a :: remove_first e h'
  end.

Definition heappop (h : list item) : option (item * list item) :=
  match h with
  | [] => None
  | a :: h' => let m := least a h' in Some (m, remove_first m h)
  end.

(** The search state: the four locals of [find_path]. *)
Record search := {
  open_set : list item;
  came_from : gmap pos pos;
  g_score : gmap pos Z;
  f_score : gmap pos Z
}.

(** Body of [for neighbor in self.get_neighbors(current)]. *)
Definition relax (goal current : pos) (st : search) (neighbor : pos)
  : result search :=
  g_current ← Py.getitem (g_score st) current;
  let tentative_g_score := g_current + 1 in
  let better :=
    match g_score st !! neighbor with
    | None => true
    | Some g => tentative_g_score <? g
    end in
  if better then
    let f := tentative_g_score + heuristic neighbor goal in
    let in_open := existsb (λ it : item, bool_decide (neighbor = it.2))
                           (open_set st) in
    Ok {| open_set := if negb in_open then heappush (open_set st) (f, neighbor)
                      else open_set st;
          came_from := <[neighbor := current]> (came_from st);
          g_score := <[neighbor := tentative_g_score]> (g_score st);
          f_score := <[neighbor := f]> (f_score st) |}
  else Ok st.

Definition with_open (st : search) (h : list item) : search :=
  {| open_set := h; came_from := came_from st;
     g_score := g_score st; f_score := f_score st |}.

(** The [while open_set] loop, unrolled at most [fuel] times. *)
Fixpoint search_loop (fuel : nat) (rfuel : nat) (env : Environment)
    (goal : pos) (st : search) : result (list pos) :=
  match fuel with
  | O => Timeout
  | S fuel' =>
      match heappop (open_set st) with
      | None => Ok []
      | Some ((current_f, current), rest) =>
          if decide (current = goal) then
            reconstruct_path rfuel (came_from st) current
          else
            st' ← for_each (get_neighbors env current)
                           (λ neighbor s, relax goal current s neighbor)
                           (with_open st rest);
            search_loop fuel' rfuel env goal st'
      end
  end.

Definition initial (start goal : pos) : search :=
  {| open_set := heappush [] (0, start);
     came_from := ∅;
     g_score := {[start := 0]};
     f_score := {[start := heuristic start goal]} |}.

Definition find_path_fuel (fuel : nat) (env : Environment) (start goal : pos)
  : result (list pos) :=
  search_loop fuel fuel env goal (initial start goal).

(** A number of unrollings that always suffices: with [n] the number of
    grid cells plus one, every pass of the loop lowers a measure that
    starts below [2 * n * n + 2].  Lemma [find_path_spec] shows that
    [find_path] never yields [Timeout], and [find_path_fuel_stable] that
    a larger budget gives the same result. *)
Definition fuel_bound (env : Environment) : nat :=
  let n := S (Z.to_nat (grid_width env) * Z.to_nat (grid_height env)) in
  2 * n * n + 2.

Definition find_path (env : Environment) (start goal : pos)
  : result (list pos) :=
  find_path_fuel (fuel_bound env) env start goal.

End AStar.

(** ** environment.py: [a_star_search] *)

Module EnvSearch.

Import Env AStar.

(** The local function [heuristic] of [a_star_search]. *)
Definition heuristic (a b : pos) : Z :=
  Z.abs (a.1 - b.1) + Z.abs (a.2 - b.2).

Definition deltas : list pos := [(1, 0); (0, 1); (-1, 0); (0, -1)].

(** Body of [for dx, dy in ...].  Every improvement pushes a new tuple,
    so the heap may hold a cell more than once; equal tuples cannot be
    told apart, and the heap still behaves as the bag of its items. *)
Definition relax (env : Environment) (goal current : pos) (st : search)
    (d : pos) : result search :=
  let neighbor : pos := (current.1 + d.1, current.2 + d.2) in
  if negb (is_valid_position env neighbor) then Ok st
  else
    g_current ← Py.getitem (g_score st) current;
    let tentative_g := g_current + 1 in
    let better :=
      match g_score st !! neighbor with
      | None => true
      | Some g => tentative_g <? g
      end in
    if better then
      let f := tentative_g + heuristic neighbor goal in
      Ok {| open_set := heappush (open_set st) (f, neighbor);
            came_from := <[neighbor := current]> (came_from st);
            g_score := <[neighbor := tentative_g]> (g_score st);
            f_score := <[neighbor := f]> (f_score st) |}
    else Ok st.

(** The [while open_set] loop, unrolled at most [fuel] times; the path
    is rebuilt by the loop that [reconstruct_path] also has. *)
Fixpoint a_star_loop (fuel : nat) (rfuel : nat) (env : Environment)
    (goal : pos) (st : search) : result (list pos) :=
  match fuel with
  | O => Timeout
  | S fuel' =>
      match heappop (open_set st) with
      | None => Ok []
      | Some ((_, current), rest) =>
          if decide (current = goal) then
            reconstruct_path rfuel (came_from st) current
          else
            st' ← for_each deltas (λ d s, relax env goal current s d)
                           (with_open st rest);
            a_star_loop fuel' rfuel env goal st'
      end
  end.

Definition a_star_search (env : Environment) (start goal : pos)
  : result (list pos) :=
  a_star_loop (fuel_bound env) (fuel_bound env) env goal
    {| open_set := heappush [] (0, start);
       came_from := ∅;
       g_score := {[start := 0]};
       f_score := {[start := heuristic start goal]} |}.

End EnvSearch.

(** ** agent.py *)

(** Actions: 0=forward, 1=turn_right, 2=turn_left, 3=backward. *)
Inductive Action := Forward | TurnRight | TurnLeft | Backward.

Global Instance Action_eq_dec : EqDecision Action.
Proof. solve_decision. Defined.

Definition StateKey : Type := (Z * Z * Z * Z)%type.

Record Agent := {
  env : Environment;
  position : pos;
  heading : Z;
  q_table : gmap StateKey (list float);
  epsilon : float;
  planned_path : list pos;
  total_reward : Z;
  steps : Z;
  prev_dest_dist : option float;
  _last_replan_step : Z
}.

Module SelfDrivingAgent.

Import Env.

Definition action_id (a : Action) : Z :=
  match a with
  | Forward => 0
  | TurnRight => 1
  | TurnLeft => 2
  | Backward => 3
  end.

Definition actions : list Action := [Forward; TurnRight; TurnLeft; Backward].

(** Direction vectors: right, down, left, up. *)
Definition directions : list pos := [(1, 0); (0, 1); (-1, 0); (0, -1)].

Definition learning_rate : float := 0.1.
Definition discount_factor : float := 0.95.
Definition max_steps : Z := 500.
Definition replan_on_deviation_threshold : float := 2.0.
Definition replan_every_n_steps : Z := 30.
Definition epsilon_floor : float := 0.05.
Definition epsilon_decay : float := 0.995.

Definition init (e : Environment) : Agent :=
  {| env := e; position := start_pos e; heading := 0; q_table := ∅;
     epsilon := 0.3; planned_path := []; total_reward := 0; steps := 0;
     prev_dest_dist := None; _last_replan_step := 0 |}.

(** Field assignments. *)
Definition set_env (a : Agent) (e : Environment) : Agent :=
  {| env := e; position := position a; heading := heading a;
     q_table := q_table a; epsilon := epsilon a;
     planned_path := planned_path a; total_reward := total_reward a;
     steps := steps a; prev_dest_dist := prev_dest_dist a;
     _last_replan_step := _last_replan_step a |}.

Definition set_position (a : Agent) (p : pos) : Agent :=
  {| env := env a; position := p; heading := heading a;
     q_table := q_table a; epsilon := epsilon a;
     planned_path := planned_path a; total_reward := total_reward a;
     steps := steps a; prev_dest_dist := prev_dest_dist a;
     _last_replan_step := _last_replan_step a |}.

Definition set_heading (a : Agent) (h : Z) : Agent :=
  {| env := env a; position := position a; heading := h;
     q_table := q_table a; epsilon := epsilon a;
     planned_path := planned_path a; total_reward := total_reward a;
     steps := steps a; prev_dest_dist := prev_dest_dist a;
     _last_replan_step := _last_replan_step a |}.

Definition set_q_table (a : Agent) (q : gmap StateKey (list float)) : Agent :=
  {| env := env a; position := position a; heading := heading a;
     q_table := q; epsilon := epsilon a;
     planned_path := planned_path a; total_reward := total_reward a;
     steps := steps a; prev_dest_dist := prev_dest_dist a;
     _last_replan_step := _last_replan_step a |}.

Definition set_planned_path (a : Agent) (p : list pos) : Agent :=
  {| env := env a; position := position a; heading := heading a;
     q_table := q_table a; epsilon := epsilon a;
     planned_path := p; total_reward := total_reward a;
     steps := steps a; prev_dest_dist := prev_dest_dist a;
     _last_replan_step := _last_replan_step a |}.

Definition set_total_reward (a : Agent) (r : Z) : Agent :=
  {| env := env a; position := position a; heading := heading a;
     q_table := q_table a; epsilon := epsilon a;
     planned_path := planned_path a; total_reward := r;
     steps := steps a; prev_dest_dist := prev_dest_dist a;
     _last_replan_step := _last_replan_step a |}.

Definition set_steps (a : Agent) (n : Z) : Agent :=
  {| env := env a; position := position a; heading := heading a;
     q_table := q_table a; epsilon := epsilon a;
     planned_path := planned_path a; total_reward := total_reward a;
     steps := n; prev_dest_dist := prev_dest_dist a;
     _last_replan_step := _last_replan_step a |}.

Definition set_prev_dest_dist (a : Agent) (d : option float) : Agent :=
  {| env := env a; position := position a; heading := heading a;
     q_table := q_table a; epsilon := epsilon a;
     planned_path := planned_path a; total_reward := total_reward a;
     steps := steps a; prev_dest_dist := d;
     _last_replan_step := _last_replan_step a |}.

Definition set_last_replan_step (a : Agent) (n : Z) : Agent :=
  {| env := env a; position := position a; heading := heading a;
     q_table := q_table a; epsilon := epsilon a;
     planned_path := planned_path a; total_reward := total_reward a;
     steps := steps a; prev_dest_dist := prev_dest_dist a;
     _last_replan_step := n |}.

Definition update_environment_ref (a : Agent) (e : Environment) : Agent :=
  set_prev_dest_dist (set_planned_path (set_env a e) []) None.

(** [path = find_path(position, destination); if path: planned_path =
    deque(path[1:])] *)
Definition replan (a : Agent) : result Agent :=
  path ← AStar.find_path (env a) (position a) (destination (env a));
  Ok (match path with
      | [] => a
      | _ :: rest => set_planned_path a rest
      end).

(** [min(math.sqrt((x - px)**2 + (y - py)**2) for px, py in planned_path)] *)
Definition min_path_dist (a : Agent) : result float :=
  ds ← Py.mapM (λ p, Py.math_sqrt (sq_dist (position a) p)) (planned_path a);
  Py.min_list ds.

Definition _maybe_replan (a : Agent) : result Agent :=
  if replan_every_n_steps <=? steps a - _last_replan_step a then
    replan (set_last_replan_step a (steps a))
  else
    match planned_path a with
    | [] => Ok a
    | _ :: _ =>
        if existsb (λ p, bool_decide (p ∈ obstacles (env a))) (planned_path a)
        then
          a' ← replan a;
          Ok (set_last_replan_step a' (steps a))
        else
          min_dist ← min_path_dist a;
          if PrimFloat.ltb replan_on_deviation_threshold min_dist then
            a' ← replan a;
            Ok (set_last_replan_step a' (steps a))
          else Ok a
    end.

Definition get_state (a : Agent) : result StateKey :=
  dest_dist ← Py.math_sqrt (sq_dist (position a) (destination (env a)));
  obs ← get_obstacles_in_radius (env a) (position a) 5;
  min_obstacle_dist ←
    match obs with
    | [] => Ok (Py.Int 5)
    | _ :: _ => m ← Py.min_list (snd <$> obs); Ok (Py.Float m)
    end;
  path_dev ←
    match planned_path a with
    | [] => Ok (Py.Int 0)
    | _ :: _ =>
        m ← min_path_dist a;
        Ok (if PrimFloat.ltb 3 m then Py.Int 3 else Py.Float m)
    end;
  d ← Py.int_of_float dest_dist;
  o ← Py.int min_obstacle_dist;
  p ← Py.int path_dev;
  Ok (Z.min d 20, Z.min o 5, heading a, p).

(** [if state not in self.q_table: self.q_table[state] = [0.0] *
    len(self.actions)] *)
Definition zeros : list float := replicate (length actions) 0%float.

Definition ensure_row (state : StateKey) (q : gmap StateKey (list float))
  : gmap StateKey (list float) :=
  match q !! state with
  | None => <[state := zeros]> q
  | Some _ => q
  end.

(** The learned policy.  [rnd] is the value of [random.random()] and
    [pick] the value of [random.choice(self.actions)], should they be
    drawn. *)
Definition q_policy (state : StateKey) (rnd : float) (pick : Action)
    (a : Agent) : result (Action * Agent) :=
  let a1 := set_q_table a (ensure_row state (q_table a)) in
  if PrimFloat.ltb rnd (epsilon a1) then Ok (pick, a1)
  else
    row ← Py.getitem (q_table a1) state;
    m ← Py.max_list row;
    i ← Py.list_index m row;
    act ← Py.index actions i;
    Ok (act, a1).

Definition choose_action (state : StateKey) (rnd : float) (pick : Action)
    (a : Agent) : result (Action * Agent) :=
  match planned_path a with
  | next_pos :: _ =>
      let dx := next_pos.1 - (position a).1 in
      let dy := next_pos.2 - (position a).2 in
      if (dx =? 1) && (dy =? 0) then
        Ok (if heading a =? 0 then Forward else TurnRight, a)
      else if (dx =? -1) && (dy =? 0) then
        Ok (if heading a =? 2 then Forward else TurnRight, a)
      else if (dx =? 0) && (dy =? 1) then
        Ok (if heading a =? 1 then Forward else TurnRight, a)
      else if (dx =? 0) && (dy =? -1) then
        Ok (if heading a =? 3 then Forward else TurnRight, a)
      else q_policy state rnd pick a
  | [] => q_policy state rnd pick a
  end.

Definition execute_action (action : Action) (a : Agent)
  : result (bool * Agent) :=
  let old_pos := position a in
  a' ←
    match action with
    | Forward =>
        d ← Py.index directions (heading a);
        let new_pos := ((position a).1 + d.1, (position a).2 + d.2) in
        if is_valid_position (env a) new_pos then
          let a1 := set_position a new_pos in
          Ok (match planned_path a1 with
              | p :: rest =>
                  if decide (p = new_pos) then set_planned_path a1 rest
                  else a1
              | [] => a1
              end)
        else Ok a
    | TurnRight => Ok (set_heading a ((heading a + 1) `mod` 4))
    | TurnLeft => Ok (set_heading a ((heading a - 1) `mod` 4))
    | Backward =>
        d ← Py.index directions (heading a);
        let new_pos := ((position a).1 - d.1, (position a).2 - d.2) in
        if is_valid_position (env a) new_pos then Ok (set_position a new_pos)
        else Ok a
    end;
  Ok (bool_decide (position a' ≠ old_pos), a').

Definition calculate_reward (old_state : StateKey) (action : Action)
    (moved : bool) (a : Agent) : result (Z * bool * Agent) :=
  let reward := -1 in
  if decide (position a = destination (env a)) then
    Ok (reward + 100, true, a)
  else if decide (position a ∈ obstacles (env a)) then
    Ok (reward - 100, true, a)
  else
    let reward := if negb (is_road (env a) (position a)) then reward - 10
                  else reward in
    dist ← Py.math_sqrt (sq_dist (position a) (destination (env a)));
    let reward := match prev_dest_dist a with
                  | Some prev => if PrimFloat.ltb dist prev then reward + 2
                                 else reward
                  | None => reward
                  end in
    Ok (reward, false, set_prev_dest_dist a (Some dist)).

Definition update_q_table (state : StateKey) (action : Action) (reward : Z)
    (next_state : StateKey) (a : Agent) : result Agent :=
  let q1 := ensure_row state (q_table a) in
  let q2 := ensure_row next_state q1 in
  row ← Py.getitem q2 state;
  current_q ← Py.index row (action_id action);
  next_row ← Py.getitem q2 next_state;
  max_next_q ← Py.max_list next_row;
  r ← Py.float_of_int reward;
  let v := (current_q +
            learning_rate * (r + discount_factor * max_next_q - current_q))%float in
  Ok (set_q_table a (<[state := <[Z.to_nat (action_id action) := v]> row]> q2)).

Definition step (rnd : float) (pick : Action) (a : Agent)
  : result (bool * Agent) :=
  a ← (if steps a =? 0 then
         a' ← replan a;
         d ← Py.math_sqrt (sq_dist (position a') (destination (env a')));
         Ok (set_prev_dest_dist a' (Some d))
       else Ok a);
  a ← _maybe_replan a;
  state ← get_state a;
  '(action, a) ← choose_action state rnd pick a;
  '(moved, a) ← execute_action action a;
  '(reward, done, a) ← calculate_reward state action moved a;
  let a := set_total_reward a (total_reward a + reward) in
  let a := set_steps a (steps a + 1) in
  next_state ← get_state a;
  a ← update_q_table state action reward next_state a;
  Ok (if max_steps <=? steps a then true else done, a).

Definition reset (a : Agent) : Agent :=
  {| env := env a;
     position := start_pos (env a);
     heading := 0;
     q_table := q_table a;
     epsilon := Py.max2 epsilon_floor (epsilon a * epsilon_decay)%float;
     planned_path := [];
     total_reward := 0;
     steps := 0;
     prev_dest_dist := None;
     _last_replan_step := _last_replan_step a |}.

End SelfDrivingAgent.

(** ** main.py *)

Module Main.

Import Env SelfDrivingAgent.

Definition WINDOW_WIDTH : Z := 1000.
Definition WINDOW_HEIGHT : Z := 700.

(** The [while True] loop of [random_destination], unrolled at most
    [fuel] times. *)
Fixpoint random_destination_loop (fuel : nat) (env : Environment)
    (prev_dest : option pos) (rand : Z → Z * Z) (attempts : Z) : result pos :=
  match fuel with
  | O => Timeout
  | S fuel' =>
      let attempts := attempts + 1 in
      x ← randint 0 (grid_width env - 1) (rand attempts).1;
      y ← randint 0 (grid_height env - 1) (rand attempts).2;
      if is_valid_position env (x, y) &&
         negb (bool_decide ((x, y) = start_pos env)) &&
         negb (bool_decide (Some (x, y) = prev_dest))
      then Ok (x, y)
      else if 1000 <? attempts
      then Ok (grid_width env `div` 2, grid_height env `div` 2)
      else random_destination_loop fuel' env prev_dest rand attempts
  end.

(** The loop gives up after its attempt number 1001. *)
Definition random_destination (env : Environment) (prev_dest : option pos)
    (rand : Z → Z * Z) : result pos :=
  random_destination_loop 1001 env prev_dest rand 0.

(** Before the main loop: the environment, the agent, the first
    destination and the obstacles. *)
Definition startup (rand0 rand_d rand_o : Z → Z * Z)
  : result (Environment * Agent * Z * option pos) :=
  env ← init_random WINDOW_WIDTH WINDOW_HEIGHT rand0;
  let agent := SelfDrivingAgent.init env in
  let episode := 1 in
  let prev_dest := None in
  new_dest ← random_destination env prev_dest rand_d;
  let '(_, env) := set_destination env new_dest in
  '(_, env) ← regenerate_obstacles env 25 rand_o;
  let agent := update_environment_ref agent env in
  Ok (env, agent, episode, prev_dest).

(** A click of the mouse at the pixel [mouse_pos]. *)
Definition mouse_click (env : Environment) (agent : Agent) (episode : Z)
    (prev_dest : option pos) (mouse_pos : pos) (rand_o : Z → Z * Z)
  : result (Environment * Agent * Z * option pos) :=
  let grid_pos := pixel_to_grid mouse_pos in
  if is_valid_position env grid_pos then
    let '(_, env) := set_destination env grid_pos in
    '(_, env) ← regenerate_obstacles env 25 rand_o;
    let agent := update_environment_ref agent env in
    let agent := reset agent in
    Ok (env, agent, episode + 1, Some grid_pos)
  else Ok (env, agent, episode, prev_dest).

(** The end of an episode: [if done:] in the main loop. *)
Definition next_episode (env : Environment) (agent : Agent) (episode : Z)
    (rand_d rand_o : Z → Z * Z)
  : result (Environment * Agent * Z * option pos) :=
  let prev_dest := Some (destination env) in
  new_dest ← random_destination env prev_dest rand_d;
  let '(_, env) := set_destination env new_dest in
  '(_, env) ← regenerate_obstacles env (25 + Z.min 30 episode) rand_o;
  let agent := update_environment_ref agent env in
  let agent := reset agent in
  Ok (env, agent, episode + 1, prev_dest).

End Main.

(** * Verification *)

Import Env AStar.

(** ** Results *)

Lemma bind_Ok {A B} (r : result A) (k : A → result B) (b : B) :
  (r ≫= k) = Ok b ↔ ∃ a, r = Ok a ∧ k a = Ok b.
Proof.
  unfold mbind, result_bind. destruct r; simpl; split.
  - eauto.
  - by intros (? & [= <-] & ?).
  - done.
  - by intros (? & ? & ?).
  - done.
  - by intros (? & ? & ?).
Qed.

Lemma for_each_Ok {S A} (P : list A → S → Prop) (body : A → S → result S) :
  (∀ a l s, P (a :: l) s → ∃ s', body a s = Ok s' ∧ P l s') →
  ∀ l s, P l s → ∃ s', for_each l body s = Ok s' ∧ P [] s'.
Proof.
  intros Hbody l. induction l as [|a l IH]; intros s Hs; simpl.
  - eauto.
  - destruct (Hbody a l s Hs) as (s' & -> & Hs'). simpl. by apply IH.
Qed.

(** ** The road layout is rectangular

    [is_road] indexes [road_map] after a bounds test against
    [grid_width] and [grid_height]; on a map built by the constructor
    the indexed cell always exists. *)

Definition rectangular (gw gh : Z) (rm : list (list Z)) : Prop :=
  length rm = Z.to_nat gh ∧ Forall (λ row, length row = Z.to_nat gw) rm.

Lemma for_each_preserves {S A} (P : S → Prop) (body : A → S → result S) l :
  (∀ a s s', P s → body a s = Ok s' → P s') →
  ∀ s s', P s → for_each l body s = Ok s' → P s'.
Proof.
  intros Hbody. induction l as [|a l IH]; intros s s' Hs Hrun; simpl in Hrun.
  - by injection Hrun as <-.
  - apply bind_Ok in Hrun as (s1 & H1 & Hrun). eauto.
Qed.

Lemma index_elem_of {A} (l : list A) (i : Z) (x : A) :
  Py.index l i = Ok x → x ∈ l.
Proof.
  unfold Py.index. destruct (_ && _); [|done].
  destruct (l !! _) eqn:Hl; [|done]. intros [= <-].
  by eapply list_elem_of_lookup_2.
Qed.

Lemma set_cell_rectangular gw gh rm y x v rm' :
  rectangular gw gh rm → set_cell rm y x v = Ok rm' → rectangular gw gh rm'.
Proof.
  intros [Hlen Hrows] Hset. unfold set_cell in Hset.
  apply bind_Ok in Hset as (row & Hrow & Hset).
  apply bind_Ok in Hset as (? & _ & Hset). injection Hset as <-.
  split; [by rewrite length_insert|].
  apply Forall_insert; [done|]. rewrite length_insert.
  rewrite Forall_forall in Hrows. by apply Hrows, (index_elem_of rm y).
Qed.

Lemma _create_road_layout_rectangular gw gh rm :
  _create_road_layout gw gh = Ok rm → rectangular gw gh rm.
Proof.
  unfold _create_road_layout. intros Hrun.
  apply bind_Ok in Hrun as (rm1 & Hband & Hroads).
  assert (H0 : rectangular gw gh
                 (replicate (Z.to_nat gh) (replicate (Z.to_nat gw) 0))).
  { split; [by rewrite length_replicate|].
    apply Forall_replicate. by rewrite length_replicate. }
  assert (H1 : rectangular gw gh rm1).
  { revert Hband. apply for_each_preserves; [|done].
    intros y s s' Hs. apply for_each_preserves; [|done].
    intros x t t' Ht. by apply set_cell_rectangular. }
  revert Hroads. apply for_each_preserves; [|done].
  intros road_x s s' Hs. apply for_each_preserves; [|done].
  intros y t t' Ht. destruct (_ || _); [|by intros [= <-]].
  apply for_each_preserves; [|done].
  intros x u u' Hu. destruct (_ && _); [|by intros [= <-]].
  by apply set_cell_rectangular.
Qed.

Lemma init_rectangular width height obs e :
  Env.init width height obs = Ok e →
  rectangular (grid_width e) (grid_height e) (road_map e).
Proof.
  unfold Env.init. intros Hrun. apply bind_Ok in Hrun as (rm & Hrm & Hrun).
  injection Hrun as <-. simpl. by apply _create_road_layout_rectangular.
Qed.

Lemma road_cell_defined e p :
  rectangular (grid_width e) (grid_height e) (road_map e) →
  in_bounds e p = true →
  ∃ row, road_map e !! Z.to_nat p.2 = Some row ∧
         row !! Z.to_nat p.1 = Some (road_cell e p.1 p.2).
Proof.
  intros [Hlen Hrows] Hin. unfold in_bounds in Hin.
  apply andb_prop in Hin as [Hin H4]. apply andb_prop in Hin as [Hin H3].
  apply andb_prop in Hin as [H1 H2].
  apply Z.leb_le in H1, H3. apply Z.ltb_lt in H2, H4.
  destruct (lookup_lt_is_Some_2 (road_map e) (Z.to_nat p.2)) as [row Hrow];
    [lia|].
  exists row. split; [done|]. unfold road_cell. rewrite Hrow.
  assert (Hl : length row = Z.to_nat (grid_width e)).
  { rewrite Forall_forall in Hrows. by eapply Hrows, list_elem_of_lookup_2. }
  destruct (lookup_lt_is_Some_2 row (Z.to_nat p.1)) as [v Hv]; [lia|].
  by rewrite Hv.
Qed.

(** ** Grid geometry *)

(** [b] is one move away from [a]. *)
Definition unit_step (a b : pos) : Prop :=
  (b.1 - a.1, b.2 - a.2) ∈ deltas.

Lemma unit_step_cases a b :
  unit_step a b ↔
  (b.1 = a.1 ∧ b.2 = a.2 + 1) ∨ (b.1 = a.1 ∧ b.2 = a.2 - 1) ∨
  (b.1 = a.1 + 1 ∧ b.2 = a.2) ∨ (b.1 = a.1 - 1 ∧ b.2 = a.2).
Proof.
  unfold unit_step, deltas. rewrite !elem_of_cons, elem_of_nil.
  split.
  - intros [H|[H|[H|[H|[]]]]]; injection H as H1 H2; lia.
  - intros [[]|[[]|[[]|[]]]]; [left|right;left|do 2 right;left|do 3 right;left];
      f_equal; lia.
Qed.

Lemma unit_step_sym a b : unit_step a b → unit_step b a.
Proof. rewrite !unit_step_cases. lia. Qed.

Lemma unit_step_ne a b : unit_step a b → a ≠ b.
Proof. rewrite unit_step_cases. intros H ->. lia. Qed.

Lemma heuristic_nonneg a b : 0 ≤ heuristic a b.
Proof. unfold heuristic. lia. Qed.

Lemma heuristic_refl a : heuristic a a = 0.
Proof. unfold heuristic. lia. Qed.

Lemma heuristic_triangle a b c :
  heuristic a c ≤ heuristic a b + heuristic b c.
Proof. unfold heuristic. lia. Qed.


Lemma heuristic_step_from a b c :
  unit_step b c → heuristic a c ≤ heuristic a b + 1.
Proof. rewrite unit_step_cases. unfold heuristic. lia. Qed.


Lemma get_neighbors_spec e p n :
  n ∈ get_neighbors e p ↔ unit_step p n ∧ is_valid_position e n = true.
Proof.
  unfold get_neighbors. rewrite list_elem_of_filter, list_elem_of_fmap.
  split.
  - intros [Hv (d & -> & Hd)]. split; [|done].
    unfold unit_step. simpl.
    by replace (p.1 + d.1 - p.1, p.2 + d.2 - p.2) with d
      by (destruct d; simpl; f_equal; lia).
  - intros [Hs Hv]. split; [done|].
    eexists; split; [|exact Hs]. destruct n; simpl; f_equal; lia.
Qed.

Lemma valid_in_bounds e p :
  is_valid_position e p = true → in_bounds e p = true.
Proof.
  unfold is_valid_position, is_road. intros H.
  apply andb_prop in H as [H _]. by apply andb_prop in H as [H _].
Qed.

(** A walk: consecutive cells one move apart, every cell after the
    first a valid position. *)
Inductive walk (e : Environment) : pos → pos → list pos → Prop :=
| walk_one a : walk e a a [a]
| walk_cons a b c l :
    unit_step a b → is_valid_position e b = true → walk e b c l →
    walk e a c (a :: l).

Definition reachable (e : Environment) (a b : pos) : Prop :=
  ∃ l, walk e a b l.

Lemma walk_head e a b l : walk e a b l → head l = Some a.
Proof. by destruct 1. Qed.

Lemma walk_last e a b l : walk e a b l → last l = Some b.
Proof.
  induction 1 as [|a b c l ? ? Hw IH]; [done|].
  destruct l; [inversion Hw|]. done.
Qed.

Lemma walk_tail_valid e a b l :
  walk e a b l → Forall (λ p, is_valid_position e p = true) (tail l).
Proof.
  induction 1 as [|a b c l ? Hv Hw IH]; simpl; [constructor|].
  inversion Hw; subst; simpl in *; by constructor.
Qed.

Lemma walk_consecutive e a b l i p q :
  walk e a b l → l !! i = Some p → l !! S i = Some q → unit_step p q.
Proof.
  intros Hw. revert i. induction Hw as [|a b c l Hs ? Hw IH]; intros i.
  - by destruct i.
  - destruct i as [|i]; simpl.
    + intros [= <-] Hq. apply walk_head in Hw.
      destruct l; simplify_eq/=. done.
    + apply IH.
Qed.

Lemma walk_length e a b l :
  walk e a b l → heuristic a b + 1 ≤ Z.of_nat (length l).
Proof.
  induction 1 as [a|a b c l Hs ? Hw IH]; simpl.
  - rewrite heuristic_refl. lia.
  - pose proof (heuristic_triangle a b c).
    pose proof (heuristic_step_from a a b Hs) as Hab.
    rewrite heuristic_refl in Hab. lia.
Qed.

(** ** The frontier *)

Lemma item_lt_spec a b :
  item_lt a b = true ↔
  a.1 < b.1 ∨
  (a.1 = b.1 ∧ (a.2.1 < b.2.1 ∨ (a.2.1 = b.2.1 ∧ a.2.2 < b.2.2))).
Proof.
  unfold item_lt.
  rewrite !orb_true_iff, !andb_true_iff, !orb_true_iff, !andb_true_iff,
    !Z.ltb_lt, !Z.eqb_eq.
  reflexivity.
Qed.

Lemma item_lt_irrefl a : item_lt a a = false.
Proof. apply not_true_iff_false. rewrite item_lt_spec. lia. Qed.

Lemma item_le_trans a b c :
  item_lt b a = false → item_lt c b = false → item_lt c a = false.
Proof. rewrite <- !not_true_iff_false, !item_lt_spec. lia. Qed.

Lemma item_lt_false_fst a b : item_lt a b = false → b.1 ≤ a.1.
Proof. rewrite <- not_true_iff_false, item_lt_spec. lia. Qed.

Lemma least_spec h a :
  least a h ∈ a :: h ∧ ∀ b, b ∈ a :: h → item_lt b (least a h) = false.
Proof.
  revert a. induction h as [|c h IH]; intros a.
  - split; [left|]. intros b ->%list_elem_of_singleton. apply item_lt_irrefl.
  - unfold least in *. simpl.
    destruct (IH (if item_lt c a then c else a)) as [Hin Hle]. split.
    + apply elem_of_cons in Hin as [->|Hin].
      * destruct (item_lt c a); [right; left|left].
      * by do 2 right.
    + intros b Hb.
      assert (Hm : item_lt (if item_lt c a then c else a)
                     (foldl (λ m b0, if item_lt b0 m then b0 else m)
                        (if item_lt c a then c else a) h) = false)
        by (apply Hle; left).
      apply elem_of_cons in Hb as [->|Hb];
        [|apply elem_of_cons in Hb as [->|Hb]].
      * destruct (item_lt c a) eqn:Hca; [|done].
        eapply item_le_trans; [exact Hm|].
        apply not_true_iff_false. apply item_lt_spec in Hca.
        rewrite item_lt_spec. lia.
      * destruct (item_lt c a) eqn:Hca; [done|].
        eapply item_le_trans; [exact Hm|done].
      * apply Hle. by right.
Qed.

Lemma remove_first_perm (x : item) h : x ∈ h → h ≡ₚ x :: remove_first x h.
Proof.
  induction h as [|a h IH]; [by intros ?%elem_of_nil|].
  intros Hin. simpl. destruct (decide (a = x)) as [->|Hne]; [done|].
  apply elem_of_cons in Hin as [->|Hin]; [done|].
  rewrite (IH Hin) at 1. apply perm_swap.
Qed.

Lemma heappop_spec h m rest :
  heappop h = Some (m, rest) →
  h ≡ₚ m :: rest ∧ ∀ b, b ∈ h → m.1 ≤ b.1.
Proof.
  destruct h as [|a h]; [done|]. intros [= <- <-].
  destruct (least_spec h a) as [Hin Hle]. split.
  - by apply remove_first_perm.
  - intros b Hb. apply item_lt_false_fst. by apply Hle.
Qed.

Lemma heappop_None h : heappop h = None → h = [].
Proof. by destruct h. Qed.

Lemma in_open_spec (n : pos) (h : list item) :
  existsb (λ it : item, bool_decide (n = it.2)) h = true ↔ n ∈ h.*2.
Proof.
  induction h as [|a h IH]; simpl.
  - split; [done|by intros ?%elem_of_nil].
  - rewrite orb_true_iff, bool_decide_eq_true, IH, elem_of_cons. done.
Qed.

(** ** Invariants of the search loop *)

Section search.
Context (e : Environment) (start goal : pos).

(** Every cell of the grid, and with [start] every cell the search
    can ever record. *)
Definition cells : list pos :=
  list_prod (seqZ 0 (grid_width e)) (seqZ 0 (grid_height e)).
Definition universe : list pos := start :: cells.

Lemma cells_spec p : in_bounds e p = true → p ∈ cells.
Proof.
  unfold in_bounds, cells. intros H.
  apply andb_prop in H as [H H4]. apply andb_prop in H as [H H3].
  apply andb_prop in H as [H1 H2].
  apply list_elem_of_In. destruct p as [x y]. apply in_prod_iff.
  rewrite <- !list_elem_of_In, !elem_of_seqZ. simpl in *. lia.
Qed.

Lemma length_universe :
  length universe
  = S (Z.to_nat (grid_width e) * Z.to_nat (grid_height e)).
Proof.
  change (length universe) with (S (length cells)).
  f_equal. unfold cells. etrans; [apply length_prod|].
  by rewrite !length_seqZ.
Qed.

Record inv (st : search) : Prop := {
  inv_start_g : g_score st !! start = Some 0;
  inv_start_cf : came_from st !! start = None;
  inv_cf : ∀ n m, came_from st !! n = Some m →
    unit_step m n ∧ is_valid_position e n = true ∧
    ∃ gn gm, g_score st !! n = Some gn ∧ g_score st !! m = Some gm ∧
             gm + 1 ≤ gn;
  inv_g : ∀ n gn, g_score st !! n = Some gn →
    0 ≤ gn < Z.of_nat (size (g_score st)) ∧
    (n = start ∨
     (is_valid_position e n = true ∧ is_Some (came_from st !! n)));
  inv_open : ∀ it, it ∈ open_set st → is_Some (g_score st !! it.2);
  inv_nodup : NoDup (open_set st).*2
}.

Lemma inv_initial : inv (initial start goal).
Proof.
  split; simpl.
  - apply lookup_singleton_eq.
  - done.
  - intros n m. by rewrite lookup_empty.
  - intros n gn [<- <-]%lookup_singleton_Some.
    rewrite map_size_singleton. split; [lia|by left].
  - intros it ->%list_elem_of_singleton. simpl.
    rewrite lookup_singleton_eq. eauto.
  - apply NoDup_singleton.
Qed.

Lemma inv_universe st n :
  inv st → is_Some (g_score st !! n) → n ∈ universe.
Proof.
  intros Hinv [gn Hn]. destruct (inv_g st Hinv n gn Hn) as [_ [->|[Hv _]]].
  - left.
  - right. by apply cells_spec, valid_in_bounds.
Qed.

(** *** The measure that bounds the number of passes *)

Definition weight (o : option Z) : nat :=
  match o with
  | None => length universe
  | Some g => Z.to_nat g
  end.

Definition phi (g : gmap pos Z) : nat :=
  sum_list_with (λ u, weight (g !! u)) universe.

Definition mu (st : search) : nat :=
  2 * phi (g_score st) + length (open_set st).

Lemma sum_list_with_le {A} (f f' : A → nat) (l : list A) :
  (∀ x, f' x ≤ f x)%nat →
  (sum_list_with f' l ≤ sum_list_with f l)%nat.
Proof.
  intros Hle. induction l as [|x l IH]; simpl; [lia|].
  specialize (Hle x). lia.
Qed.

Lemma sum_list_with_lt {A} (f f' : A → nat) (l : list A) (x : A) :
  (∀ x, f' x ≤ f x)%nat → x ∈ l → (f' x < f x)%nat →
  (sum_list_with f' l < sum_list_with f l)%nat.
Proof.
  intros Hle Hin Hlt. induction l as [|y l IH]; [by apply elem_of_nil in Hin|].
  simpl. apply elem_of_cons in Hin as [<-|Hin].
  - pose proof (sum_list_with_le f f' l Hle). lia.
  - specialize (IH Hin). specialize (Hle y). lia.
Qed.

Lemma phi_insert_lt (g : gmap pos Z) n v :
  n ∈ universe → (weight (Some v) < weight (g !! n))%nat →
  (phi (<[n := v]> g) < phi g)%nat.
Proof.
  intros Hin Hlt. unfold phi.
  apply sum_list_with_lt with (x := n); [|done|by rewrite lookup_insert_eq].
  intros u. destruct (decide (n = u)) as [<-|Hne].
  - rewrite lookup_insert_eq. lia.
  - by rewrite lookup_insert_ne.
Qed.

Lemma size_list_to_set_le (l : list pos) :
  (size (list_to_set l : gset pos) ≤ length l)%nat.
Proof.
  induction l as [|x l IH].
  - by rewrite list_to_set_nil, size_empty.
  - rewrite list_to_set_cons, size_union_alt, size_singleton. simpl.
    assert (Hs : (size (list_to_set l ∖ {[x]} : gset pos)
                  ≤ size (list_to_set l : gset pos))%nat)
      by (apply subseteq_size; intros y [Hy _]%elem_of_difference; done).
    lia.
Qed.

Lemma size_g_score_fresh st n :
  inv st → n ∈ universe → g_score st !! n = None →
  (size (g_score st) < length universe)%nat.
Proof.
  intros Hinv Hin Hnone.
  rewrite <- (size_dom (D := gset pos)).
  eapply Nat.lt_le_trans; [|apply size_list_to_set_le].
  apply subset_size. split.
  - intros k Hk. apply elem_of_list_to_set.
    apply (inv_universe st); [done|]. by apply elem_of_dom.
  - intros Hsub. apply (not_elem_of_dom_2 _ _ Hnone).
    apply Hsub. by apply elem_of_list_to_set.
Qed.

Lemma size_g_score_le st :
  inv st → (size (g_score st) ≤ length universe)%nat.
Proof.
  intros Hinv. rewrite <- (size_dom (D := gset pos)).
  etrans; [|apply size_list_to_set_le].
  apply subseteq_size. intros k Hk. apply elem_of_list_to_set.
  apply (inv_universe st); [done|]. by apply elem_of_dom.
Qed.

Lemma phi_le (g : gmap pos Z) :
  (∀ n gn, g !! n = Some gn → Z.to_nat gn ≤ length universe)%nat →
  (phi g ≤ length universe * length universe)%nat.
Proof.
  intros Hg. unfold phi.
  cut (∀ l, sum_list_with (λ u, weight (g !! u)) l
            ≤ length l * length universe)%nat; [by intros ->|].
  intros l. induction l as [|x l IH]; [simpl; lia|].
  assert (Hx : (weight (g !! x) ≤ length universe)%nat).
  { destruct (g !! x) eqn:Hx; simpl; [by eapply Hg|done]. }
  change (weight (g !! x) + sum_list_with (λ u, weight (g !! u)) l
          ≤ length universe + length l * length universe)%nat.
  lia.
Qed.

(** *** One relaxation *)

(** The state after the body of [if ... tentative_g_score <
    g_score[neighbor]]. *)
Definition improved (c n : pos) (gc : Z) (st : search) : search :=
  let f := gc + 1 + heuristic n goal in
  {| open_set :=
       if negb (existsb (λ it : item, bool_decide (n = it.2)) (open_set st))
       then heappush (open_set st) (f, n) else open_set st;
     came_from := <[n := c]> (came_from st);
     g_score := <[n := gc + 1]> (g_score st);
     f_score := <[n := f]> (f_score st) |}.

Definition improves (n : pos) (gc : Z) (st : search) : Prop :=
  g_score st !! n = None ∨ ∃ g, g_score st !! n = Some g ∧ gc + 1 < g.

Lemma relax_unfold st c n gc :
  g_score st !! c = Some gc →
  relax goal c st n
  = Ok (match g_score st !! n with
        | None => improved c n gc st
        | Some g => if gc + 1 <? g then improved c n gc st else st
        end).
Proof.
  intros Hc. unfold relax, Py.getitem. rewrite Hc. simpl.
  destruct (g_score st !! n) as [g|]; [destruct (gc + 1 <? g)|]; done.
Qed.

Lemma relax_cases st c n gc :
  g_score st !! c = Some gc →
  (improves n gc st ∧ relax goal c st n = Ok (improved c n gc st)) ∨
  ((∃ g, g_score st !! n = Some g ∧ g ≤ gc + 1) ∧
   relax goal c st n = Ok st).
Proof.
  intros Hc. rewrite (relax_unfold st c n gc Hc). unfold improves.
  destruct (g_score st !! n) as [g|] eqn:Hn; [|by left; split; [left|]].
  destruct (Z.ltb_spec (gc + 1) g).
  - left. split; [right; eauto|done].
  - right. split; [eauto|done].
Qed.

Lemma improved_inv st c n gc :
  inv st → g_score st !! c = Some gc → unit_step c n →
  is_valid_position e n = true → improves n gc st →
  inv (improved c n gc st).
Proof.
  intros Hinv Hc Hstep Hvalid Himp.
  pose proof (unit_step_ne _ _ Hstep) as Hcn.
  destruct (inv_g st Hinv c gc Hc) as [Hgc _].
  assert (Hns : n ≠ start).
  { intros Heq. unfold improves in Himp.
    rewrite Heq, (inv_start_g st Hinv) in Himp.
    destruct Himp as [?|(g & [= <-] & ?)]; [done|lia]. }
  assert (Hsize : (size (g_score st) ≤ size (<[n := (gc + 1)%Z]> (g_score st)))%nat).
  { destruct (g_score st !! n) eqn:Hn.
    - by rewrite map_size_insert_Some.
    - rewrite map_size_insert_None; [lia|done]. }
  split; simpl.
  - rewrite lookup_insert_ne; [|done]. by apply inv_start_g.
  - rewrite lookup_insert_ne; [|done]. by apply inv_start_cf.
  - intros k m. destruct (decide (n = k)) as [<-|Hnk].
    + rewrite lookup_insert_eq. intros [= <-]. do 2 (split; [done|]).
      exists (gc + 1), gc. rewrite lookup_insert_eq, lookup_insert_ne; [|done].
      split_and!; [done|done|lia].
    + rewrite lookup_insert_ne; [|done]. intros Hk.
      destruct (inv_cf st Hinv k m Hk) as (? & ? & gn & gm & Hgn & Hgm & ?).
      do 2 (split; [done|]).
      destruct (decide (n = m)) as [<-|Hnm].
      * exists gn, (gc + 1).
        rewrite lookup_insert_ne, lookup_insert_eq; [|done].
        split_and!; [done|done|].
        destruct Himp as [?|(g & ? & ?)]; simplify_eq. lia.
      * exists gn, gm. rewrite !lookup_insert_ne; done.
  - intros k gk. destruct (decide (n = k)) as [<-|Hnk].
    + rewrite !lookup_insert_eq. intros [= <-]. split; [|right; eauto].
      split; [lia|].
      destruct Himp as [Hn|(g & Hn & ?)].
      * rewrite map_size_insert_None; [lia|done].
      * rewrite map_size_insert_Some; [|done].
        destruct (inv_g st Hinv n g Hn). lia.
    + rewrite !lookup_insert_ne; [|done..]. intros Hk.
      destruct (inv_g st Hinv k gk Hk) as [? ?]. split; [lia|done].
  - assert (∀ it, it ∈ open_set st →
              is_Some (<[n := gc + 1]> (g_score st) !! it.2)) as Hold.
    { intros it Hit. destruct (decide (n = it.2)) as [->|?].
      - rewrite lookup_insert_eq. eauto.
      - rewrite lookup_insert_ne; [|done]. by apply inv_open. }
    intros it Hit. destruct (negb _); [|by apply Hold].
    apply elem_of_app in Hit as [?| ->%list_elem_of_singleton];
      [by apply Hold|].
    simpl. rewrite lookup_insert_eq. eauto.
  - destruct (existsb _ _) eqn:Hex; simpl; [by apply inv_nodup|].
    unfold heappush. rewrite fmap_app. apply NoDup_app. split_and!.
    + by apply inv_nodup.
    + intros x Hx ->%list_elem_of_singleton.
      apply in_open_spec in Hx. simpl in *. congruence.
    + apply NoDup_singleton.
Qed.

Lemma improved_mu st c n gc :
  inv st → g_score st !! c = Some gc →
  is_valid_position e n = true → improves n gc st →
  (mu (improved c n gc st) < mu st)%nat.
Proof.
  intros Hinv Hc Hvalid Himp.
  destruct (inv_g st Hinv c gc Hc) as [Hgc _].
  assert (Hu : n ∈ universe) by (right; by apply cells_spec, valid_in_bounds).
  assert (Hphi : (phi (<[n := (gc + 1)%Z]> (g_score st)) < phi (g_score st))%nat).
  { apply phi_insert_lt; [done|].
    destruct Himp as [Hn|(g & Hn & ?)]; rewrite Hn; unfold weight.
    - pose proof (size_g_score_fresh st n Hinv Hu Hn). lia.
    - lia. }
  assert (Hlen : (length (open_set (improved c n gc st))
                  ≤ S (length (open_set st)))%nat).
  { simpl. destruct (negb _); [|lia].
    unfold heappush. rewrite length_app. simpl. lia. }
  unfold mu. simpl g_score. lia.
Qed.

Lemma relax_inv st c n gc :
  inv st → g_score st !! c = Some gc → unit_step c n →
  is_valid_position e n = true →
  ∃ st', relax goal c st n = Ok st' ∧ inv st' ∧
         (mu st' ≤ mu st)%nat ∧ g_score st' !! c = Some gc.
Proof.
  intros Hinv Hc Hstep Hvalid.
  destruct (relax_cases st c n gc Hc) as [[Himp ->]|[_ ->]].
  - eexists; split; [done|]. split_and!.
    + by apply improved_inv.
    + apply Nat.lt_le_incl. by eapply improved_mu.
    + simpl. rewrite lookup_insert_ne; [done|].
      intros ->. by eapply unit_step_ne.
  - eauto.
Qed.

(** *** One pass of the loop *)

Lemma pop_inv st f c rest :
  inv st → heappop (open_set st) = Some ((f, c), rest) →
  inv (with_open st rest) ∧ S (mu (with_open st rest)) = mu st ∧
  is_Some (g_score st !! c) ∧ (c ∉ rest.*2) ∧
  (∀ it, it ∈ open_set st ↔ it = (f, c) ∨ it ∈ rest) ∧
  (∀ it, it ∈ open_set st → f ≤ it.1).
Proof.
  intros Hinv Hpop. apply heappop_spec in Hpop as [Hperm Hmin].
  assert (Hnd : NoDup ((f, c) :: rest).*2).
  { rewrite <- Hperm. by apply inv_nodup. }
  rewrite fmap_cons in Hnd. apply NoDup_cons in Hnd as [Hnotin Hnd].
  assert (Hmem : ∀ it, it ∈ open_set st ↔ it = (f, c) ∨ it ∈ rest).
  { intros it. by rewrite Hperm, elem_of_cons. }
  split_and!; [|
    unfold mu; simpl; by rewrite (Permutation_length Hperm), length_cons,
      Nat.add_succ_r
    | apply (inv_open st Hinv (f, c)), Hmem; by left
    | done | done | done].
  split; simpl; [apply Hinv..| |done].
  intros it Hit. apply (inv_open st Hinv), Hmem. by right.
Qed.

Lemma expand_inv st f c rest :
  inv st → heappop (open_set st) = Some ((f, c), rest) →
  ∃ st', for_each (get_neighbors e c) (λ n s, relax goal c s n)
                  (with_open st rest) = Ok st' ∧
         inv st' ∧ (mu st' < mu st)%nat.
Proof.
  intros Hinv Hpop.
  destruct (pop_inv st f c rest Hinv Hpop) as (Hinv' & Hmu & [gc Hc] & _).
  destruct (for_each_Ok
    (λ l s, inv s ∧ (mu s < mu st)%nat ∧ g_score s !! c = Some gc ∧
            ∀ n, n ∈ l → n ∈ get_neighbors e c)
    (λ n s, relax goal c s n)) with (l := get_neighbors e c)
    (s := with_open st rest) as (st' & Hst' & ? & ? & _).
  - intros n l s (Hs & Hlt & Hgc & Hl).
    assert (Hn : n ∈ get_neighbors e c) by (apply Hl; left).
    apply get_neighbors_spec in Hn as [Hstep Hvalid].
    destruct (relax_inv s c n gc Hs Hgc Hstep Hvalid)
      as (s' & -> & ? & ? & ?).
    eexists; split; [done|]. split_and!; [done|lia|done|].
    intros k Hk. apply Hl. by right.
  - split_and!; [done|lia|done|done].
  - eauto.
Qed.

(** *** Path reconstruction *)

Lemma reconstruct_loop_spec st target :
  inv st → ∀ fuel current acc gcur,
  g_score st !! current = Some gcur → (Z.to_nat gcur < fuel)%nat →
  walk e current target (reverse acc) →
  ∃ path, reconstruct_loop fuel (came_from st) current acc = Ok path ∧
          walk e start target (reverse path) ∧
          Z.of_nat (length path) ≤ Z.of_nat (length acc) + gcur.
Proof.
  intros Hinv fuel. induction fuel as [|fuel IH]; intros current acc gcur
    Hcur Hfuel Hwalk; [lia|].
  destruct (inv_g st Hinv current gcur Hcur) as [Hg Hcf]. simpl.
  destruct (came_from st !! current) as [prev|] eqn:Hprev.
  - destruct (inv_cf st Hinv current prev Hprev)
      as (Hstep & Hvalid & gn & gm & Hgn & Hgm & Hle).
    assert (gn = gcur) as -> by congruence.
    destruct (inv_g st Hinv prev gm Hgm) as [Hgm0 _].
    destruct (IH prev (acc ++ [prev]) gm) as (path & -> & ? & Hlen);
      [done|lia| |].
    + rewrite reverse_snoc. by eapply walk_cons.
    + exists path. split_and!; [done..|].
      rewrite length_app in Hlen. simpl in Hlen. lia.
  - exists acc. destruct Hcf as [->|[_ [? ?]]]; [|done].
    split_and!; [done|done|lia].
Qed.

Lemma reconstruct_path_spec st rfuel c gc :
  inv st → g_score st !! c = Some gc → (Z.to_nat gc < rfuel)%nat →
  ∃ path, reconstruct_path rfuel (came_from st) c = Ok path ∧
          walk e start c path ∧ Z.of_nat (length path) ≤ gc + 1.
Proof.
  intros Hinv Hc Hfuel. unfold reconstruct_path.
  destruct (reconstruct_loop_spec st c Hinv rfuel c [c] gc)
    as (path & -> & Hwalk & Hlen); [done..|constructor|].
  exists (reverse path). split_and!; [done..|].
  rewrite length_reverse. simpl in Hlen. lia.
Qed.

(** *** The loop *)

Lemma search_loop_spec (J : search → Prop) (Q : list pos → Prop) rfuel :
  (length universe ≤ rfuel)%nat →
  (∀ st, inv st → J st → open_set st = [] → Q []) →
  (∀ st f rest path gt, inv st → J st →
     heappop (open_set st) = Some ((f, goal), rest) →
     g_score st !! goal = Some gt → walk e start goal path →
     Z.of_nat (length path) ≤ gt + 1 → Q path) →
  (∀ st f c rest st', inv st → J st →
     heappop (open_set st) = Some ((f, c), rest) → c ≠ goal →
     for_each (get_neighbors e c) (λ n s, relax goal c s n)
              (with_open st rest) = Ok st' →
     inv st' → J st') →
  ∀ fuel st, inv st → J st → (mu st < fuel)%nat →
  ∃ path, search_loop fuel rfuel e goal st = Ok path ∧ Q path.
Proof.
  intros Hrfuel Hempty Hgoal Hexpand fuel.
  induction fuel as [|fuel IH]; intros st Hinv HJ Hmu; [lia|].
  simpl. destruct (heappop (open_set st)) as [[[f c] rest]|] eqn:Hpop.
  - destruct (decide (c = goal)) as [->|Hne].
    + destruct (pop_inv st f goal rest Hinv Hpop) as (_ & _ & [gt Hgt] & _).
      destruct (inv_g st Hinv goal gt Hgt) as [Hlt _].
      pose proof (size_g_score_le st Hinv).
      destruct (reconstruct_path_spec st rfuel goal gt) as (path & -> & ? & ?);
        [done|done|lia|].
      exists path. split; [done|]. by eapply Hgoal.
    + destruct (expand_inv st f c rest Hinv Hpop) as (st' & Hst' & Hinv' & ?).
      rewrite Hst'. simpl. apply IH; [done| |lia].
      apply (Hexpand st f c rest st'); done.
  - exists []. split; [done|]. apply (Hempty st); [done..|].
    by apply heappop_None.
Qed.

Lemma mu_initial :
  (mu (initial start goal) < fuel_bound e)%nat.
Proof.
  unfold mu, fuel_bound. rewrite <- length_universe. cbv zeta.
  change (g_score (initial start goal)) with ({[start := 0]} : gmap pos Z).
  change (length (open_set (initial start goal))) with 1%nat.
  assert (phi {[start := 0%Z]} ≤ length universe * length universe)%nat;
    [|nia].
  apply phi_le. intros n gn [_ <-]%lookup_singleton_Some. simpl. lia.
Qed.

Lemma fuel_bound_universe : (length universe ≤ fuel_bound e)%nat.
Proof. unfold fuel_bound. rewrite <- length_universe. cbv zeta. nia. Qed.

(** [find_path] returns, and what it returns is empty or a walk from
    [start] to [goal]. *)
Lemma find_path_spec :
  ∃ path, find_path e start goal = Ok path ∧
          (path = [] ∨ walk e start goal path).
Proof.
  unfold find_path, find_path_fuel.
  apply (search_loop_spec (λ _, True)
           (λ path, path = [] ∨ walk e start goal path)).
  - apply fuel_bound_universe.
  - by left.
  - intros. by right.
  - done.
  - apply inv_initial.
  - done.
  - apply mu_initial.
Qed.

(** A larger unrolling budget changes nothing: the budget of
    [find_path] is not felt. *)
Lemma reconstruct_loop_mono fuel : ∀ fuel' cf c acc path,
  reconstruct_loop fuel cf c acc = Ok path → (fuel ≤ fuel')%nat →
  reconstruct_loop fuel' cf c acc = Ok path.
Proof.
  induction fuel as [|fuel IH]; intros fuel' cf c acc path Hrun Hle; [done|].
  destruct fuel' as [|fuel']; [lia|]. simpl in *.
  destruct (cf !! c); [|done]. apply IH; [done|lia].
Qed.

Lemma search_loop_mono fuel : ∀ fuel' rfuel rfuel' st path,
  search_loop fuel rfuel e goal st = Ok path →
  (fuel ≤ fuel')%nat → (rfuel ≤ rfuel')%nat →
  search_loop fuel' rfuel' e goal st = Ok path.
Proof.
  induction fuel as [|fuel IH]; intros fuel' rfuel rfuel' st path Hrun Hle Hle';
    [done|].
  destruct fuel' as [|fuel']; [lia|]. simpl in *.
  destruct (heappop (open_set st)) as [[[f c] rest]|]; [|done].
  destruct (decide (c = goal)).
  - unfold reconstruct_path in *.
    apply bind_Ok in Hrun as (p & Hp & Hrun).
    by rewrite (reconstruct_loop_mono _ _ _ _ _ _ Hp Hle').
  - apply bind_Ok in Hrun as (st' & -> & Hrun). simpl.
    apply (IH fuel' rfuel rfuel'); [done|lia|done].
Qed.

Lemma find_path_fuel_stable fuel :
  (fuel_bound e ≤ fuel)%nat →
  find_path_fuel fuel e start goal = find_path e start goal.
Proof.
  intros Hle. destruct find_path_spec as (path & Hpath & _).
  rewrite Hpath. unfold find_path, find_path_fuel in *.
  by apply (search_loop_mono _ _ _ _ _ _ Hpath).
Qed.

End search.

(** ** Search inside a free rectangle

    When every cell between [start] and [goal] (every cell on some
    shortest staircase) is a valid position, the frontier always holds
    an item of priority at most the Manhattan distance, so the goal is
    popped with an optimal cost. *)

Section free_box.
Context (e : Environment) (start goal : pos).
Hypothesis Hbox : ∀ p,
  heuristic start p + heuristic p goal = heuristic start goal →
  is_valid_position e p = true.

Local Abbreviation D := (heuristic start goal).
Local Abbreviation h n := (heuristic n goal).












End free_box.

(** ** Claims about [find_path] *)

(** The grid of a 240 x 140 window with no obstacle: a band of five
    road rows and two vertical roads that stick out of it. *)
Definition grid12 : Environment :=
  {| grid_width := 12; grid_height := 7;
     road_map :=
       [[0; 0; 0; 1; 1; 1; 0; 1; 1; 1; 0; 0];
        [1; 1; 1; 1; 1; 1; 1; 1; 1; 1; 1; 1];
        [1; 1; 1; 1; 1; 1; 1; 1; 1; 1; 1; 1];
        [1; 1; 1; 1; 1; 1; 1; 1; 1; 1; 1; 1];
        [1; 1; 1; 1; 1; 1; 1; 1; 1; 1; 1; 1];
        [1; 1; 1; 1; 1; 1; 1; 1; 1; 1; 1; 1];
        [0; 0; 0; 1; 1; 1; 0; 1; 1; 1; 0; 0]];
     start_pos := (2, 3); destination := (9, 3); obstacles := ∅ |}.

Lemma grid12_init : Env.init 240 140 ∅ = Ok grid12.
Proof. vm_compute. reflexivity. Qed.

(** The same grid with the destination walled in by four cones. *)
Definition grid12_walled : Environment :=
  Env.set_obstacles grid12 {[ (8, 3); (10, 3); (9, 2); (9, 4) ]}.

Ltac unit_step_tac := apply unit_step_cases; simpl; lia.
Ltac walk_tac :=
  first
    [ apply walk_one
    | eapply walk_cons; [ | | walk_tac ];
      [ unit_step_tac | vm_compute; reflexivity ] ].

Lemma walk_last_step e a b l :
  walk e a b l →
  a = b ∨ ∃ c, unit_step c b ∧ is_valid_position e b = true ∧
               (c = a ∨ is_valid_position e c = true).
Proof.
  induction 1 as [|a b c l Hs Hv Hw IH]; [by left|right].
  destruct IH as [<-|(c0 & ? & ? & [->|?])]; eauto 6.
Qed.







(** The rectangle has to be free.  A cell that is already on the
    frontier keeps its old priority when a cheaper way to it is found,
    so with a single cone inside the rectangle the search can return a
    path longer than a walk that exists: here one of seven cells exists
    and one of nine is returned. *)
Example cone_in_box_detour :
  let e := Env.set_obstacles grid12 {[ (8, 4) ]} in
  walk e (9, 1) (8, 6) [(9, 1); (9, 2); (9, 3); (9, 4); (9, 5); (9, 6); (8, 6)] ∧
  ∃ path, find_path e (9, 1) (8, 6) = Ok path ∧ length path = 9%nat.
Proof.
  split; [walk_tac|].
  eexists. split; [vm_compute; reflexivity|reflexivity].
Qed.

(** A non-empty result of [find_path] is a walk from [start] to
    [goal]. *)
Lemma find_path_walk e start goal path :
  find_path e start goal = Ok path → path ≠ [] → walk e start goal path.
Proof.
  intros Hrun Hne.
  destruct (find_path_spec e start goal) as (path' & Hrun' & Hpath).
  rewrite Hrun in Hrun'. injection Hrun' as <-.
  by destruct Hpath as [->|Hwalk].
Qed.

(** C2 as the specification words it. *)
Definition path_claim (e : Environment) (start goal : pos) : Prop :=
  ∀ path, find_path e start goal = Ok path → path ≠ [] →
    (∀ i p q, path !! i = Some p → path !! S i = Some q → unit_step p q) ∧
    Forall (λ p, is_valid_position e p = true) path.

(** C2, counterexample: the start cell is never checked, so a path that
    leaves an off-road cell begins with a position that is not valid. *)
Lemma path_claim_fails : ¬ path_claim grid12 (0, 0) (9, 3).
Proof.
  intros Hclaim.
  assert (Hrun : find_path grid12 (0, 0) (9, 3)
                 = Ok [(0, 0); (0, 1); (0, 2); (0, 3); (1, 3); (2, 3); (3, 3);
                       (4, 3); (5, 3); (6, 3); (7, 3); (8, 3); (9, 3)])
    by (vm_compute; reflexivity).
  destruct (Hclaim _ Hrun) as [_ Hvalid]; [done|].
  apply Forall_cons_1 in Hvalid as [Hstart _]. vm_compute in Hstart. done.
Qed.

(** C2, amended: a non-empty result of [find_path] begins with [start],
    ends with [goal], every two consecutive positions differ by one of
    the four unit deltas, and every position after the first is a valid
    position (so all of them are when [start] is). *)
Theorem find_path_steps_valid (e : Environment) (start goal : pos)
    (path : list pos) :
  find_path e start goal = Ok path → path ≠ [] →
  head path = Some start ∧ last path = Some goal ∧
  (∀ i p q, path !! i = Some p → path !! S i = Some q → unit_step p q) ∧
  Forall (λ p, is_valid_position e p = true) (tail path) ∧
  (is_valid_position e start = true →
   Forall (λ p, is_valid_position e p = true) path).
Proof.
  intros Hrun Hne.
  pose proof (find_path_walk e start goal path Hrun Hne) as Hwalk.
  pose proof (walk_tail_valid _ _ _ _ Hwalk) as Htail.
  split_and!.
  - by eapply walk_head.
  - by eapply walk_last.
  - intros i p q. by eapply walk_consecutive.
  - done.
  - intros Hstart. apply walk_head in Hwalk.
    destruct path as [|p path]; simplify_eq/=. by constructor.
Qed.

Lemma find_path_steps_valid_witness :
  let path := [(5, 0); (5, 1); (6, 1); (7, 1); (7, 0)] in
  head path = Some (5, 0) ∧ last path = Some (7, 0) ∧
  (∀ i p q, path !! i = Some p → path !! S i = Some q → unit_step p q) ∧
  Forall (λ p, is_valid_position grid12 p = true) (tail path) ∧
  (is_valid_position grid12 (5, 0) = true →
   Forall (λ p, is_valid_position grid12 p = true) path).
Proof.
  apply (find_path_steps_valid grid12 (5, 0) (7, 0)).
  - vm_compute. reflexivity.
  - discriminate.
Defined.

(** C7: when no walk leads from [start] to [goal], [find_path] leaves
    its loop within the unrolling bound and returns the empty list; it
    neither raises nor runs on. *)
Theorem find_path_unreachable (e : Environment) (start goal : pos) :
  ¬ reachable e start goal → find_path e start goal = Ok [].
Proof.
  intros Hun.
  destruct (find_path_spec e start goal) as (path & -> & [->|Hwalk]).
  - done.
  - destruct Hun. by exists path.
Qed.

Lemma find_path_unreachable_witness :
  find_path grid12_walled (2, 3) (9, 3) = Ok [].
Proof.
  apply find_path_unreachable. intros [l Hwalk].
  apply walk_last_step in Hwalk as [[=]|(c & Hstep & _ & Hc)].
  apply unit_step_sym, unit_step_cases in Hstep. destruct c as [x y].
  simpl in Hstep.
  assert (Hcases : (x, y) = (9, 4) ∨ (x, y) = (9, 2) ∨
                   (x, y) = (10, 3) ∨ (x, y) = (8, 3)).
  { destruct Hstep as [[-> ->] | [[-> ->] | [[-> ->] | [-> ->]]]]; auto. }
  destruct Hcases as [[= -> ->] | [[= -> ->] | [[= -> ->] | [= -> ->]]]];
    destruct Hc as [[=]|Hc]; vm_compute in Hc; discriminate.
Defined.

(** C10: [find_path(p, p)] is [[p]] for every cell [p], valid or not:
    the goal test on the popped start node comes before any validity
    check. *)
Theorem find_path_same_cell (e : Environment) (p : pos) :
  find_path e p p = Ok [p].
Proof.
  unfold find_path, find_path_fuel.
  assert (∃ k, fuel_bound e = S k) as [k ->].
  { unfold fuel_bound. cbv zeta.
    set (n := S (Z.to_nat (grid_width e) * Z.to_nat (grid_height e))).
    exists (2 * n * n + 1)%nat. lia. }
  simpl. rewrite decide_True; [|done]. reflexivity.
Qed.

(** * The agent *)

Import SelfDrivingAgent.

(** ** Destructuring a successful run of monadic code *)

Ltac bind_ok H :=
  repeat match type of H with
  | (_ ≫= _) = Ok _ =>
      let x := fresh "x" in
      let Hx := fresh "Hx" in
      apply bind_Ok in H as (x & Hx & H)
  | (let '(_, _) := ?p in _) = Ok _ => destruct p; simpl in H
  | (if ?b then _ else _) = Ok _ =>
      let Hb := fresh "Hb" in destruct b eqn:Hb
  | Ok _ = Ok _ => injection H as H
  end.

(** What a call leaves alone: the environment, the step counter and the
    exploration rate. *)
Definition same_frame (a a' : Agent) : Prop :=
  env a' = env a ∧ steps a' = steps a ∧ epsilon a' = epsilon a.

Lemma replan_frame a a' :
  replan a = Ok a' → same_frame a a' ∧ position a' = position a.
Proof.
  unfold replan. intros H. bind_ok H. subst a'. by destruct x.
Qed.

Lemma maybe_replan_frame a a' :
  _maybe_replan a = Ok a' → same_frame a a' ∧ position a' = position a.
Proof.
  unfold _maybe_replan. intros H.
  destruct (replan_every_n_steps <=? steps a - _last_replan_step a).
  { by apply replan_frame in H. }
  destruct (planned_path a); [by injection H as <-|].
  destruct (existsb _ _).
  { bind_ok H. subst a'. by apply replan_frame in Hx. }
  bind_ok H; [|by subst a'].
  subst a'. by apply replan_frame in Hx0.
Qed.

Lemma q_policy_frame state rnd pick a act a' :
  q_policy state rnd pick a = Ok (act, a') →
  same_frame a a' ∧ position a' = position a ∧
  planned_path a' = planned_path a ∧ heading a' = heading a.
Proof.
  unfold q_policy. intros H. bind_ok H; by simplify_eq.
Qed.

Lemma choose_action_frame state rnd pick a act a' :
  choose_action state rnd pick a = Ok (act, a') →
  same_frame a a' ∧ position a' = position a ∧
  planned_path a' = planned_path a ∧ heading a' = heading a.
Proof.
  unfold choose_action. intros H.
  destruct (planned_path a) as [|next rest] eqn:Hplan;
    [rewrite <- Hplan; by eapply q_policy_frame|].
  repeat (match type of H with
          | (if ?b then _ else _) = _ => destruct b
          end; [by simplify_eq|]).
  rewrite <- Hplan. by eapply q_policy_frame.
Qed.

Lemma execute_action_frame action a moved a' :
  execute_action action a = Ok (moved, a') → same_frame a a'.
Proof.
  unfold execute_action. intros H. bind_ok H. subst a'.
  destruct action; bind_ok Hx; try by subst x.
  subst x. simpl. by destruct (planned_path a) as [|? ?]; [|case_decide].
Qed.

Lemma calculate_reward_frame st act mv a reward done a' :
  calculate_reward st act mv a = Ok (reward, done, a') →
  same_frame a a' ∧ position a' = position a ∧
  done = bool_decide (position a = destination (env a) ∨
                      position a ∈ obstacles (env a)).
Proof.
  unfold calculate_reward. intros H.
  destruct (decide (position a = destination (env a))) as [Hd|Hd].
  { simplify_eq. split_and!; [done..|]. by rewrite bool_decide_eq_true_2; [|left]. }
  destruct (decide (position a ∈ obstacles (env a))) as [Ho|Ho].
  { simplify_eq. split_and!; [done..|]. by rewrite bool_decide_eq_true_2; [|right]. }
  bind_ok H. simplify_eq. split_and!; [done..|].
  rewrite bool_decide_eq_false_2; [done|]. tauto.
Qed.

Lemma update_q_table_frame state action reward next_state a a' :
  update_q_table state action reward next_state a = Ok a' →
  same_frame a a' ∧ position a' = position a.
Proof. unfold update_q_table. intros H. bind_ok H. by subst a'. Qed.

(** [step] advances the counter by one and reports the end of the
    episode exactly when the agent stands on the destination or on an
    obstacle, or the counter has reached [max_steps]. *)
Lemma step_done rnd pick a done a' :
  step rnd pick a = Ok (done, a') →
  env a' = env a ∧ epsilon a' = epsilon a ∧ steps a' = steps a + 1 ∧
  done = bool_decide (position a' = destination (env a') ∨
                      position a' ∈ obstacles (env a')) ||
         (max_steps <=? steps a').
Proof.
  unfold step. intros H.
  apply bind_Ok in H as (a1 & H1 & H).
  assert (F1 : same_frame a a1).
  { destruct (steps a =? 0); [|by simplify_eq].
    bind_ok H1. subst a1. by apply replan_frame in Hx as [? _]. }
  apply bind_Ok in H as (a2 & [F2 _]%maybe_replan_frame & H).
  apply bind_Ok in H as (state & _ & H).
  apply bind_Ok in H as ([action a3] & [F3 _]%choose_action_frame & H).
  apply bind_Ok in H as ([moved a4] & F4%execute_action_frame & H).
  apply bind_Ok in H as ([[reward d] a5] & H5 & H).
  apply calculate_reward_frame in H5 as (F5 & P5 & Hd). subst d.
  simpl in H.
  apply bind_Ok in H as (next_state & _ & H).
  apply bind_Ok in H as (a7 & (F7 & P7)%update_q_table_frame & H).
  injection H as <- <-.
  destruct F1 as (E1 & S1 & X1), F2 as (E2 & S2 & X2), F3 as (E3 & S3 & X3),
    F4 as (E4 & S4 & X4), F5 as (E5 & S5 & X5), F7 as (E7 & S7 & X7).
  simpl in *.
  assert (env a7 = env a) as HE by congruence.
  assert (steps a7 = steps a + 1) as HS by congruence.
  split_and!; [done|congruence|done|].
  rewrite P7, E7. simpl. rewrite P5, E5.
  destruct (max_steps <=? steps a7); [by rewrite orb_true_r|].
  by rewrite orb_false_r.
Qed.

(** ** Reachable states *)

(** The states an agent can be in: built by the constructor, then driven
    through [step], [reset] and [update_environment_ref] in any order,
    while the owner of the shared environment may change it between two
    calls. *)
Inductive reachable_agent : Agent → Prop :=
| reach_init e : reachable_agent (init e)
| reach_reset a : reachable_agent a → reachable_agent (reset a)
| reach_step a rnd pick done a' :
    reachable_agent a → step rnd pick a = Ok (done, a') → reachable_agent a'
| reach_update a e : reachable_agent a →
    reachable_agent (update_environment_ref a e)
| reach_world a e : reachable_agent a → reachable_agent (set_env a e).

(** ** C8: the step ceiling *)

(** The ticks of one episode: every draw feeds one call of [step]; the
    trace records what each call returned and the state it left. *)
Fixpoint run (draws : list (float * Action)) (a : Agent)
  : result (list (bool * Agent)) :=
  match draws with
  | [] => Ok []
  | (rnd, pick) :: ds =>
      '(done, a') ← step rnd pick a;
      trace ← run ds a';
      Ok ((done, a') :: trace)
  end.

(** Neither on the destination nor on an obstacle. *)
Definition untriggered (a : Agent) : Prop :=
  position a ≠ destination (env a) ∧ position a ∉ obstacles (env a).

Global Instance untriggered_dec a : Decision (untriggered a).
Proof. unfold untriggered. apply _. Defined.

Lemma run_ticks draws : ∀ a trace,
  run draws a = Ok trace →
  Forall (λ t, untriggered t.2) trace →
  ∀ i d a', trace !! i = Some (d, a') →
    steps a' = steps a + Z.of_nat (S i) ∧
    d = bool_decide (max_steps ≤ steps a + Z.of_nat (S i)).
Proof.
  induction draws as [|[rnd pick] ds IH]; intros a trace Hrun Hun i d a' Hi.
  - injection Hrun as <-. by destruct i.
  - simpl in Hrun.
    apply bind_Ok in Hrun as ([d1 a1] & Hstep & Hrun).
    apply bind_Ok in Hrun as (rest & Hrest & Hrun).
    injection Hrun as <-.
    apply step_done in Hstep as (_ & _ & Hsteps & Hd).
    apply Forall_cons_1 in Hun as [[Hdest Hobs] Hun]. simpl in *.
    destruct i as [|i]; simpl in Hi.
    + injection Hi as <- <-. split; [lia|].
      rewrite Hd, bool_decide_eq_false_2 by tauto. simpl.
      rewrite Hsteps. replace (steps a + Z.of_nat 1) with (steps a + 1) by lia.
      destruct (Z.leb_spec max_steps (steps a + 1)).
      * by rewrite bool_decide_eq_true_2.
      * rewrite bool_decide_eq_false_2; [done|lia].
    + destruct (IH a1 rest Hrest Hun i d a' Hi) as [-> ->].
      rewrite Hsteps. split; [lia|]. apply bool_decide_ext. lia.
Qed.

(** C8: in an episode that starts with the counter at 0 and in which no
    tick ends on the destination or on an obstacle, tick number [i + 1]
    leaves the counter at [i + 1] and returns [done = true] exactly when
    [i + 1 >= 500]: false on ticks 1 to 499, true on tick 500. *)
Theorem step_ceiling (draws : list (float * Action)) (a : Agent)
    (trace : list (bool * Agent)) :
  steps a = 0 →
  run draws a = Ok trace →
  Forall (λ t, untriggered t.2) trace →
  ∀ i d a', trace !! i = Some (d, a') →
    steps a' = Z.of_nat (S i) ∧ d = bool_decide (500 ≤ Z.of_nat (S i)).
Proof.
  intros Hzero Hrun Hun i d a' Hi.
  destruct (run_ticks draws a trace Hrun Hun i d a' Hi) as [-> ->].
  rewrite Hzero. done.
Qed.

(** An agent that keeps turning right in front of a walled-in
    destination, for 500 ticks. *)
Definition spin_draws : list (float * Action) :=
  replicate 500 (0%float, TurnRight).

Definition trace_of (r : result (list (bool * Agent)))
  : list (bool * Agent) :=
  match r with
  | Ok trace => trace
  | _ => []
  end.

Definition spin_trace : list (bool * Agent) :=
  trace_of (run spin_draws (init grid12_walled)).

Lemma spin_trace_run : run spin_draws (init grid12_walled) = Ok spin_trace.
Proof.
  assert (Hok : Py.is_ok (run spin_draws (init grid12_walled)) = true)
    by (vm_compute; reflexivity).
  unfold spin_trace.
  destruct (run spin_draws (init grid12_walled)); [reflexivity|discriminate..].
Defined.

Lemma step_ceiling_witness :
  length spin_trace = 500%nat ∧
  ∀ i d a', spin_trace !! i = Some (d, a') →
    steps a' = Z.of_nat (S i) ∧ d = bool_decide (500 ≤ Z.of_nat (S i)).
Proof.
  split; [vm_compute; reflexivity|].
  apply (step_ceiling spin_draws (init grid12_walled) spin_trace).
  - reflexivity.
  - exact spin_trace_run.
  - apply (bool_decide_unpack _). vm_compute. exact I.
Defined.

(** ** C9: annealing of the exploration rate *)

(** What [reset] does to [epsilon]. *)
Definition reset_epsilon (eps : float) : float :=
  Py.max2 epsilon_floor (eps * epsilon_decay)%float.

(** The exploration rate after [n] resets of a fresh agent. *)
Definition eps_seq (n : nat) : float := Nat.iter n reset_epsilon 0.3%float.

Lemma iter_fixed {A} (f : A → A) (x c : A) (k m : nat) :
  Nat.iter k f x = c → f c = c → Nat.iter (m + k) f x = c.
Proof.
  intros Hk Hc. induction m as [|m IH]; [done|].
  simpl. by rewrite IH.
Qed.

Lemma eps_seq_floor m : eps_seq (m + 358) = epsilon_floor.
Proof.
  apply iter_fixed; vm_compute; reflexivity.
Qed.

Definition anneal_ok (eps : float) : bool :=
  PrimFloat.leb (reset_epsilon eps) eps &&
  PrimFloat.leb epsilon_floor (reset_epsilon eps) &&
  PrimFloat.leb epsilon_floor eps.

Lemma eps_seq_anneal_ok n : anneal_ok (eps_seq n) = true.
Proof.
  destruct (le_lt_dec 358 n) as [Hge|Hlt].
  - replace n with ((n - 358) + 358)%nat by lia.
    rewrite eps_seq_floor. vm_compute. reflexivity.
  - assert (Hall : forallb (λ k, anneal_ok (eps_seq k)) (seq 0 358) = true)
      by (vm_compute; reflexivity).
    rewrite forallb_forall in Hall. apply Hall. apply in_seq. lia.
Qed.

Lemma epsilon_reachable a : reachable_agent a → ∃ n, epsilon a = eps_seq n.
Proof.
  induction 1 as [e|a _ [n IH]|a rnd pick done a' _ [n IH] Hstep
                 |a e _ [n IH]|a e _ [n IH]].
  - by exists 0%nat.
  - exists (S n). simpl. by rewrite IH.
  - exists n. apply step_done in Hstep as (_ & -> & _). done.
  - by exists n.
  - by exists n.
Qed.

(** C9: in every reachable state, a reset sets [epsilon] to
    [max(0.05, epsilon * 0.995)], which is not above the previous value
    and not below the floor 0.05 (the comparisons are those of IEEE 754
    binary64, as in the program). *)
Theorem epsilon_anneals (a : Agent) :
  reachable_agent a →
  epsilon (reset a) = Py.max2 0.05 (epsilon a * 0.995)%float ∧
  PrimFloat.leb (epsilon (reset a)) (epsilon a) = true ∧
  PrimFloat.leb 0.05 (epsilon (reset a)) = true.
Proof.
  intros [n Hn]%epsilon_reachable.
  pose proof (eps_seq_anneal_ok n) as Hok. unfold anneal_ok in Hok.
  apply andb_prop in Hok as [Hok _]. apply andb_prop in Hok as [Hle Hfloor].
  change (epsilon (reset a)) with (reset_epsilon (epsilon a)).
  rewrite Hn. done.
Qed.

Lemma epsilon_anneals_witness :
  let a := reset (reset (init grid12)) in
  epsilon (reset a) = Py.max2 0.05 (epsilon a * 0.995)%float ∧
  PrimFloat.leb (epsilon (reset a)) (epsilon a) = true ∧
  PrimFloat.leb 0.05 (epsilon (reset a)) = true.
Proof.
  apply (epsilon_anneals (reset (reset (init grid12)))).
  apply reach_reset, reach_reset, reach_init.
Defined.

(** ** C5: the reward *)

(** C5: [calculate_reward] returns [(99, true)] on the destination;
    [(-101, true)] on an obstacle that is not the destination; and, the
    two terminal rules not applying, [(-11, false)] on an off-road cell
    that is not strictly closer to the destination than the stored
    previous distance ([dist] being the distance [math.sqrt] computes). *)
Theorem calculate_reward_cases (a : Agent) (old_state : StateKey)
    (action : Action) (moved : bool) :
  (position a = destination (env a) →
   calculate_reward old_state action moved a = Ok (99, true, a)) ∧
  (position a ≠ destination (env a) → position a ∈ obstacles (env a) →
   calculate_reward old_state action moved a = Ok (-101, true, a)) ∧
  (position a ≠ destination (env a) → position a ∉ obstacles (env a) →
   is_road (env a) (position a) = false →
   ∀ dist,
     Py.math_sqrt (sq_dist (position a) (destination (env a))) = Ok dist →
     match prev_dest_dist a with
     | Some prev => PrimFloat.ltb dist prev = false
     | None => True
     end →
     calculate_reward old_state action moved a
     = Ok (-11, false, set_prev_dest_dist a (Some dist))).
Proof.
  unfold calculate_reward. split_and!.
  - intros Hd. by rewrite decide_True.
  - intros Hd Ho. by rewrite decide_False, decide_True.
  - intros Hd Ho Hroad dist Hdist Hprev.
    rewrite decide_False, decide_False by done.
    rewrite Hroad, Hdist. simpl.
    destruct (prev_dest_dist a); [by rewrite Hprev|done].
Qed.

(** An agent placed on a cell of [e]. *)
Definition agent_at (e : Environment) (p : pos) (prev : option float) : Agent :=
  set_prev_dest_dist (set_position (init e) p) prev.

Lemma calculate_reward_cases_witness :
  calculate_reward (0, 0, 0, 0) Forward true (agent_at grid12 (9, 3) None)
  = Ok (99, true, agent_at grid12 (9, 3) None) ∧
  calculate_reward (0, 0, 0, 0) Forward true
    (agent_at grid12_walled (8, 3) None)
  = Ok (-101, true, agent_at grid12_walled (8, 3) None) ∧
  calculate_reward (0, 0, 0, 0) Forward true
    (agent_at grid12 (0, 0) (Some 9%float))
  = Ok (-11, false, agent_at grid12 (0, 0) (Some (PrimFloat.sqrt 90))).
Proof.
  split_and!.
  - apply (calculate_reward_cases (agent_at grid12 (9, 3) None)). reflexivity.
  - apply (calculate_reward_cases (agent_at grid12_walled (8, 3) None)).
    + discriminate.
    + vm_compute. apply (bool_decide_unpack _). vm_compute. exact I.
  - apply (calculate_reward_cases (agent_at grid12 (0, 0) (Some 9%float))).
    + discriminate.
    + apply (bool_decide_unpack _). vm_compute. exact I.
    + vm_compute. reflexivity.
    + vm_compute. reflexivity.
    + vm_compute. reflexivity.
Defined.

(** ** C6: the value update *)

(** The stored row of a state, all zeros for a state not seen yet. *)
Definition q_row (q : gmap StateKey (list float)) (s : StateKey) : list float :=
  default zeros (q !! s).

(** Every stored row has one entry per action, as all rows made by
    [ensure_row] do. *)
Definition q_wf (q : gmap StateKey (list float)) : Prop :=
  ∀ s row, q !! s = Some row → length row = length actions.

Lemma ensure_row_lookup s q : ensure_row s q !! s = Some (q_row q s).
Proof.
  unfold ensure_row, q_row. destruct (q !! s) eqn:Hs; simpl.
  - done.
  - by rewrite lookup_insert_eq.
Qed.

Lemma ensure_row_other s s' q : s ≠ s' → ensure_row s q !! s' = q !! s'.
Proof.
  intros Hne. unfold ensure_row. destruct (q !! s); [done|].
  by rewrite lookup_insert_ne.
Qed.

Lemma q_row_ensure s s' q : q_row (ensure_row s q) s' = q_row q s'.
Proof.
  unfold q_row at 1. destruct (decide (s = s')) as [<-|Hne].
  - by rewrite ensure_row_lookup.
  - by rewrite ensure_row_other.
Qed.

Lemma q_row_length q s : q_wf q → length (q_row q s) = length actions.
Proof.
  intros Hwf. unfold q_row. destruct (q !! s) eqn:Hs; simpl; [by eapply Hwf|].
  reflexivity.
Qed.

Lemma index_ok {A} (l : list A) (i : Z) :
  0 ≤ i < Z.of_nat (length l) →
  ∃ x, Py.index l i = Ok x ∧ l !! Z.to_nat i = Some x.
Proof.
  intros Hi. unfold Py.index.
  destruct (Z.ltb_spec i 0); [lia|].
  destruct (Z.leb_spec 0 i); [|lia].
  destruct (Z.ltb_spec i (Z.of_nat (length l))); [|lia]. simpl.
  destruct (l !! Z.to_nat i) eqn:Hl; [by eauto|].
  apply lookup_ge_None in Hl. lia.
Qed.

Lemma action_id_range action : 0 ≤ action_id action < 4.
Proof. destruct action; simpl; lia. Qed.

(** C6: with [old] the stored value of [(state, action)] and [max_next]
    the largest stored value of [next_state] (rows of unseen states being
    all zeros), [update_q_table] stores
    [old + 0.1 * (reward + 0.95 * max_next - old)] for [(state, action)],
    leaves a row for [next_state] and touches nothing else; with
    [old = 0], [reward = 10] and [max_next = 0] the stored value is
    [1.0].  [r] is the reward as a float. *)
Theorem update_q_table_spec (a : Agent) (state : StateKey) (action : Action)
    (reward : Z) (next_state : StateKey) (r : float) :
  q_wf (q_table a) → Py.float_of_int reward = Ok r →
  let old_row := q_row (q_table a) state in
  let next_row := q_row (q_table a) next_state in
  let i := Z.to_nat (action_id action) in
  ∃ old max_next a',
    old_row !! i = Some old ∧ Py.max_list next_row = Ok max_next ∧
    update_q_table state action reward next_state a = Ok a' ∧
    q_table a' !! state
    = Some (<[i := (old + 0.1 * (r + 0.95 * max_next - old))%float]> old_row) ∧
    (next_state ≠ state → q_table a' !! next_state = Some next_row) ∧
    (∀ s, s ≠ state → s ≠ next_state → q_table a' !! s = q_table a !! s) ∧
    (old = 0%float → reward = 10 → max_next = 0%float →
     (old + 0.1 * (r + 0.95 * max_next - old))%float = 1%float).
Proof.
  intros Hwf Hr old_row next_row i.
  pose proof (q_row_length _ state Hwf) as Hlen.
  pose proof (q_row_length _ next_state Hwf) as Hlen'.
  destruct (index_ok old_row (action_id action)) as (old & Hidx & Hold).
  { pose proof (action_id_range action). fold old_row in Hlen.
    rewrite Hlen. simpl. lia. }
  assert (∃ max_next, Py.max_list next_row = Ok max_next) as [max_next Hmax].
  { fold next_row in Hlen'. destruct next_row; [done|]. simpl. eauto. }
  assert (Hq2s : ensure_row next_state (ensure_row state (q_table a)) !! state
                 = Some old_row).
  { destruct (decide (next_state = state)) as [->|Hne].
    - by rewrite ensure_row_lookup, q_row_ensure.
    - by rewrite ensure_row_other, ensure_row_lookup. }
  assert (Hq2n : ensure_row next_state (ensure_row state (q_table a))
                   !! next_state = Some next_row).
  { by rewrite ensure_row_lookup, q_row_ensure. }
  exists old, max_next. eexists. split_and!; [done|done| | | | |].
  - unfold update_q_table, Py.getitem. rewrite Hq2s. simpl.
    fold old_row. rewrite Hidx. simpl. rewrite Hq2n. simpl.
    rewrite Hmax. simpl. rewrite Hr. simpl. reflexivity.
  - simpl. by rewrite lookup_insert_eq.
  - intros Hne. simpl. by rewrite lookup_insert_ne.
  - intros s Hs Hs'. simpl.
    by rewrite lookup_insert_ne, !ensure_row_other.
  - intros -> -> ->. vm_compute in Hr. injection Hr as <-.
    vm_compute. reflexivity.
Qed.

Lemma update_q_table_spec_witness :
  ∃ a', update_q_table (1, 1, 0, 0) Forward 10 (2, 1, 0, 0) (init grid12)
        = Ok a' ∧
        q_table a' !! (1, 1, 0, 0) = Some [1; 0; 0; 0]%float ∧
        q_table a' !! (2, 1, 0, 0) = Some [0; 0; 0; 0]%float.
Proof.
  destruct (update_q_table_spec (init grid12) (1, 1, 0, 0) Forward 10
              (2, 1, 0, 0) 10%float)
    as (old & max_next & a' & Hold & Hmax & Hrun & Hstate & Hnext & _ & Hone).
  - intros s row Hs. simpl in Hs. by rewrite lookup_empty in Hs.
  - vm_compute. reflexivity.
  - injection Hold as <-. injection Hmax as <-.
    exists a'. split_and!; [done| |by apply Hnext].
    etrans; [exact Hstate|]. rewrite Hone by done. reflexivity.
Defined.

(** ** C3: following the plan *)

(** The direction vector of a heading, for the headings 0 to 3. *)
Definition heading_delta (hd : Z) : option pos :=
  if 0 <=? hd then directions !! Z.to_nat hd else None.

(** Forward when the heading points from the agent to [next_pos],
    TurnRight otherwise. *)
Definition plan_action (a : Agent) (next_pos : pos) : Action :=
  if decide (heading_delta (heading a)
             = Some (next_pos.1 - (position a).1, next_pos.2 - (position a).2))
  then Forward else TurnRight.




Ltac hd_case :=
  simpl; split;
  [ first [discriminate | intros [= <-]; intuition (first [reflexivity | lia])]
  | intros [[? ->] | [[? ->] | [[? ->] | [? ->]]]];
    first [reflexivity | lia] ].

Lemma heading_delta_cases hd d :
  heading_delta hd = Some d ↔
  (hd = 0 ∧ d = (1, 0)) ∨ (hd = 1 ∧ d = (0, 1)) ∨
  (hd = 2 ∧ d = (-1, 0)) ∨ (hd = 3 ∧ d = (0, -1)).
Proof.
  unfold heading_delta. destruct (Z.leb_spec 0 hd) as [Hge|Hlt].
  - destruct (decide (hd = 0)) as [->|?]; [hd_case|].
    destruct (decide (hd = 1)) as [->|?]; [hd_case|].
    destruct (decide (hd = 2)) as [->|?]; [hd_case|].
    destruct (decide (hd = 3)) as [->|?]; [hd_case|].
    replace (Z.to_nat hd) with (S (S (S (S (Z.to_nat (hd - 4)))))) by lia.
    hd_case.
  - hd_case.
Qed.

Ltac plan_case a k :=
  let Heq := fresh "Heq" in
  let Hdec := fresh "Hdec" in
  destruct (Z.eqb_spec (heading a) k) as [Heq|Heq];
  case_decide as Hdec; try reflexivity; exfalso;
  [ apply Hdec; rewrite Heq; reflexivity
  | apply heading_delta_cases in Hdec;
    destruct Hdec as [[? [=]] | [[? [=]] | [[? [=]] | [? [=]]]]]; lia ].

(** With the head of the plan one move away, the four tests of
    [choose_action] decide between Forward and TurnRight. *)
Lemma choose_action_plan (a : Agent) (state : StateKey)
    (rnd : float) (pick : Action) (next_pos : pos) (rest : list pos) :
  planned_path a = next_pos :: rest →
  unit_step (position a) next_pos →
  choose_action state rnd pick a = Ok (plan_action a next_pos, a) ∧
  plan_action a next_pos ∈ [Forward; TurnRight].
Proof.
  intros Hplan Hstep. split.
  - unfold choose_action, plan_action. rewrite Hplan.
    apply unit_step_cases in Hstep.
    destruct Hstep as [[H1 H2] | [[H1 H2] | [[H1 H2] | [H1 H2]]]].
    + replace (next_pos.1 - (position a).1) with 0 by lia.
      replace (next_pos.2 - (position a).2) with 1 by lia.
      simpl. plan_case a 1.
    + replace (next_pos.1 - (position a).1) with 0 by lia.
      replace (next_pos.2 - (position a).2) with (-1) by lia.
      simpl. plan_case a 3.
    + replace (next_pos.1 - (position a).1) with 1 by lia.
      replace (next_pos.2 - (position a).2) with 0 by lia.
      simpl. plan_case a 0.
    + replace (next_pos.1 - (position a).1) with (-1) by lia.
      replace (next_pos.2 - (position a).2) with 0 by lia.
      simpl. plan_case a 2.
  - unfold plan_action. case_decide; set_solver.
Qed.

(** *** The plan always begins next to the agent

    In every state an agent reaches through its own methods, the
    position followed by the plan is a chain of unit moves. *)

Definition chained (l : list pos) : Prop :=
  ∀ i p q, l !! i = Some p → l !! S i = Some q → unit_step p q.

Definition plan_chained (a : Agent) : Prop :=
  chained (position a :: planned_path a).

Lemma chained_tail p l : chained (p :: l) → chained l.
Proof. intros Hc i x y Hx Hy. by apply (Hc (S i)). Qed.

Lemma chained_one p : chained [p].
Proof. intros [|i] x y Hx Hy; done. Qed.

Lemma replan_chained a a' :
  replan a = Ok a' → plan_chained a → plan_chained a'.
Proof.
  unfold replan. intros H Hc. apply bind_Ok in H as (path & Hpath & H).
  injection H as <-. destruct path as [|p rest]; [done|].
  apply find_path_walk in Hpath; [|done].
  pose proof (walk_head _ _ _ _ Hpath) as [= ->].
  intros i x y. by eapply walk_consecutive.
Qed.

Lemma maybe_replan_chained a a' :
  _maybe_replan a = Ok a' → plan_chained a → plan_chained a'.
Proof.
  unfold _maybe_replan. intros H Hc.
  destruct (replan_every_n_steps <=? steps a - _last_replan_step a).
  { by apply replan_chained in H. }
  destruct (planned_path a) eqn:Hplan; [by injection H as <-|].
  rewrite <- Hplan in *.
  destruct (existsb _ _).
  { bind_ok H. subst a'. by apply replan_chained in Hx. }
  bind_ok H; [|by subst a'].
  subst a'. by apply replan_chained in Hx0.
Qed.

Lemma heading_delta_index hd d :
  heading_delta hd = Some d → Py.index directions hd = Ok d.
Proof.
  intros Hd. apply heading_delta_cases in Hd.
  destruct Hd as [[-> ->] | [[-> ->] | [[-> ->] | [-> ->]]]]; reflexivity.
Qed.

Lemma execute_plan_action_chained a next_pos rest moved a' :
  planned_path a = next_pos :: rest → plan_chained a →
  execute_action (plan_action a next_pos) a = Ok (moved, a') →
  plan_chained a'.
Proof.
  intros Hplan Hc Hrun. unfold execute_action in Hrun.
  apply bind_Ok in Hrun as (b & Hb & Hrun). injection Hrun as _ <-.
  unfold plan_action in Hb. case_decide as Hdec.
  - rewrite (heading_delta_index _ _ Hdec) in Hb. simpl in Hb.
    replace ((position a).1 + (next_pos.1 - (position a).1),
             (position a).2 + (next_pos.2 - (position a).2))
      with next_pos in Hb by (destruct next_pos; simpl; f_equal; lia).
    destruct (is_valid_position (env a) next_pos); [|by injection Hb as <-].
    injection Hb as <-. simpl. rewrite Hplan, decide_True by done.
    unfold plan_chained in *. simpl. rewrite Hplan in Hc.
    by apply chained_tail in Hc.
  - by injection Hb as <-.
Qed.

Lemma execute_action_no_plan action a moved a' :
  planned_path a = [] → execute_action action a = Ok (moved, a') →
  planned_path a' = [].
Proof.
  intros Hplan Hrun. unfold execute_action in Hrun.
  apply bind_Ok in Hrun as (b & Hb & Hrun). injection Hrun as _ <-.
  destruct action; bind_ok Hb; subst b; simpl; by rewrite ?Hplan.
Qed.

Lemma calculate_reward_plan st act mv a reward done a' :
  calculate_reward st act mv a = Ok (reward, done, a') →
  planned_path a' = planned_path a.
Proof.
  unfold calculate_reward. intros H.
  repeat case_decide; [by simplify_eq..|].
  bind_ok H. by simplify_eq.
Qed.

Lemma update_q_table_plan state action reward next_state a a' :
  update_q_table state action reward next_state a = Ok a' →
  planned_path a' = planned_path a.
Proof. unfold update_q_table. intros H. bind_ok H. by subst a'. Qed.

Lemma step_chained rnd pick a done a' :
  step rnd pick a = Ok (done, a') → plan_chained a → plan_chained a'.
Proof.
  unfold step. intros H Hc.
  apply bind_Ok in H as (a1 & H1 & H).
  assert (C1 : plan_chained a1).
  { destruct (steps a =? 0); [|by simplify_eq].
    bind_ok H1. subst a1. by apply replan_chained in Hx. }
  apply bind_Ok in H as (a2 & C2%maybe_replan_chained & H); [|done].
  apply bind_Ok in H as (state & _ & H).
  apply bind_Ok in H as ([action a3] & H3 & H).
  apply bind_Ok in H as ([moved a4] & H4 & H).
  apply bind_Ok in H as ([[reward d] a5] & H5 & H). simpl in H.
  apply bind_Ok in H as (next_state & _ & H).
  apply bind_Ok in H as (a7 & H7 & H). injection H as _ <-.
  assert (C4 : plan_chained a4).
  { destruct (planned_path a2) as [|next_pos rest] eqn:Hplan.
    - apply choose_action_frame in H3 as (_ & _ & Hp3 & _).
      rewrite Hplan in Hp3.
      pose proof (execute_action_no_plan _ _ _ _ Hp3 H4) as Hp4.
      unfold plan_chained. rewrite Hp4. apply chained_one.
    - destruct (choose_action_plan a2 state rnd pick next_pos rest Hplan)
        as [Hact _].
      { pose proof C2 as Hc2. unfold plan_chained in Hc2.
        rewrite Hplan in Hc2. by apply (Hc2 0%nat). }
      rewrite Hact in H3. injection H3 as <- <-.
      by eapply execute_plan_action_chained. }
  apply calculate_reward_plan in H5 as Hp5.
  apply calculate_reward_frame in H5 as (_ & P5 & _).
  apply update_q_table_plan in H7 as Hp7.
  apply update_q_table_frame in H7 as (_ & P7).
  unfold plan_chained in *. simpl in *. by rewrite Hp7, P7, Hp5, P5.
Qed.

Lemma reachable_plan_chained a : reachable_agent a → plan_chained a.
Proof.
  induction 1 as [e|a _ IH|a rnd pick done a' _ IH Hstep|a e _ IH|a e _ IH].
  - apply chained_one.
  - apply chained_one.
  - by eapply step_chained.
  - apply chained_one.
  - exact IH.
Qed.

(** In a reachable state the head of a non-empty plan is one move away
    from the agent, so the learned policy is consulted only when the
    plan is empty. *)
Lemma reachable_plan_head a next_pos rest :
  reachable_agent a → planned_path a = next_pos :: rest →
  unit_step (position a) next_pos.
Proof.
  intros Hr Hplan. apply reachable_plan_chained in Hr.
  unfold plan_chained in Hr. rewrite Hplan in Hr. by apply (Hr 0%nat).
Qed.



(** ** C4: replanning *)


(** The state a call left, when it returned. *)
Definition agent_after (r : result (bool * Agent)) (a : Agent) : Agent :=
  match r with
  | Ok (_, a') => a'
  | _ => a
  end.

(** An agent that planned its way on the open grid and made its first
    move, and then sees four cones land around the destination, one of
    them on its plan. *)
Definition planned_agent : Agent :=
  agent_after (step 0 Forward (init grid12)) (init grid12).

Definition stale_agent : Agent := set_env planned_agent grid12_walled.


Lemma stale_agent_reachable : reachable_agent stale_agent.
Proof.
  apply reach_world. unfold planned_agent.
  assert (Hok : Py.is_ok (step 0 Forward (init grid12)) = true)
    by (vm_compute; reflexivity).
  destruct (step 0 Forward (init grid12)) as [[done a]| |] eqn:Hstep;
    [|discriminate..].
  simpl. eapply reach_step; [apply reach_init|exact Hstep].
Qed.






(** * Further properties *)

Lemma for_each_inv {S A} (P : list A → S → Prop) (body : A → S → result S) :
  (∀ a l s s', P (a :: l) s → body a s = Ok s' → P l s') →
  ∀ l s s', P l s → for_each l body s = Ok s' → P [] s'.
Proof.
  intros Hbody l. induction l as [|a l IH]; intros s s' Hs Hrun; simpl in Hrun.
  - by injection Hrun as <-.
  - apply bind_Ok in Hrun as (s1 & H1 & Hrun). eauto.
Qed.

(** ** The search is complete *)

Section complete.
Context (e : Environment) (start goal : pos).

(** A cell is settled when it has a cost and is off the frontier. *)
Definition settled (st : search) (c : pos) : Prop :=
  is_Some (g_score st !! c) ∧ c ∉ (open_set st).*2.

(** Every settled cell other than [c] is not the goal and has all its
    valid neighbours recorded. *)
Definition explored_but (c : option pos) (st : search) : Prop :=
  ∀ c', settled st c' → Some c' = c ∨
    (c' ≠ goal ∧
     ∀ n, unit_step c' n → is_valid_position e n = true →
          is_Some (g_score st !! n)).

Lemma improved_settled st c n gc c' :
  settled (improved goal c n gc st) c' → c' ≠ n ∧ settled st c'.
Proof.
  unfold settled. simpl. intros [Hg Hopen].
  assert (Hne : c' ≠ n).
  { intros ->. apply Hopen.
    destruct (existsb _ _) eqn:Hex; simpl.
    - apply existsb_exists in Hex as (it & Hit & Heq).
      apply bool_decide_eq_true in Heq. subst.
      apply list_elem_of_fmap. exists it. split; [done|].
      by apply list_elem_of_In.
    - unfold heappush. rewrite fmap_app. apply elem_of_app. right.
      simpl. left. }
  split; [done|]. rewrite lookup_insert_ne in Hg by done.
  split; [done|]. intros Hin. apply Hopen.
  destruct (existsb _ _); simpl; [done|].
  unfold heappush. rewrite fmap_app. apply elem_of_app. by left.
Qed.

Lemma improved_g_mono st c n gc x :
  is_Some (g_score st !! x) → is_Some (g_score (improved goal c n gc st) !! x).
Proof.
  simpl. intros H. destruct (decide (x = n)) as [->|?].
  - rewrite lookup_insert_eq. eauto.
  - by rewrite lookup_insert_ne.
Qed.

Lemma explored_expand st f c rest st' :
  inv e start st → explored_but None st →
  heappop (open_set st) = Some ((f, c), rest) → c ≠ goal →
  for_each (get_neighbors e c) (λ n s, relax goal c s n)
           (with_open st rest) = Ok st' →
  explored_but None st'.
Proof.
  intros Hinv HJ Hpop Hne Hrun.
  destruct (pop_inv e start st f c rest Hinv Hpop)
    as (_ & _ & [gc Hc] & Hnotin & Hmem & _).
  pose (K := λ (l : list pos) (s : search),
    explored_but (Some c) s ∧ (c ∉ (open_set s).*2) ∧
    g_score s !! c = Some gc ∧
    (∀ n, n ∈ l → n ∈ get_neighbors e c) ∧
    (∀ n, n ∈ get_neighbors e c → n ∈ l ∨ is_Some (g_score s !! n))).
  assert (HK : K [] st').
  { apply (for_each_inv K (λ n s, relax goal c s n))
      with (l := get_neighbors e c) (s := with_open st rest); [| |done].
    - intros n l s s' (Hex & Hopen & Hgc & Hsub & Hl) Hrelax.
      assert (Hn : n ∈ get_neighbors e c) by (apply Hsub; left).
      apply get_neighbors_spec in Hn as [Hstep Hvalid].
      assert (Hnc : c ≠ n) by by apply unit_step_ne.
      destruct (relax_cases goal s c n gc Hgc) as [[Himp Heq]|[[g [Hg _]] Heq]];
        rewrite Heq in Hrelax; injection Hrelax as <-.
      + split_and!.
        * intros c' [Hc'n Hset]%improved_settled.
          destruct (Hex c' Hset) as [?|[? Hnb]]; [by left|right].
          split; [done|]. intros m ? ?. by apply improved_g_mono, Hnb.
        * simpl. destruct (existsb _ _); simpl; [done|].
          unfold heappush. rewrite fmap_app, elem_of_app. simpl.
          rewrite list_elem_of_singleton. by intros [?|?].
        * simpl. by rewrite lookup_insert_ne.
        * intros m Hm. apply Hsub. by right.
        * intros m Hm. destruct (decide (m = n)) as [->|Hmn].
          { right. simpl. rewrite lookup_insert_eq. eauto. }
          destruct (Hl m Hm) as [[->|?]%elem_of_cons|?]; [done|by left|].
          right. by apply improved_g_mono.
      + split_and!; [done..| |].
        * intros m Hm. apply Hsub. by right.
        * intros m Hm. destruct (Hl m Hm) as [[->|?]%elem_of_cons|?];
            [right; eauto|by left|by right].
    - unfold K. simpl. split_and!; [|done|done|done|by left].
      intros c' [Hg Hopen]. simpl in *.
      destruct (decide (c' = c)) as [->|Hc']; [by left|].
      destruct (HJ c') as [[=]|?]; [|by right].
      split; [done|]. intros Hin.
      apply list_elem_of_fmap in Hin as (it & -> & Hit).
      apply Hmem in Hit as [->|Hit]; [done|].
      apply Hopen. apply list_elem_of_fmap. eauto. }
  destruct HK as (Hex & Hopen & Hgc & _ & Hl).
  intros c' Hset. right. destruct (Hex c' Hset) as [[= ->]|?]; [|done].
  split; [done|]. intros n Hstep Hvalid.
  destruct (Hl n) as [[]%elem_of_nil|?]; [|done].
  by apply get_neighbors_spec.
Qed.

(** When the frontier is empty every cell that a walk from [start]
    reaches has a cost. *)
Lemma explored_walk st a b l :
  explored_but None st → open_set st = [] →
  walk e a b l → is_Some (g_score st !! a) → is_Some (g_score st !! b).
Proof.
  intros HJ Hopen. induction 1 as [|a b c l Hstep Hvalid _ IH]; [done|].
  intros Ha. apply IH.
  destruct (HJ a) as [[=]|[_ Hnb]]; [|by apply Hnb].
  split; [done|]. rewrite Hopen. apply not_elem_of_nil.
Qed.

(** [find_path] returns a walk whenever there is one, and the empty
    list otherwise. *)
Lemma find_path_complete :
  reachable e start goal →
  ∃ path, find_path e start goal = Ok path ∧ walk e start goal path.
Proof.
  intros [l Hl]. unfold find_path, find_path_fuel.
  apply (search_loop_spec e start goal (explored_but None)
           (λ path, walk e start goal path)).
  - apply fuel_bound_universe.
  - intros st Hinv HJ Hopen. exfalso.
    assert (Hg : is_Some (g_score st !! goal)).
    { eapply explored_walk; [done..|]. rewrite (inv_start_g _ _ _ Hinv). eauto. }
    destruct (HJ goal) as [[=]|[? _]]; [|done].
    split; [done|]. rewrite Hopen. apply not_elem_of_nil.
  - intros. done.
  - intros st f c rest st' ? ? ? ? ? _. by eapply explored_expand.
  - apply inv_initial.
  - intros c' [[g Hg] Hopen]. destruct Hopen. simpl in *.
    apply lookup_singleton_Some in Hg as [<- _]. left.
  - apply mu_initial.
Qed.

(** *** The returned path is simple *)

Lemma search_loop_result rfuel fuel : ∀ st path,
  inv e start st → search_loop fuel rfuel e goal st = Ok path →
  path = [] ∨
  ∃ st' gt, inv e start st' ∧ g_score st' !! goal = Some gt ∧
            reconstruct_path rfuel (came_from st') goal = Ok path.
Proof.
  induction fuel as [|fuel IH]; intros st path Hinv Hrun; [done|].
  simpl in Hrun.
  destruct (heappop (open_set st)) as [[[f c] rest]|] eqn:Hpop.
  - destruct (decide (c = goal)) as [->|Hne].
    + destruct (pop_inv e start st f goal rest Hinv Hpop)
        as (_ & _ & [gt Hgt] & _).
      right. eauto.
    + destruct (expand_inv e start goal st f c rest Hinv Hpop)
        as (st' & Hst' & Hinv' & _).
      rewrite Hst' in Hrun. simpl in Hrun. by apply (IH st').
  - injection Hrun as <-. by left.
Qed.

Lemma reconstruct_loop_NoDup st :
  inv e start st → ∀ fuel current acc gcur path,
  g_score st !! current = Some gcur → NoDup acc →
  (∀ p, p ∈ acc → p = current ∨
        ∃ gp, g_score st !! p = Some gp ∧ gcur < gp) →
  reconstruct_loop fuel (came_from st) current acc = Ok path →
  NoDup path.
Proof.
  intros Hinv fuel. induction fuel as [|fuel IH];
    intros current acc gcur path Hcur Hnd Hacc Hrun; [done|].
  simpl in Hrun.
  destruct (came_from st !! current) as [prev|] eqn:Hprev.
  - destruct (inv_cf e start st Hinv current prev Hprev)
      as (_ & _ & gn & gm & Hgn & Hgm & Hle).
    assert (gn = gcur) as -> by congruence.
    apply (IH prev (acc ++ [prev]) gm path); [done| | |done].
    + apply NoDup_app. split_and!; [done| |apply NoDup_singleton].
      intros p Hp ->%list_elem_of_singleton.
      destruct (Hacc prev Hp) as [->|(gp & Hgp & ?)].
      * assert (gm = gcur) by congruence. lia.
      * assert (gm = gp) by congruence. lia.
    + intros p [Hp| ->%list_elem_of_singleton]%elem_of_app; [|by left].
      right. destruct (Hacc p Hp) as [->|(gp & Hgp & ?)].
      * exists gcur. split; [done|lia].
      * exists gp. split; [done|lia].
  - by injection Hrun as <-.
Qed.

(** A path returned by [find_path] visits no cell twice, and so has at
    most one position per grid cell besides [start]. *)
Lemma find_path_simple path :
  find_path e start goal = Ok path →
  NoDup path ∧
  (length path ≤ S (Z.to_nat (grid_width e) * Z.to_nat (grid_height e)))%nat.
Proof.
  intros Hrun. unfold find_path, find_path_fuel in Hrun.
  apply search_loop_result in Hrun as [->|(st & gt & Hinv & Hgt & Hrec)];
    [split; [constructor|simpl; lia]| |apply inv_initial].
  pose proof Hrec as Hrec'.
  unfold reconstruct_path in Hrec.
  apply bind_Ok in Hrec as (rpath & Hloop & [= <-]).
  split.
  - rewrite reverse_Permutation.
    apply (reconstruct_loop_NoDup st Hinv (fuel_bound e) goal [goal] gt);
      [done| | |done].
    + apply NoDup_singleton.
    + intros p ->%list_elem_of_singleton. by left.
  - destruct (inv_g e start st Hinv goal gt Hgt) as [Hlt _].
    pose proof (size_g_score_le e start st Hinv) as Hsize.
    destruct (reconstruct_path_spec e start st (fuel_bound e) goal gt)
      as (path' & Hpath' & _ & Hlen); [done|done| |].
    { pose proof (fuel_bound_universe e start). lia. }
    rewrite Hrec' in Hpath'. injection Hpath' as <-.
    rewrite <- (length_universe e start). lia.
Qed.

End complete.

(** ** Properties of [find_path] *)

(** X1: whenever a walk leads from [start] to [goal], [find_path]
    returns one: it never gives up on a goal that can be reached. *)
Theorem find_path_reaches (e : Environment) (start goal : pos) :
  reachable e start goal →
  ∃ path, find_path e start goal = Ok path ∧ walk e start goal path.
Proof. apply find_path_complete. Qed.

Lemma find_path_reaches_witness :
  ∃ path, find_path grid12 (5, 0) (7, 0) = Ok path ∧
          walk grid12 (5, 0) (7, 0) path.
Proof.
  apply (find_path_reaches grid12 (5, 0) (7, 0)).
  exists [(5, 0); (5, 1); (6, 1); (7, 1); (7, 0)]. walk_tac.
Defined.

(** X2: a path returned by [find_path] visits no cell twice, so it has
    at most one position per grid cell and one for [start]. *)
Theorem find_path_no_revisit (e : Environment) (start goal : pos)
    (path : list pos) :
  find_path e start goal = Ok path →
  NoDup path ∧
  (length path ≤ S (Z.to_nat (grid_width e) * Z.to_nat (grid_height e)))%nat.
Proof. apply find_path_simple. Qed.

Lemma find_path_no_revisit_witness :
  NoDup [(5, 0); (5, 1); (6, 1); (7, 1); (7, 0)] ∧
  (length [(5, 0); (5, 1); (6, 1); (7, 1); (7, 0)]
   ≤ S (Z.to_nat (grid_width grid12) * Z.to_nat (grid_height grid12)))%nat.
Proof.
  apply (find_path_no_revisit grid12 (5, 0) (7, 0)).
  vm_compute. reflexivity.
Defined.

(** X3: a path returned by [find_path] is never shorter than the
    heuristic promises: it has at least as many moves as the Manhattan
    distance from [start] to [goal]. *)
Theorem find_path_at_least_heuristic (e : Environment) (start goal : pos)
    (path : list pos) :
  find_path e start goal = Ok path → path ≠ [] →
  heuristic start goal + 1 ≤ Z.of_nat (length path).
Proof.
  intros Hrun Hne. by apply (walk_length e), find_path_walk.
Qed.

Lemma find_path_at_least_heuristic_witness :
  heuristic (5, 0) (7, 0) + 1
  ≤ Z.of_nat (length [(5, 0); (5, 1); (6, 1); (7, 1); (7, 0)]).
Proof.
  apply (find_path_at_least_heuristic grid12 (5, 0) (7, 0)).
  - vm_compute. reflexivity.
  - discriminate.
Defined.

Lemma get_neighbors_NoDup e p : NoDup (get_neighbors e p).
Proof.
  unfold get_neighbors. apply NoDup_filter, NoDup_fmap_2_strong.
  - intros [a b] [c d] _ _ [= ? ?]. f_equal; lia.
  - apply (bool_decide_unpack _). vm_compute. exact I.
Qed.

(** X4: [get_neighbors] returns exactly the valid positions one move
    away from [pos], each once, so at most four, and never [pos]
    itself. *)
Theorem get_neighbors_exact (e : Environment) (p : pos) :
  (∀ n, n ∈ get_neighbors e p ↔
        unit_step p n ∧ is_valid_position e n = true) ∧
  NoDup (get_neighbors e p) ∧ (length (get_neighbors e p) ≤ 4)%nat ∧
  p ∉ get_neighbors e p.
Proof.
  split_and!.
  - intros n. apply get_neighbors_spec.
  - apply get_neighbors_NoDup.
  - unfold get_neighbors. etrans; [apply length_filter|].
    by rewrite length_fmap.
  - intros [Hstep _]%get_neighbors_spec. by apply unit_step_ne in Hstep.
Qed.

(** ** The road layout, cell by cell *)

(** The cell that [road_map[y][x]] reads, for indices within the map. *)
Definition cell_at (rm : list (list Z)) (x y : Z) : Z :=
  match rm !! Z.to_nat y with
  | Some row => default 0 (row !! Z.to_nat x)
  | None => 0
  end.

(** [rm'] is [rm] with the cells selected by [sel] set to 1. *)
Definition painted (gw gh : Z) (sel : Z → Z → bool) (rm rm' : list (list Z))
  : Prop :=
  rectangular gw gh rm' ∧
  ∀ x y, 0 ≤ x < gw → 0 ≤ y < gh →
    cell_at rm' x y = if sel x y then 1 else cell_at rm x y.

Lemma index_nonneg {A} (l : list A) (i : Z) (a : A) :
  0 ≤ i → l !! Z.to_nat i = Some a → Py.index l i = Ok a.
Proof.
  intros Hi Hl. unfold Py.index.
  apply lookup_lt_Some in Hl as Hlt.
  destruct (Z.ltb_spec i 0); [lia|].
  destruct (Z.leb_spec 0 i); [|lia].
  destruct (Z.ltb_spec i (Z.of_nat (length l))); [|lia].
  simpl. by rewrite Hl.
Qed.

Lemma set_cell_paint gw gh rm x y :
  rectangular gw gh rm → 0 ≤ x < gw → 0 ≤ y < gh →
  ∃ rm', set_cell rm y x 1 = Ok rm' ∧
         painted gw gh (λ x' y', (x' =? x) && (y' =? y)) rm rm'.
Proof.
  intros Hrect Hx Hy. pose proof Hrect as [Hlen Hrows].
  destruct (lookup_lt_is_Some_2 rm (Z.to_nat y)) as [row Hrow]; [lia|].
  assert (Hl : length row = Z.to_nat gw).
  { rewrite Forall_forall in Hrows. by eapply Hrows, list_elem_of_lookup_2. }
  destruct (lookup_lt_is_Some_2 row (Z.to_nat x)) as [v Hv]; [lia|].
  assert (Hset : set_cell rm y x 1
                 = Ok (<[Z.to_nat y := <[Z.to_nat x := 1]> row]> rm)).
  { unfold set_cell. rewrite (index_nonneg rm y row) by (done || lia). simpl.
    rewrite (index_nonneg row x v) by (done || lia). simpl.
    destruct (Z.ltb_spec y 0); [lia|]. destruct (Z.ltb_spec x 0); [lia|].
    done. }
  eexists. split; [exact Hset|]. split.
  { by eapply set_cell_rectangular. }
  intros x' y' Hx' Hy'. unfold cell_at.
  destruct (Z.eqb_spec y' y) as [->|Hne].
  - rewrite list_lookup_insert_eq by lia. rewrite Hrow.
    destruct (Z.eqb_spec x' x) as [->|Hne]; simpl.
    + by rewrite list_lookup_insert_eq by lia.
    + by rewrite list_lookup_insert_ne by lia.
  - rewrite andb_false_r. by rewrite list_lookup_insert_ne by lia.
Qed.

Lemma for_each_paint {A} gw gh (sel : A → Z → Z → bool)
    (body : A → list (list Z) → result (list (list Z))) (l : list A) :
  (∀ a rm, a ∈ l → rectangular gw gh rm →
     ∃ rm', body a rm = Ok rm' ∧ painted gw gh (sel a) rm rm') →
  ∀ rm, rectangular gw gh rm →
  ∃ rm', for_each l body rm = Ok rm' ∧
         painted gw gh (λ x y, existsb (λ a, sel a x y) l) rm rm'.
Proof.
  induction l as [|a l IH]; intros Hbody rm Hrect; simpl.
  - exists rm. split; [done|]. by split.
  - destruct (Hbody a rm) as (rm1 & -> & [Hrect1 Hcell1]); [left|done|].
    destruct (IH (λ b rm Hb, Hbody b rm (list_elem_of_further _ _ _ Hb))
                 rm1 Hrect1) as (rm' & Hrun & [Hrect' Hcell']).
    exists rm'. split; [exact Hrun|]. split; [done|].
    intros x y Hx Hy. rewrite Hcell', Hcell1 by done.
    by destruct (sel a x y), (existsb _ l).
Qed.

Lemma skip_paint gw gh rm :
  rectangular gw gh rm →
  ∃ rm', Ok rm = Ok rm' ∧ painted gw gh (λ _ _, false) rm rm'.
Proof. intros. exists rm. split; [done|]. by split. Qed.

Lemma existsb_range (P : Z → bool) a b :
  existsb P (range a b) = true ↔ ∃ i, a ≤ i < b ∧ P i = true.
Proof.
  rewrite existsb_exists. unfold range. split.
  - intros (i & Hi%list_elem_of_In%elem_of_seqZ & HP). exists i. split; [lia|done].
  - intros (i & Hi & HP). exists i. split; [|done].
    apply list_elem_of_In, elem_of_seqZ. lia.
Qed.

(** The cells that the constructor marks as road: the horizontal band
    of five rows around the middle, and the two vertical roads, three
    cells wide. *)
Definition on_layout (gw gh x y : Z) : bool :=
  ((gh `div` 2 - 2 <=? y) && (y <? gh `div` 2 + 3)) ||
  ((gw `div` 3 - 1 <=? x) && (x <=? gw `div` 3 + 1)) ||
  (((2 * gw) `div` 3 - 1 <=? x) && (x <=? (2 * gw) `div` 3 + 1)).

Lemma cell_at_zeros gw gh x y :
  cell_at (replicate gh (replicate gw 0)) x y = 0.
Proof.
  unfold cell_at.
  destruct (replicate gh _ !! _) as [row|] eqn:Hrow; [|done].
  apply lookup_replicate in Hrow as [-> _].
  destruct (replicate gw 0 !! _) as [v|] eqn:Hv; [|done].
  by apply lookup_replicate in Hv as [-> _].
Qed.

Lemma _create_road_layout_cells gw gh :
  5 ≤ gh →
  ∃ rm, _create_road_layout gw gh = Ok rm ∧ rectangular gw gh rm ∧
        ∀ x y, 0 ≤ x < gw → 0 ≤ y < gh →
          cell_at rm x y = if on_layout gw gh x y then 1 else 0.
Proof.
  intros Hgh. unfold _create_road_layout.
  set (rs := gh `div` 2 - 2). set (re := gh `div` 2 + 3).
  assert (Hrs : 0 ≤ rs ∧ re ≤ gh).
  { unfold rs, re. pose proof (Z.div_mod gh 2).
    pose proof (Z.mod_pos_bound gh 2). lia. }
  assert (H0 : rectangular gw gh
                 (replicate (Z.to_nat gh) (replicate (Z.to_nat gw) 0))).
  { split; [by rewrite length_replicate|].
    apply Forall_replicate. by rewrite length_replicate. }
  destruct (for_each_paint gw gh
    (λ y x' y', existsb (λ x, (x' =? x) && (y' =? y)) (range 0 gw))
    (λ y rm, for_each (range 0 gw) (λ x rm, set_cell rm y x 1) rm)
    (range rs re)) with (rm := replicate (Z.to_nat gh) (replicate (Z.to_nat gw) 0))
    as (rm1 & -> & Hrect1 & Hcell1); [|done|].
  { intros y rm Hy%elem_of_seqZ Hrect.
    apply (for_each_paint gw gh (λ x x' y', (x' =? x) && (y' =? y)));
      [|done].
    intros x rm' Hx%elem_of_seqZ Hrect'.
    apply set_cell_paint; [done|lia|lia]. }
  simpl.
  destruct (for_each_paint gw gh
    (λ road_x x' y', existsb (λ y,
       ((y <? rs) || (re <=? y)) &&
       existsb (λ x, ((0 <=? x) && (x <? gw)) && ((x' =? x) && (y' =? y)))
               (range (road_x - 1) (road_x + 2))) (range 0 gh))
    (λ road_x rm,
       for_each (range 0 gh) (λ y rm,
         if (y <? rs) || (re <=? y) then
           for_each (range (road_x - 1) (road_x + 2)) (λ x rm,
             if (0 <=? x) && (x <? gw) then set_cell rm y x 1 else Ok rm) rm
         else Ok rm) rm)
    [gw `div` 3; (2 * gw) `div` 3]) with (rm := rm1)
    as (rm & Hrm & Hrect & Hcell); [|done|].
  { intros road_x rm _ Hrect.
    apply (for_each_paint gw gh (λ y x' y',
       ((y <? rs) || (re <=? y)) &&
       existsb (λ x, ((0 <=? x) && (x <? gw)) && ((x' =? x) && (y' =? y)))
               (range (road_x - 1) (road_x + 2)))); [|done].
    intros y rm' Hy%elem_of_seqZ Hrect'.
    destruct ((y <? rs) || (re <=? y)); simpl; [|by apply skip_paint].
    apply (for_each_paint gw gh (λ x x' y',
       ((0 <=? x) && (x <? gw)) && ((x' =? x) && (y' =? y)))); [|done].
    intros x rm'' _ Hrect''.
    destruct (Z.leb_spec 0 x), (Z.ltb_spec x gw); simpl;
      try by apply skip_paint.
    apply set_cell_paint; [done|lia|lia]. }
  exists rm. split; [exact Hrm|]. split; [done|].
  intros x y Hx Hy. rewrite Hcell, Hcell1 by done.
  rewrite cell_at_zeros.
  set (b2 := existsb _ [gw `div` 3; (2 * gw) `div` 3]).
  set (b1 := existsb _ (range rs re)).
  assert (Hb1 : b1 = true ↔ rs ≤ y < re).
  { unfold b1. rewrite existsb_range. split.
    - intros (i & Hi & (j & Hj & Heq)%existsb_range). lia.
    - intros Hband. exists y. split; [done|]. apply existsb_range.
      exists x. split; [lia|]. lia. }
  assert (Hnear : ∀ road_x,
    existsb (λ y0, ((y0 <? rs) || (re <=? y0)) &&
       existsb (λ x0, ((0 <=? x0) && (x0 <? gw)) && ((x =? x0) && (y =? y0)))
               (range (road_x - 1) (road_x + 2))) (range 0 gh) = true ↔
    (y < rs ∨ re ≤ y) ∧ road_x - 1 ≤ x ≤ road_x + 1).
  { intros road_x. rewrite existsb_range. split.
    - intros (i & Hi & [Hout (j & Hj & Heq)%existsb_range]%andb_prop). lia.
    - intros [Hout Hx']. exists y. split; [done|]. apply andb_true_intro.
      split; [lia|]. apply existsb_range. exists x. split; [lia|]. lia. }
  assert (Hb2 : b2 = true ↔
    (y < rs ∨ re ≤ y) ∧
    (gw `div` 3 - 1 ≤ x ≤ gw `div` 3 + 1 ∨
     (2 * gw) `div` 3 - 1 ≤ x ≤ (2 * gw) `div` 3 + 1)).
  { unfold b2. simpl. rewrite orb_false_r, orb_true_iff, !Hnear. tauto. }
  unfold on_layout. fold rs re.
  destruct b2, b1;
    repeat match goal with
           | |- context [?a <=? ?b] => destruct (Z.leb_spec a b)
           | |- context [?a <? ?b] => destruct (Z.ltb_spec a b)
           end; simpl; try done; exfalso;
    first [ assert (true = true) as Ht by done; (apply Hb1 in Ht || apply Hb2 in Ht); lia
          | assert (false = true) as Hf; [|done]; (apply Hb1 || apply Hb2); lia ].
Qed.

(** *** A grid of fewer than five rows *)

Lemma index_in_range {A} (l : list A) (i : Z) :
  - Z.of_nat (length l) ≤ i < Z.of_nat (length l) → ∃ a, Py.index l i = Ok a.
Proof.
  intros Hi. unfold Py.index.
  set (j := if i <? 0 then i + Z.of_nat (length l) else i).
  assert (0 ≤ j < Z.of_nat (length l)) by (unfold j; destruct (Z.ltb_spec i 0); lia).
  destruct (Z.leb_spec 0 j); [|lia].
  destruct (Z.ltb_spec j (Z.of_nat (length l))); [|lia]. simpl.
  destruct (lookup_lt_is_Some_2 l (Z.to_nat j)) as [a ->]; [lia|]. eauto.
Qed.

Lemma index_out_of_range {A} (l : list A) (i : Z) :
  i < - Z.of_nat (length l) ∨ Z.of_nat (length l) ≤ i →
  Py.index l i = Raise IndexError.
Proof.
  intros Hi. unfold Py.index.
  set (j := if i <? 0 then i + Z.of_nat (length l) else i).
  assert (j < 0 ∨ Z.of_nat (length l) ≤ j)
    by (unfold j; destruct (Z.ltb_spec i 0); lia).
  destruct (Z.leb_spec 0 j), (Z.ltb_spec j (Z.of_nat (length l)));
    simpl; try done; lia.
Qed.

Lemma set_cell_row_ok gw gh rm y x :
  rectangular gw gh rm →
  - Z.of_nat (length rm) ≤ y < Z.of_nat (length rm) → 0 ≤ x < gw →
  ∃ rm', set_cell rm y x 1 = Ok rm' ∧ rectangular gw gh rm'.
Proof.
  intros Hrect Hy Hx. destruct (index_in_range rm y Hy) as [row Hrow].
  assert (Hl : length row = Z.to_nat gw).
  { destruct Hrect as [_ Hrows]. rewrite Forall_forall in Hrows.
    by eapply Hrows, index_elem_of. }
  destruct (index_in_range row x) as [v Hv]; [lia|].
  assert (∃ rm', set_cell rm y x 1 = Ok rm') as [rm' Hset].
  { unfold set_cell. rewrite Hrow. simpl. rewrite Hv. simpl. eauto. }
  exists rm'. split; [done|]. by eapply set_cell_rectangular.
Qed.

Lemma for_each_raises {S A} (P : S → Prop) (body : A → S → result S)
    (ex : exn) (l : list A) :
  (∀ a s, a ∈ l → P s →
     (∃ s', body a s = Ok s' ∧ P s') ∨ body a s = Raise ex) →
  (∃ a, a ∈ l ∧ ∀ s, P s → body a s = Raise ex) →
  ∀ s, P s → for_each l body s = Raise ex.
Proof.
  induction l as [|a l IH]; intros Hbody (b & Hb & Hfail) s Hs.
  { by apply elem_of_nil in Hb. }
  simpl. destruct (Hbody a s) as [(s' & Hrun & Hs')| ->]; [left|done| |done].
  apply elem_of_cons in Hb as [->|Hb].
  { by rewrite Hfail in Hrun. }
  rewrite Hrun. simpl. apply IH; [|eauto|done].
  intros c t Hc. apply Hbody. by right.
Qed.

Lemma _create_road_layout_short gw gh :
  0 < gw → gh < 5 → _create_road_layout gw gh = Raise IndexError.
Proof.
  intros Hgw Hgh. unfold _create_road_layout.
  set (rs := gh `div` 2 - 2). set (re := gh `div` 2 + 3).
  set (rm0 := replicate (Z.to_nat gh) (replicate (Z.to_nat gw) 0)).
  assert (H0 : rectangular gw gh rm0).
  { unfold rm0. split; [by rewrite length_replicate|].
    apply Forall_replicate. by rewrite length_replicate. }
  assert (Hlen : ∀ rm, rectangular gw gh rm →
                       Z.of_nat (length rm) = Z.max 0 gh).
  { intros rm [-> _]. lia. }
  assert (Hx0 : range 0 gw = 0 :: range 1 gw).
  { unfold range. replace (gw - 0) with (Z.succ (gw - 1)) by lia.
    rewrite seqZ_cons by lia. do 2 f_equal; lia. }
  rewrite (for_each_raises (rectangular gw gh) _ IndexError); [done| | |done].
  - intros y rm _ Hrect.
    destruct (decide (- Z.of_nat (length rm) ≤ y < Z.of_nat (length rm)))
      as [Hy|Hy].
    + left.
      destruct (for_each_Ok (λ l s, rectangular gw gh s ∧
                                    ∀ x, x ∈ l → 0 ≤ x < gw)
                  (λ x rm, set_cell rm y x 1)) with (l := range 0 gw) (s := rm)
        as (s' & Hrun & Hs' & _); [| |by eauto].
      * intros x l s [Hs Hl]. destruct (set_cell_row_ok gw gh s y x)
          as (s' & -> & Hs'); [done| |apply Hl; left|].
        { destruct Hs as [-> _], Hrect as [<- _]. done. }
        exists s'. split; [done|]. split; [done|].
        intros x' Hx'. apply Hl. by right.
      * split; [done|]. intros x Hx%elem_of_seqZ. lia.
    + right. rewrite Hx0. simpl. unfold set_cell.
      rewrite index_out_of_range by lia. done.
  - exists (re - 1). split.
    { apply elem_of_seqZ. unfold re, rs. lia. }
    intros rm Hrect. rewrite Hx0. simpl. unfold set_cell.
    rewrite index_out_of_range; [done|].
    rewrite (Hlen rm Hrect). unfold re.
    pose proof (Z.div_mod gh 2). pose proof (Z.mod_pos_bound gh 2). lia.
Qed.

(** *** The constructor *)

(** [e] carries the road layout of the constructor. *)
Definition laid_out (e : Environment) : Prop :=
  5 ≤ grid_height e ∧
  ∀ p, is_road e p
       = in_bounds e p && on_layout (grid_width e) (grid_height e) p.1 p.2.

Lemma in_bounds_spec e p :
  in_bounds e p = true ↔
  0 ≤ p.1 < grid_width e ∧ 0 ≤ p.2 < grid_height e.
Proof.
  unfold in_bounds. rewrite !andb_true_iff, !Z.leb_le, !Z.ltb_lt. lia.
Qed.

Lemma init_spec width height obs :
  100 ≤ height →
  ∃ e, Env.init width height obs = Ok e ∧
       grid_width e = width `div` 20 ∧ grid_height e = height `div` 20 ∧
       start_pos e = (2, grid_height e `div` 2) ∧
       destination e = (grid_width e - 3, grid_height e `div` 2) ∧
       obstacles e = obs ∧
       rectangular (grid_width e) (grid_height e) (road_map e) ∧
       laid_out e.
Proof.
  intros Hh. unfold Env.init.
  assert (Hgh : 5 ≤ height `div` 20).
  { apply Z.div_le_lower_bound; lia. }
  destruct (_create_road_layout_cells (width `div` 20) (height `div` 20) Hgh)
    as (rm & -> & Hrect & Hcell).
  eexists. split; [done|]. simpl. split_and!; try done.
  split; [done|]. intros p. unfold is_road. simpl.
  destruct (in_bounds _ p) eqn:Hin; [|done]. simpl.
  apply in_bounds_spec in Hin as [Hx Hy]. simpl in Hx, Hy.
  change (road_cell _ p.1 p.2) with (cell_at rm p.1 p.2).
  rewrite Hcell by done. by destruct (on_layout _ _ _ _).
Qed.

Lemma init_short width height obs :
  20 ≤ width → height < 100 → Env.init width height obs = Raise IndexError.
Proof.
  intros Hw Hh. unfold Env.init.
  rewrite _create_road_layout_short; [done| |].
  - apply Z.div_str_pos. lia.
  - apply Z.div_lt_upper_bound; lia.
Qed.

Lemma init_laid_out width height obs e :
  Env.init width height obs = Ok e → 0 < grid_width e → laid_out e.
Proof.
  intros Hinit Hgw. destruct (decide (100 ≤ height)) as [Hh|Hh].
  - destruct (init_spec width height obs Hh) as (e' & He' & H).
    rewrite Hinit in He'. injection He' as <-. apply H.
  - assert (Hw : grid_width e = width `div` 20).
    { unfold Env.init in Hinit. apply bind_Ok in Hinit as (rm & _ & [= <-]).
      done. }
    rewrite init_short in Hinit; [done| |lia].
    destruct (decide (20 ≤ width)); [done|].
    assert (width `div` 20 ≤ 0); [|lia].
    destruct (decide (0 ≤ width)).
    + rewrite Z.div_small by lia. done.
    + apply Z.lt_le_incl, Z.div_lt_upper_bound; lia.
Qed.

(** *** Every road cell can be reached from every other *)

Lemma reachable_refl e a : reachable e a a.
Proof. exists [a]. constructor. Qed.

Lemma reachable_step e a b c :
  unit_step a b → is_valid_position e b = true → reachable e b c →
  reachable e a c.
Proof. intros ? ? [l Hl]. exists (a :: l). by econstructor. Qed.

Lemma reachable_trans e a b c :
  reachable e a b → reachable e b c → reachable e a c.
Proof.
  intros [l Hl] Hbc. induction Hl as [|a b b' l ? ? _ IH]; [done|].
  eapply reachable_step; eauto.
Qed.

Lemma reachable_column e x y1 y2 :
  (∀ y, Z.min y1 y2 ≤ y ≤ Z.max y1 y2 → is_valid_position e (x, y) = true) →
  reachable e (x, y1) (x, y2).
Proof.
  remember (Z.to_nat (Z.abs (y2 - y1))) as n eqn:Hn.
  revert y1 Hn. induction n as [|n IH]; intros y1 Hn Hvalid.
  - replace y2 with y1 by lia. apply reachable_refl.
  - destruct (decide (y1 < y2)).
    + apply (reachable_step e _ (x, y1 + 1)).
      * apply unit_step_cases. simpl. lia.
      * apply Hvalid. lia.
      * apply IH; [lia|]. intros y Hy. apply Hvalid. lia.
    + apply (reachable_step e _ (x, y1 - 1)).
      * apply unit_step_cases. simpl. lia.
      * apply Hvalid. lia.
      * apply IH; [lia|]. intros y Hy. apply Hvalid. lia.
Qed.

Lemma reachable_row e y x1 x2 :
  (∀ x, Z.min x1 x2 ≤ x ≤ Z.max x1 x2 → is_valid_position e (x, y) = true) →
  reachable e (x1, y) (x2, y).
Proof.
  remember (Z.to_nat (Z.abs (x2 - x1))) as n eqn:Hn.
  revert x1 Hn. induction n as [|n IH]; intros x1 Hn Hvalid.
  - replace x2 with x1 by lia. apply reachable_refl.
  - destruct (decide (x1 < x2)).
    + apply (reachable_step e _ (x1 + 1, y)).
      * apply unit_step_cases. simpl. lia.
      * apply Hvalid. lia.
      * apply IH; [lia|]. intros x Hx. apply Hvalid. lia.
    + apply (reachable_step e _ (x1 - 1, y)).
      * apply unit_step_cases. simpl. lia.
      * apply Hvalid. lia.
      * apply IH; [lia|]. intros x Hx. apply Hvalid. lia.
Qed.

Lemma on_layout_spec gw gh x y :
  on_layout gw gh x y = true ↔
  gh `div` 2 - 2 ≤ y < gh `div` 2 + 3 ∨
  gw `div` 3 - 1 ≤ x ≤ gw `div` 3 + 1 ∨
  (2 * gw) `div` 3 - 1 ≤ x ≤ (2 * gw) `div` 3 + 1.
Proof.
  unfold on_layout.
  rewrite !orb_true_iff, !andb_true_iff, !Z.leb_le, !Z.ltb_lt. tauto.
Qed.

Lemma laid_out_valid e x y :
  laid_out e → obstacles e = ∅ →
  is_valid_position e (x, y) = true ↔
  (0 ≤ x < grid_width e ∧ 0 ≤ y < grid_height e) ∧
  (grid_height e `div` 2 - 2 ≤ y < grid_height e `div` 2 + 3 ∨
   grid_width e `div` 3 - 1 ≤ x ≤ grid_width e `div` 3 + 1 ∨
   (2 * grid_width e) `div` 3 - 1 ≤ x ≤ (2 * grid_width e) `div` 3 + 1).
Proof.
  intros [_ Hroad] Hobs. unfold is_valid_position. rewrite Hobs, Hroad.
  rewrite bool_decide_eq_false_2 by set_solver. simpl.
  rewrite andb_true_r, andb_true_iff, in_bounds_spec, on_layout_spec. done.
Qed.

Lemma road_to_band e x y :
  laid_out e → obstacles e = ∅ → is_valid_position e (x, y) = true →
  reachable e (x, y) (x, grid_height e `div` 2) ∧
  reachable e (x, grid_height e `div` 2) (x, y).
Proof.
  intros Hlay Hobs Hv. pose proof Hlay as [Hgh _].
  apply (laid_out_valid e x y Hlay Hobs) in Hv.
  pose proof (Z.div_mod (grid_height e) 2).
  pose proof (Z.mod_pos_bound (grid_height e) 2).
  split; apply reachable_column; intros y' Hy';
    apply (laid_out_valid e x y' Hlay Hobs); lia.
Qed.

Lemma laid_out_connected e a b :
  laid_out e → obstacles e = ∅ →
  is_valid_position e a = true → is_valid_position e b = true →
  reachable e a b.
Proof.
  intros Hlay Hobs Ha Hb. destruct a as [x1 y1], b as [x2 y2].
  apply (reachable_trans e _ (x1, grid_height e `div` 2));
    [by apply road_to_band|].
  apply (reachable_trans e _ (x2, grid_height e `div` 2));
    [|by apply road_to_band].
  pose proof Hlay as [Hgh _].
  apply (laid_out_valid e _ _ Hlay Hobs) in Ha, Hb.
  pose proof (Z.div_mod (grid_height e) 2).
  pose proof (Z.mod_pos_bound (grid_height e) 2).
  apply reachable_row. intros x Hx.
  apply (laid_out_valid e _ _ Hlay Hobs). lia.
Qed.

(** ** Pixels and cells *)

Lemma pixel_grid_round_trip p : pixel_to_grid (grid_to_pixel p) = p.
Proof.
  destruct p as [x y]. unfold pixel_to_grid, grid_to_pixel, grid_size. simpl.
  change (20 `div` 2) with 10.
  f_equal; symmetry; apply (Z.div_unique _ 20 _ 10); lia.
Qed.

Lemma pixel_to_grid_cell q :
  let c := pixel_to_grid q in
  c.1 * grid_size ≤ q.1 < (c.1 + 1) * grid_size ∧
  c.2 * grid_size ≤ q.2 < (c.2 + 1) * grid_size.
Proof.
  destruct q as [x y]. unfold pixel_to_grid, grid_size. simpl.
  pose proof (Z.div_mod x 20). pose proof (Z.mod_pos_bound x 20).
  pose proof (Z.div_mod y 20). pose proof (Z.mod_pos_bound y 20). lia.
Qed.

(** ** Placing obstacles *)

Lemma randint_range a b r :
  a ≤ b → ∃ v, randint a b r = Ok v ∧ a ≤ v ≤ b.
Proof.
  intros Hab. unfold randint. destruct (Z.ltb_spec b a); [lia|].
  eexists. split; [done|].
  pose proof (Z.mod_pos_bound r (b - a + 1)). lia.
Qed.

(** What [_place_obstacles] keeps true of the set it builds. *)
Definition well_placed (env : Environment) (num_obstacles : Z)
    (obs : gset pos) : Prop :=
  Z.of_nat (size obs) ≤ Z.max 0 num_obstacles ∧
  ∀ o, o ∈ obs →
    is_road env o = true ∧ o ≠ start_pos env ∧ o ≠ destination env.

Lemma place_loop_spec env num rand :
  rectangular (grid_width env) (grid_height env) (road_map env) →
  0 < grid_width env → 0 < grid_height env →
  ∀ fuel attempts obs,
  well_placed env num obs →
  (Z.to_nat (num * 50 - attempts) < fuel)%nat →
  ∃ obs', place_loop fuel env num rand attempts obs = Ok obs' ∧
          well_placed env num obs'.
Proof.
  intros Hrect Hgw Hgh fuel.
  induction fuel as [|fuel IH]; intros attempts obs Hobs Hfuel; [lia|].
  simpl.
  destruct (Z.ltb_spec (Z.of_nat (size obs)) num) as [Hsize|?];
    [|by eauto].
  destruct (Z.ltb_spec attempts (num * 50)) as [Hatt|?]; [|by eauto].
  simpl.
  destruct (randint_range 0 (grid_width env - 1) (rand (attempts + 1)).1)
    as (x & -> & Hx); [lia|].
  destruct (randint_range 0 (grid_height env - 1) (rand (attempts + 1)).2)
    as (y & -> & Hy); [lia|].
  simpl.
  assert (Hin : in_bounds env (x, y) = true).
  { unfold in_bounds. simpl.
    rewrite !andb_true_iff, !Z.leb_le, !Z.ltb_lt. lia. }
  destruct (road_cell_defined env (x, y) Hrect Hin) as (row & Hrow & Hcell).
  simpl in Hrow, Hcell.
  rewrite (index_nonneg _ y row) by (lia || done). simpl.
  rewrite (index_nonneg _ x _ ltac:(lia) Hcell). simpl.
  destruct (_ && _) eqn:Hcond; [|by apply IH; [done|lia]].
  apply IH; [|lia].
  apply andb_prop in Hcond as [Hcond Hd%negb_true_iff%bool_decide_eq_false].
  apply andb_prop in Hcond as [Hcond Hs%negb_true_iff%bool_decide_eq_false].
  apply andb_prop in Hcond as [Hc Ho%negb_true_iff%bool_decide_eq_false].
  destruct Hobs as [Hlen Hall]. split.
  - rewrite size_union by set_solver. rewrite size_singleton. lia.
  - intros o [Ho'| ->%elem_of_singleton]%elem_of_union; [by apply Hall|].
    split_and!; [|done|done].
    unfold is_road. rewrite Hin. done.
Qed.

Lemma _place_obstacles_spec env num rand :
  rectangular (grid_width env) (grid_height env) (road_map env) →
  0 < grid_width env → 0 < grid_height env →
  ∃ obs, _place_obstacles env num rand = Ok obs ∧ well_placed env num obs.
Proof.
  intros Hrect Hgw Hgh. apply place_loop_spec; [done..| |lia].
  split; [rewrite size_empty; lia|set_solver].
Qed.

Lemma _place_obstacles_none env num rand :
  num ≤ 0 → _place_obstacles env num rand = Ok ∅.
Proof.
  intros Hnum. unfold _place_obstacles. cbn [place_loop].
  rewrite size_empty. destruct (Z.ltb_spec (Z.of_nat 0) num); [lia|done].
Qed.

Lemma _place_obstacles_no_columns env num rand :
  0 < num → grid_width env ≤ 0 →
  _place_obstacles env num rand = Raise ValueError.
Proof.
  intros Hnum Hgw. unfold _place_obstacles. cbn [place_loop].
  rewrite size_empty. destruct (Z.ltb_spec (Z.of_nat 0) num); [|lia].
  destruct (Z.ltb_spec 0 (num * 50)); [|lia]. simpl.
  unfold randint. destruct (Z.ltb_spec (grid_width env - 1) 0); [done|lia].
Qed.

(** After [regenerate_obstacles] the start and the destination are
    valid positions whenever they are road cells. *)
Lemma regenerate_obstacles_spec env num rand :
  rectangular (grid_width env) (grid_height env) (road_map env) →
  0 < grid_width env → 0 < grid_height env →
  ∃ obs env', regenerate_obstacles env num rand = Ok (obs, env') ∧
    env' = set_obstacles env obs ∧ well_placed env num obs ∧
    is_valid_position env' (start_pos env') = is_road env (start_pos env) ∧
    is_valid_position env' (destination env') = is_road env (destination env).
Proof.
  intros Hrect Hgw Hgh.
  destruct (_place_obstacles_spec env num rand Hrect Hgw Hgh)
    as (obs & Hrun & Hobs).
  exists obs, (set_obstacles env obs). unfold regenerate_obstacles.
  rewrite Hrun. simpl. split_and!; [done..| |].
  - unfold is_valid_position. simpl.
    rewrite bool_decide_eq_false_2; [by rewrite andb_true_r|].
    intros Hin. by destruct (proj2 Hobs _ Hin) as (_ & ? & _).
  - unfold is_valid_position. simpl.
    rewrite bool_decide_eq_false_2; [by rewrite andb_true_r|].
    intros Hin. by destruct (proj2 Hobs _ Hin) as (_ & _ & ?).
Qed.

(** ** Properties of the environment *)

Lemma grid12_rectangular :
  rectangular (grid_width grid12) (grid_height grid12) (road_map grid12).
Proof. split; [reflexivity|]. repeat constructor. Qed.

(** X5: on a grid of at least five rows [_create_road_layout]
    returns a map of [grid_height] rows of [grid_width] cells, in which
    a cell is 1 exactly when it lies in the band of five rows around the
    middle or within one column of [grid_width // 3] or of
    [2 * grid_width // 3], and 0 otherwise. *)
Theorem road_layout_cells (gw gh : Z) :
  5 ≤ gh →
  ∃ rm, _create_road_layout gw gh = Ok rm ∧ rectangular gw gh rm ∧
        ∀ x y, 0 ≤ x < gw → 0 ≤ y < gh →
          cell_at rm x y = if on_layout gw gh x y then 1 else 0.
Proof. apply _create_road_layout_cells. Qed.

Lemma road_layout_cells_witness :
  ∃ rm, _create_road_layout 12 7 = Ok rm ∧ rectangular 12 7 rm ∧
        ∀ x y, 0 ≤ x < 12 → 0 ≤ y < 7 →
          cell_at rm x y = if on_layout 12 7 x y then 1 else 0.
Proof. apply (road_layout_cells 12 7). lia. Defined.

(** X6: a window less than 100 pixels high and at least 20 wide
    makes the constructor raise [IndexError]: with fewer than five rows
    the horizontal band does not fit into the map. *)
Theorem init_short_window (width height : Z) (obs : gset pos) :
  20 ≤ width → height < 100 → Env.init width height obs = Raise IndexError.
Proof. apply init_short. Qed.

Lemma init_short_window_witness : Env.init 240 80 ∅ = Raise IndexError.
Proof. apply (init_short_window 240 80 ∅); lia. Defined.

(** X7: on the grid that the constructor builds, as long as it
    has no obstacles, every two valid positions are linked by a walk,
    and [find_path] returns a walk from the one to the other. *)
Theorem find_path_on_open_roads (width height : Z) (e : Environment)
    (a b : pos) :
  Env.init width height ∅ = Ok e →
  is_valid_position e a = true → is_valid_position e b = true →
  ∃ path, find_path e a b = Ok path ∧ walk e a b path.
Proof.
  intros Hinit Ha Hb. apply find_path_complete.
  assert (Hgw : 0 < grid_width e).
  { apply valid_in_bounds, in_bounds_spec in Ha. lia. }
  apply laid_out_connected; [by eapply init_laid_out| |done..].
  unfold Env.init in Hinit. by apply bind_Ok in Hinit as (rm & _ & [= <-]).
Qed.

Lemma find_path_on_open_roads_witness :
  ∃ path, find_path grid12 (3, 0) (8, 6) = Ok path ∧
          walk grid12 (3, 0) (8, 6) path.
Proof.
  apply (find_path_on_open_roads 240 140 grid12 (3, 0) (8, 6)).
  - apply grid12_init.
  - vm_compute. reflexivity.
  - vm_compute. reflexivity.
Defined.

(** X8: on a map that is the grid it claims to be,
    [_place_obstacles] returns; the set it returns has at most
    [num_obstacles] cells, all of them road cells, and contains neither
    the start nor the destination. *)
Theorem place_obstacles_spec (env : Environment) (num_obstacles : Z)
    (rand : Z → Z * Z) :
  rectangular (grid_width env) (grid_height env) (road_map env) →
  0 < grid_width env → 0 < grid_height env →
  ∃ obs, _place_obstacles env num_obstacles rand = Ok obs ∧
         Z.of_nat (size obs) ≤ Z.max 0 num_obstacles ∧
         ∀ o, o ∈ obs →
           is_road env o = true ∧ o ≠ start_pos env ∧ o ≠ destination env.
Proof. apply _place_obstacles_spec. Qed.

Lemma place_obstacles_spec_witness :
  ∃ obs, _place_obstacles grid12 25 (λ n, (7 * n, 3 * n)) = Ok obs ∧
         Z.of_nat (size obs) ≤ Z.max 0 25 ∧
         ∀ o, o ∈ obs →
           is_road grid12 o = true ∧ o ≠ start_pos grid12 ∧
           o ≠ destination grid12.
Proof.
  apply (place_obstacles_spec grid12 25 (λ n, (7 * n, 3 * n))).
  - apply grid12_rectangular.
  - reflexivity.
  - reflexivity.
Defined.

(** X9: asked for no obstacle, [_place_obstacles] returns the
    empty set without a single draw; asked for some on a grid that has
    no column, it raises the [ValueError] of [random.randint] on an
    empty range. *)
Theorem place_obstacles_edges (env : Environment) (num_obstacles : Z)
    (rand : Z → Z * Z) :
  (num_obstacles ≤ 0 → _place_obstacles env num_obstacles rand = Ok ∅) ∧
  (0 < num_obstacles → grid_width env ≤ 0 →
   _place_obstacles env num_obstacles rand = Raise ValueError).
Proof.
  split; [apply _place_obstacles_none|apply _place_obstacles_no_columns].
Qed.

Lemma place_obstacles_edges_witness :
  _place_obstacles grid12 0 (λ n, (n, n)) = Ok ∅ ∧
  _place_obstacles
    {| grid_width := 0; grid_height := 7; road_map := replicate 7 [];
       start_pos := (2, 3); destination := (-3, 3); obstacles := ∅ |}
    15 (λ n, (n, n)) = Raise ValueError.
Proof.
  split.
  - apply (place_obstacles_edges grid12 0 (λ n, (n, n))). lia.
  - apply (place_obstacles_edges _ 15 (λ n, (n, n))); simpl; lia.
Defined.

(** X10: the centre pixel of a cell maps back to the cell, and
    every pixel lies in the square of 20 by 20 pixels of the cell that
    [pixel_to_grid] gives for it. *)
Theorem pixel_grid_round_trip_cell (p q : pos) :
  pixel_to_grid (grid_to_pixel p) = p ∧
  (pixel_to_grid q).1 * grid_size ≤ q.1 < ((pixel_to_grid q).1 + 1) * grid_size ∧
  (pixel_to_grid q).2 * grid_size ≤ q.2 < ((pixel_to_grid q).2 + 1) * grid_size.
Proof.
  split; [apply pixel_grid_round_trip|apply pixel_to_grid_cell].
Qed.

(** ** [a_star_search] returns a shortest path *)

Section a_star.
Context (e : Environment) (start goal : pos).

(** What the loop of [a_star_search] keeps true: the costs and the back
    pointers are as in [find_path]; every cell on the heap has a cost;
    a cell with a cost is on the heap with a priority that its cost
    accounts for, or it is not the goal and all its valid neighbours
    have a cost at most one above its own; and the goal is on the heap
    only with priorities that are at least its cost. *)
Record a_inv (st : search) : Prop := {
  a_base : inv e start (with_open st []);
  a_open : ∀ it, it ∈ open_set st → is_Some (g_score st !! it.2);
  a_front : ∀ n gn, g_score st !! n = Some gn →
    (∃ f, (f, n) ∈ open_set st ∧ f ≤ gn + heuristic n goal) ∨
    (n ≠ goal ∧
     ∀ m, unit_step n m → is_valid_position e m = true →
          ∃ gm, g_score st !! m = Some gm ∧ gm ≤ gn + 1);
  a_goal : ∀ f, (f, goal) ∈ open_set st →
    ∃ gg, g_score st !! goal = Some gg ∧ gg ≤ f
}.

Lemma inv_drop_open st : inv e start st → inv e start (with_open st []).
Proof.
  intros [H1 H2 H3 H4 _ _]. split; simpl; [done..| |constructor].
  by intros it ?%elem_of_nil.
Qed.

(** The state after an improvement. *)
Definition pushed (c n : pos) (gc : Z) (st : search) : search :=
  let f := gc + 1 + EnvSearch.heuristic n goal in
  {| open_set := heappush (open_set st) (f, n);
     came_from := <[n := c]> (came_from st);
     g_score := <[n := gc + 1]> (g_score st);
     f_score := <[n := f]> (f_score st) |}.

Lemma a_relax_cases st (c d : pos) gc :
  g_score st !! c = Some gc →
  let n : pos := (c.1 + d.1, c.2 + d.2) in
  (is_valid_position e n = false ∧ EnvSearch.relax e goal c st d = Ok st) ∨
  (is_valid_position e n = true ∧
   (∃ g, g_score st !! n = Some g ∧ g ≤ gc + 1) ∧
   EnvSearch.relax e goal c st d = Ok st) ∨
  (is_valid_position e n = true ∧ improves n gc st ∧
   EnvSearch.relax e goal c st d = Ok (pushed c n gc st)).
Proof.
  intros Hc n. unfold EnvSearch.relax, Py.getitem. fold n. rewrite Hc.
  destruct (is_valid_position e n); simpl; [right|by left].
  unfold improves.
  destruct (g_score st !! n) as [g|] eqn:Hn; rewrite ?Hn.
  - destruct (Z.ltb_spec (gc + 1) g).
    + right. split_and!; [done|right; eauto|done].
    + left. split_and!; [done|eauto|done].
  - right. split_and!; [done|by left|done].
Qed.

Lemma delta_step (c d : pos) :
  d ∈ EnvSearch.deltas → unit_step c (c.1 + d.1, c.2 + d.2).
Proof.
  unfold EnvSearch.deltas. rewrite !elem_of_cons, elem_of_nil.
  intros [->|[->|[->|[->|[]]]]]; apply unit_step_cases; simpl; lia.
Qed.

Lemma step_delta (c m : pos) :
  unit_step c m → ∃ d, d ∈ EnvSearch.deltas ∧ m = (c.1 + d.1, c.2 + d.2).
Proof.
  intros H%unit_step_cases. destruct m as [x y]. simpl in H.
  destruct H as [[-> ->]|[[-> ->]|[[-> ->]|[-> ->]]]];
    [exists (0, 1)|exists (0, -1)|exists (1, 0)|exists (-1, 0)];
    (split; [unfold EnvSearch.deltas; set_solver|simpl; f_equal; lia]).
Qed.

(** The state in the middle of the expansion of [c], with the deltas
    [ds] still to go. *)
Record a_mid (c : pos) (gc : Z) (bound : nat) (ds : list pos) (st : search)
  : Prop := {
  m_base : inv e start (with_open st []);
  m_open : ∀ it, it ∈ open_set st → is_Some (g_score st !! it.2);
  m_cur : g_score st !! c = Some gc;
  m_front : ∀ n gn, n ≠ c → g_score st !! n = Some gn →
    (∃ f, (f, n) ∈ open_set st ∧ f ≤ gn + heuristic n goal) ∨
    (n ≠ goal ∧
     ∀ m, unit_step n m → is_valid_position e m = true →
          ∃ gm, g_score st !! m = Some gm ∧ gm ≤ gn + 1);
  m_goal : ∀ f, (f, goal) ∈ open_set st →
    ∃ gg, g_score st !! goal = Some gg ∧ gg ≤ f;
  m_done : ∀ d, d ∈ EnvSearch.deltas → d ∈ ds ∨
    (is_valid_position e (c.1 + d.1, c.2 + d.2) = true →
     ∃ gm, g_score st !! (c.1 + d.1, c.2 + d.2) = Some gm ∧ gm ≤ gc + 1);
  m_sub : ∀ d, d ∈ ds → d ∈ EnvSearch.deltas;
  m_mu : (mu e start st ≤ bound)%nat
}.

Lemma pushed_mid (c : pos) gc bound (d : pos) ds st :
  let n : pos := (c.1 + d.1, c.2 + d.2) in
  a_mid c gc bound (d :: ds) st →
  is_valid_position e n = true → improves n gc st →
  a_mid c gc bound ds (pushed c n gc st).
Proof.
  intros n [Hbase Hopen Hcur Hfront Hgoal Hdone Hsub Hmu] Hvalid Himp.
  assert (Hstep : unit_step c n) by (apply delta_step, Hsub; left).
  pose proof (unit_step_ne _ _ Hstep) as Hcn.
  assert (Hbase' : inv e start (improved goal c n gc (with_open st []))).
  { by apply improved_inv. }
  assert (Hmu' : (mu e start (improved goal c n gc (with_open st []))
                  < mu e start (with_open st []))%nat).
  { by eapply improved_mu. }
  assert (Hdec : ∀ x gx, g_score st !! x = Some gx →
            ∃ gx', g_score (pushed c n gc st) !! x = Some gx' ∧ gx' ≤ gx).
  { intros x gx Hx. simpl. destruct (decide (x = n)) as [->|Hne].
    - rewrite lookup_insert_eq. eexists; split; [done|].
      destruct Himp as [Hn|(g & Hn & ?)]; simplify_eq. lia.
    - rewrite lookup_insert_ne by done. eauto with lia. }
  split.
  - by apply inv_drop_open in Hbase'.
  - simpl. intros it [Hit| ->%list_elem_of_singleton]%elem_of_app.
    + destruct (Hopen it Hit) as [g Hg].
      destruct (Hdec _ _ Hg) as (g' & Hg' & _). simpl in Hg'. eauto.
    + simpl. rewrite lookup_insert_eq. eauto.
  - simpl. by rewrite lookup_insert_ne.
  - intros x gx Hxc. simpl. destruct (decide (x = n)) as [->|Hne].
    + rewrite lookup_insert_eq. intros [= <-]. left.
      exists (gc + 1 + EnvSearch.heuristic n goal). split; [|done].
      unfold heappush. apply elem_of_app. right. left.
    + rewrite lookup_insert_ne by done. intros Hx.
      destruct (Hfront x gx Hxc Hx) as [(f & Hf & ?)|[? Hnb]].
      * left. exists f. split; [|done]. unfold heappush.
        apply elem_of_app. by left.
      * right. split; [done|]. intros m Hm Hv.
        destruct (Hnb m Hm Hv) as (gm & Hgm & ?).
        destruct (Hdec _ _ Hgm) as (gm' & Hgm' & ?). simpl in Hgm'.
        exists gm'. split; [done|lia].
  - simpl. intros f [Hf|[= -> Hn]%list_elem_of_singleton]%elem_of_app.
    + destruct (Hgoal f Hf) as (gg & Hgg & ?).
      destruct (Hdec _ _ Hgg) as (gg' & Hgg' & ?). simpl in Hgg'.
      exists gg'. split; [done|lia].
    + rewrite <- Hn. rewrite lookup_insert_eq. eexists; split; [done|].
      unfold EnvSearch.heuristic. lia.
  - intros d' Hd'. destruct (decide (d' = d)) as [->|Hne].
    + right. intros _. fold n. simpl. rewrite lookup_insert_eq.
      eexists; split; [done|lia].
    + destruct (Hdone d' Hd') as [[?|?]%elem_of_cons|Hold]; [done|by left|].
      right. intros Hv. destruct (Hold Hv) as (gm & Hgm & ?).
      destruct (Hdec _ _ Hgm) as (gm' & Hgm' & ?).
      exists gm'. split; [done|lia].
  - intros d' Hd'. apply Hsub. by right.
  - unfold mu in *. simpl in *. unfold heappush. rewrite length_app. simpl.
    lia.
Qed.

Lemma a_relax_mid (c : pos) gc bound (d : pos) ds st :
  a_mid c gc bound (d :: ds) st →
  ∃ st', EnvSearch.relax e goal c st d = Ok st' ∧ a_mid c gc bound ds st'.
Proof.
  intros Hmid. pose proof Hmid as [Hbase Hopen Hcur Hfront Hgoal Hdone Hsub Hmu].
  destruct (a_relax_cases st c d gc Hcur)
    as [[Hv ->]|[(Hv & (g & Hg & ?) & ->)|(Hv & Himp & ->)]].
  - exists st. split; [done|]. split; try done.
    + intros d' Hd'. destruct (decide (d' = d)) as [->|Hne].
      * right. by rewrite Hv.
      * destruct (Hdone d' Hd') as [[?|?]%elem_of_cons|?];
          [done|by left|by right].
    + intros d' Hd'. apply Hsub. by right.
  - exists st. split; [done|]. split; try done.
    + intros d' Hd'. destruct (decide (d' = d)) as [->|Hne].
      * right. eauto.
      * destruct (Hdone d' Hd') as [[?|?]%elem_of_cons|?];
          [done|by left|by right].
    + intros d' Hd'. apply Hsub. by right.
  - eexists. split; [done|]. by apply pushed_mid.
Qed.

Lemma a_expand st f c rest :
  a_inv st → heappop (open_set st) = Some ((f, c), rest) → c ≠ goal →
  ∃ st', for_each EnvSearch.deltas (λ d s, EnvSearch.relax e goal c s d)
                  (with_open st rest) = Ok st' ∧
         a_inv st' ∧ (mu e start st' < mu e start st)%nat.
Proof.
  intros [Hbase Hopen Hfront Hgoal] Hpop Hne.
  apply heappop_spec in Hpop as [Hperm _].
  assert (Hmem : ∀ it, it ∈ open_set st ↔ it = (f, c) ∨ it ∈ rest).
  { intros it. by rewrite Hperm, elem_of_cons. }
  destruct (Hopen (f, c)) as [gc Hc]; [apply Hmem; by left|]. simpl in Hc.
  assert (Hlen : length (open_set st) = S (length rest)).
  { by rewrite (Permutation_length Hperm). }
  destruct (for_each_Ok (a_mid c gc (mu e start st - 1))
              (λ d s, EnvSearch.relax e goal c s d))
    with (l := EnvSearch.deltas) (s := with_open st rest)
    as (st' & Hrun & Hmid).
  - intros d ds s Hs. by apply a_relax_mid.
  - split; simpl; try done.
    + intros it Hit. apply Hopen, Hmem. by right.
    + intros n gn Hn Hgn.
      destruct (Hfront n gn Hgn) as [(f' & Hf' & ?)|?]; [left|by right].
      exists f'. split; [|done].
      apply Hmem in Hf' as [[= _ ?]|?]; done.
    + intros f' Hf'. apply Hgoal, Hmem. by right.
    + intros d Hd. by left.
    + unfold mu. simpl. lia.
  - exists st'. split; [done|].
    destruct Hmid as [Hb' Ho' Hc' Hf' Hg' Hd' _ Hmu'].
    split; [split; try done|].
    + intros n gn Hgn. destruct (decide (n = c)) as [->|Hnc];
        [|by apply Hf'].
      right. split; [done|]. intros m Hm Hv.
      destruct (step_delta c m Hm) as (d & Hd & ->).
      destruct (Hd' d Hd) as [[]%elem_of_nil|Hdone].
      assert (gn = gc) as -> by congruence. by apply Hdone.
    + unfold mu in *. lia.
Qed.

(** A walk to the goal from a cell with a cost meets the heap: some
    tuple on it has a priority no greater than the cost plus the number
    of moves of the walk. *)
Lemma a_witness st :
  a_inv st → ∀ a l, walk e a goal l →
  ∀ ga, g_score st !! a = Some ga →
  ∃ f n, (f, n) ∈ open_set st ∧ f ≤ ga + (Z.of_nat (length l) - 1).
Proof.
  intros [_ _ Hfront _] a l Hwalk. remember goal as b eqn:Hb.
  induction Hwalk as [a|a b c l Hstep Hvalid Hwalk IH]; intros ga Hga.
  - subst a. destruct (Hfront goal ga Hga) as [(f & Hf & Hle)|[? _]]; [|done].
    rewrite heuristic_refl in Hle. exists f, goal. split; [done|]. simpl. lia.
  - subst c. destruct (Hfront a ga Hga) as [(f & Hf & Hle)|[_ Hnb]].
    + exists f, a. split; [done|].
      pose proof (walk_length e a goal (a :: l)
                    (walk_cons e a b goal l Hstep Hvalid Hwalk)). lia.
    + destruct (Hnb b Hstep Hvalid) as (gb & Hgb & ?).
      destruct (IH eq_refl Hfront gb Hgb) as (f & n & Hf & Hle).
      exists f, n. split; [done|]. simpl length. lia.
Qed.

(** The outcome of [a_star_search]: nothing when there is no walk, and
    otherwise a walk that no other walk beats. *)
Definition shortest_or_none (path : list pos) : Prop :=
  (path = [] ∧ ¬ reachable e start goal) ∨
  (walk e start goal path ∧
   ∀ l, walk e start goal l → (length path ≤ length l)%nat).

Lemma a_star_loop_spec rfuel :
  (length (universe e start) ≤ rfuel)%nat →
  ∀ fuel st, a_inv st → (mu e start st < fuel)%nat →
  ∃ path, EnvSearch.a_star_loop fuel rfuel e goal st = Ok path ∧
          shortest_or_none path.
Proof.
  intros Hrfuel fuel. induction fuel as [|fuel IH]; intros st Hinv Hmu; [lia|].
  pose proof Hinv as [Hbase Hopen Hfront Hgoal].
  pose proof (inv_start_g _ _ _ Hbase) as Hstart. simpl in Hstart.
  cbn [EnvSearch.a_star_loop].
  destruct (heappop (open_set st)) as [[[f c] rest]|] eqn:Hpop.
  - destruct (decide (c = goal)) as [->|Hne].
    + pose proof Hpop as [Hperm Hmin]%heappop_spec.
      assert (Hin : (f, goal) ∈ open_set st) by (rewrite Hperm; left).
      destruct (Hgoal f Hin) as (gt & Hgt & Hle).
      destruct (inv_g _ _ _ Hbase goal gt Hgt) as [Hlt _].
      pose proof (size_g_score_le _ _ _ Hbase) as Hsize.
      change (g_score (with_open st [])) with (g_score st) in Hlt, Hsize.
      destruct (reconstruct_path_spec e start (with_open st []) rfuel goal gt)
        as (path & Hpath & Hwalk & Hlen); [done|done|lia|].
      simpl in Hpath. exists path. split; [done|]. right. split; [done|].
      intros l Hl.
      destruct (a_witness st Hinv start l Hl 0 Hstart) as (f' & n & Hf' & ?).
      specialize (Hmin _ Hf'). simpl in Hmin. lia.
    + destruct (a_expand st f c rest Hinv Hpop Hne) as (st' & -> & Hinv' & ?).
      simpl. apply IH; [done|lia].
  - exists []. split; [done|]. left. split; [done|]. intros [l Hl].
    apply heappop_None in Hpop.
    destruct (a_witness st Hinv start l Hl 0 Hstart) as (f' & n & Hf' & _).
    rewrite Hpop in Hf'. by apply elem_of_nil in Hf'.
Qed.

Lemma a_star_search_spec :
  ∃ path, EnvSearch.a_star_search e start goal = Ok path ∧
          shortest_or_none path.
Proof.
  unfold EnvSearch.a_star_search. apply a_star_loop_spec.
  - apply fuel_bound_universe.
  - split; simpl.
    + apply (inv_drop_open (initial start goal)), inv_initial.
    + intros it ->%list_elem_of_singleton. simpl.
      rewrite lookup_singleton_eq. eauto.
    + intros n gn [<- <-]%lookup_singleton_Some. left. exists 0.
      split; [left|]. pose proof (heuristic_nonneg start goal). lia.
    + intros f [= -> <-]%list_elem_of_singleton. exists 0.
      by rewrite lookup_singleton_eq.
  - apply (mu_initial e start goal).
Qed.

End a_star.

(** X11: [a_star_search] always returns; it returns the empty list when
    no walk leads from [start] to [goal], and otherwise a walk from
    [start] to [goal] that has no more positions than any other. *)
Theorem a_star_search_shortest (e : Environment) (start goal : pos) :
  ∃ path, EnvSearch.a_star_search e start goal = Ok path ∧
    ((path = [] ∧ ¬ reachable e start goal) ∨
     (walk e start goal path ∧
      ∀ l, walk e start goal l → (length path ≤ length l)%nat)).
Proof. apply a_star_search_spec. Qed.

(** X12: [find_path] does not always return a shortest path.  With one
    obstacle at (8,4) on the 12 by 7 grid it goes from (9,1) to (8,6)
    in eight moves, where [a_star_search] needs six. *)
Theorem find_path_not_shortest :
  ∃ e start goal p q,
    find_path e start goal = Ok p ∧
    EnvSearch.a_star_search e start goal = Ok q ∧
    walk e start goal q ∧ (length q < length p)%nat.
Proof.
  exists (Env.set_obstacles grid12 {[ (8, 4) ]}), (9, 1), (8, 6).
  eexists _, _.
  split_and!.
  - vm_compute. reflexivity.
  - vm_compute. reflexivity.
  - walk_tac.
  - simpl. lia.
Qed.

(** ** What each call of a tick changes *)

Lemma replan_fields a a' :
  replan a = Ok a' →
  env a' = env a ∧ position a' = position a ∧ heading a' = heading a ∧
  q_table a' = q_table a ∧ epsilon a' = epsilon a ∧
  total_reward a' = total_reward a ∧ steps a' = steps a ∧
  prev_dest_dist a' = prev_dest_dist a ∧
  _last_replan_step a' = _last_replan_step a.
Proof.
  unfold replan. intros H. bind_ok H. subst a'. by destruct x.
Qed.

Lemma maybe_replan_fields a a' :
  _maybe_replan a = Ok a' →
  env a' = env a ∧ position a' = position a ∧ heading a' = heading a ∧
  q_table a' = q_table a ∧ epsilon a' = epsilon a ∧
  total_reward a' = total_reward a ∧ steps a' = steps a ∧
  prev_dest_dist a' = prev_dest_dist a.
Proof.
  unfold _maybe_replan. intros H.
  destruct (replan_every_n_steps <=? steps a - _last_replan_step a).
  { apply replan_fields in H. simpl in H. by destruct_and!. }
  destruct (planned_path a); [by injection H as <-|].
  destruct (existsb _ _).
  { bind_ok H. subst a'. apply replan_fields in Hx. simpl. by destruct_and!. }
  bind_ok H; [|by subst a'].
  subst a'. apply replan_fields in Hx0. simpl. by destruct_and!.
Qed.

Lemma q_policy_fields state rnd pick a act a' :
  q_policy state rnd pick a = Ok (act, a') →
  a' = set_q_table a (ensure_row state (q_table a)).
Proof. unfold q_policy. intros H. bind_ok H; by simplify_eq. Qed.

Lemma choose_action_fields state rnd pick a act a' :
  choose_action state rnd pick a = Ok (act, a') →
  a' = a ∨ a' = set_q_table a (ensure_row state (q_table a)).
Proof.
  unfold choose_action. intros H.
  destruct (planned_path a) as [|next rest] eqn:Hplan;
    [right; by eapply q_policy_fields|].
  repeat (match type of H with
          | (if ?b then _ else _) = _ => destruct b
          end; [left; by simplify_eq|]).
  right. by eapply q_policy_fields.
Qed.

Lemma execute_action_fields action a moved a' :
  execute_action action a = Ok (moved, a') →
  env a' = env a ∧ q_table a' = q_table a ∧ epsilon a' = epsilon a ∧
  total_reward a' = total_reward a ∧ steps a' = steps a ∧
  prev_dest_dist a' = prev_dest_dist a ∧
  _last_replan_step a' = _last_replan_step a.
Proof.
  unfold execute_action. intros H. bind_ok H. subst a'.
  destruct action; bind_ok Hx; try by subst x.
  subst x. simpl. by destruct (planned_path a) as [|? ?]; [|case_decide].
Qed.

Lemma calculate_reward_fields st act mv a reward done a' :
  calculate_reward st act mv a = Ok (reward, done, a') →
  a' = a ∨ ∃ d, a' = set_prev_dest_dist a (Some d).
Proof.
  unfold calculate_reward. intros H.
  destruct (decide (position a = destination (env a))); [left; by simplify_eq|].
  destruct (decide (position a ∈ obstacles (env a))); [left; by simplify_eq|].
  bind_ok H. simplify_eq. eauto.
Qed.

Lemma update_q_table_fields state action reward next_state a a' :
  update_q_table state action reward next_state a = Ok a' →
  ∃ q, a' = set_q_table a q.
Proof. unfold update_q_table. intros H. bind_ok H. subst a'. eauto. Qed.

(** The calls that make up one tick, with the states in between. *)
Lemma step_unfold rnd pick a done a' :
  step rnd pick a = Ok (done, a') →
  ∃ a1 a2 state action a3 moved a4 reward d a5 next_state,
    (if steps a =? 0 then
       b ← replan a;
       dist ← Py.math_sqrt (sq_dist (position b) (destination (env b)));
       Ok (set_prev_dest_dist b (Some dist))
     else Ok a) = Ok a1 ∧
    _maybe_replan a1 = Ok a2 ∧
    get_state a2 = Ok state ∧
    choose_action state rnd pick a2 = Ok (action, a3) ∧
    execute_action action a3 = Ok (moved, a4) ∧
    calculate_reward state action moved a4 = Ok (reward, d, a5) ∧
    let a6 := set_steps (set_total_reward a5 (total_reward a5 + reward))
                        (steps a5 + 1) in
    get_state a6 = Ok next_state ∧
    update_q_table state action reward next_state a6 = Ok a' ∧
    done = if max_steps <=? steps a' then true else d.
Proof.
  unfold step. intros H.
  apply bind_Ok in H as (a1 & H1 & H).
  apply bind_Ok in H as (a2 & H2 & H).
  apply bind_Ok in H as (state & Hs & H).
  apply bind_Ok in H as ([action a3] & H3 & H).
  apply bind_Ok in H as ([moved a4] & H4 & H).
  apply bind_Ok in H as ([[reward d] a5] & H5 & H).
  simpl in H.
  apply bind_Ok in H as (next_state & Hn & H).
  apply bind_Ok in H as (a7 & H7 & H).
  injection H as <- <-.
  exists a1, a2, state, action, a3, moved, a4, reward, d, a5, next_state.
  by split_and!.
Qed.

(** ** The heading stays one of the four directions *)

Lemma directions_heading hd :
  0 ≤ hd < 4 →
  ∃ dx dy, Py.index directions hd = Ok (dx, dy) ∧ Z.abs dx + Z.abs dy = 1.
Proof.
  intros Hh.
  assert (hd = 0 ∨ hd = 1 ∨ hd = 2 ∨ hd = 3) as [-> | [-> | [-> | ->]]]
    by lia; eexists _, _; (split; [reflexivity|done]).
Qed.

Lemma unit_step_offset p dx dy :
  Z.abs dx + Z.abs dy = 1 →
  unit_step p (p.1 + dx, p.2 + dy) ∧ unit_step p (p.1 - dx, p.2 - dy).
Proof. intros Hd. split; apply unit_step_cases; simpl; lia. Qed.

(** [execute_action] with a heading between 0 and 3 returns; the agent
    then stands where it stood or on a valid cell one move away, and the
    heading is still between 0 and 3. *)
Lemma execute_action_spec action a :
  0 ≤ heading a < 4 →
  ∃ moved a', execute_action action a = Ok (moved, a') ∧
    0 ≤ heading a' < 4 ∧
    moved = bool_decide (position a' ≠ position a) ∧
    (position a' = position a ∨
     (unit_step (position a) (position a') ∧
      is_valid_position (env a) (position a') = true)) ∧
    (heading a' ≠ heading a → position a' = position a).
Proof.
  intros Hh. unfold execute_action.
  destruct (directions_heading (heading a) Hh) as (dx & dy & Hd & Hunit).
  destruct (unit_step_offset (position a) dx dy Hunit) as [Hfwd Hbwd].
  pose proof (Z.mod_pos_bound (heading a + 1) 4).
  pose proof (Z.mod_pos_bound (heading a - 1) 4).
  destruct action; rewrite ?Hd; simpl.
  - destruct (is_valid_position _ _) eqn:Hv; simpl.
    + destruct (planned_path a) as [|p rest]; simpl; [|case_decide];
        eexists _, _; (split; [done|]); simpl;
        (split_and!; [lia..|done|by right|done]).
    + eexists _, _. split; [done|]. split_and!; [lia..|done|by left|done].
  - eexists _, _. split; [done|]. simpl.
    split_and!; [lia..|done|by left|done].
  - eexists _, _. split; [done|]. simpl.
    split_and!; [lia..|done|by left|done].
  - destruct (is_valid_position _ _) eqn:Hv; simpl.
    + eexists _, _. split; [done|]. simpl.
      split_and!; [lia..|done|by right|done].
    + eexists _, _. split; [done|]. split_and!; [lia..|done|by left|done].
Qed.

(** ** Invariants of the reachable states *)

Definition agent_wf (a : Agent) : Prop :=
  0 ≤ heading a < 4 ∧ q_wf (q_table a) ∧ 0 ≤ steps a.

Lemma ensure_row_wf s q : q_wf q → q_wf (ensure_row s q).
Proof.
  intros Hwf s' row. destruct (decide (s = s')) as [<-|Hne].
  - rewrite ensure_row_lookup. intros [= <-]. by apply q_row_length.
  - rewrite ensure_row_other by done. apply Hwf.
Qed.

Lemma update_q_table_wf state action reward next_state a a' :
  q_wf (q_table a) →
  update_q_table state action reward next_state a = Ok a' →
  q_wf (q_table a').
Proof.
  intros Hwf H. unfold update_q_table in H. bind_ok H. subst a'. simpl.
  set (q2 := ensure_row next_state (ensure_row state (q_table a))) in *.
  assert (Hwf2 : q_wf q2) by by do 2 apply ensure_row_wf.
  intros s row. destruct (decide (state = s)) as [<-|Hne].
  - rewrite lookup_insert_eq. intros [= <-]. rewrite length_insert.
    unfold Py.getitem in Hx. destruct (q2 !! state) eqn:Hq; [|done].
    injection Hx as <-. by eapply Hwf2.
  - rewrite lookup_insert_ne by done. apply Hwf2.
Qed.

Lemma step_wf rnd pick a done a' :
  step rnd pick a = Ok (done, a') → agent_wf a → agent_wf a'.
Proof.
  intros H (Hh & Hq & Hs).
  apply step_unfold in H
    as (a1 & a2 & state & action & a3 & moved & a4 & reward & d & a5 &
        next_state & H1 & H2 & _ & H3 & H4 & H5 & _ & H7 & _).
  assert (F1 : heading a1 = heading a ∧ q_table a1 = q_table a ∧
               steps a1 = steps a).
  { destruct (steps a =? 0); [|by simplify_eq].
    bind_ok H1. subst a1. apply replan_fields in Hx. simpl.
    by destruct_and!. }
  apply maybe_replan_fields in H2.
  assert (Hq2 : q_wf (q_table a2)).
  { destruct F1 as (_ & <- & _) in Hq. by destruct H2 as (_ & _ & _ & -> & _). }
  assert (F3 : heading a3 = heading a2 ∧ q_wf (q_table a3) ∧
               steps a3 = steps a2).
  { apply choose_action_fields in H3 as [->| ->]; simpl; [done|].
    split_and!; [done| |done]. by apply ensure_row_wf. }
  destruct (execute_action_spec action a3) as (m & b & Hb & Hhb & _).
  { destruct_and!. lia. }
  rewrite Hb in H4. injection H4 as -> ->.
  apply execute_action_fields in Hb.
  assert (F5 : heading a5 = heading a4 ∧ q_table a5 = q_table a4 ∧
               steps a5 = steps a4).
  { by apply calculate_reward_fields in H5 as [->|[? ->]]. }
  pose proof H7 as H7'. apply update_q_table_fields in H7 as [q ->].
  apply update_q_table_wf in H7'; simpl in *.
  - unfold agent_wf. simpl. destruct_and!. split_and!; [lia|lia|done|lia].
  - destruct F5 as (_ & -> & _). destruct Hb as (_ & -> & _). apply F3.
Qed.

Lemma reachable_wf a : reachable_agent a → agent_wf a.
Proof.
  induction 1 as [e|a _ IH|a rnd pick done a' _ IH Hstep|a e _ IH|a e _ IH].
  - split_and!; simpl; [lia..| |lia]. intros s row. by rewrite lookup_empty.
  - destruct IH as (? & ? & ?). split_and!; simpl; [lia..|done|lia].
  - by eapply step_wf.
  - done.
  - done.
Qed.

(** ** Turning *)

Lemma turn_right a :
  execute_action TurnRight a
  = Ok (false, set_heading a ((heading a + 1) `mod` 4)).
Proof.
  unfold execute_action. simpl. by rewrite bool_decide_eq_false_2 by naive_solver.
Qed.

Lemma turn_left a :
  execute_action TurnLeft a
  = Ok (false, set_heading a ((heading a - 1) `mod` 4)).
Proof.
  unfold execute_action. simpl. by rewrite bool_decide_eq_false_2 by naive_solver.
Qed.

(** A left turn undoes a right turn and a right turn a left turn, and
    four turns to the same side bring the agent back. *)
Lemma turns_cancel a :
  0 ≤ heading a < 4 →
  ('(_, b) ← execute_action TurnRight a; execute_action TurnLeft b)
  = Ok (false, a) ∧
  ('(_, b) ← execute_action TurnLeft a; execute_action TurnRight b)
  = Ok (false, a) ∧
  ('(_, b) ← execute_action TurnRight a;
   '(_, b) ← execute_action TurnRight b;
   '(_, b) ← execute_action TurnRight b; execute_action TurnRight b)
  = Ok (false, a).
Proof.
  intros Hh.
  repeat (first [rewrite turn_right | rewrite turn_left]; simpl).
  destruct a as [e p h q eps pl tr st pd lr]. simpl in *.
  assert (h = 0 ∨ h = 1 ∨ h = 2 ∨ h = 3) as [-> | [-> | [-> | ->]]] by lia;
    by split_and!.
Qed.

(** ** The reward of a tick *)

Lemma calculate_reward_values st act mv a reward done a' :
  calculate_reward st act mv a = Ok (reward, done, a') →
  (reward = 99 ∧ done = true ∧ position a = destination (env a)) ∨
  (reward = -101 ∧ done = true ∧ position a ≠ destination (env a) ∧
   position a ∈ obstacles (env a)) ∨
  (done = false ∧ position a ≠ destination (env a) ∧
   (position a ∉ obstacles (env a)) ∧
   ((is_road (env a) (position a) = true ∧ (reward = -1 ∨ reward = 1)) ∨
    (is_road (env a) (position a) = false ∧ (reward = -11 ∨ reward = -9)))).
Proof.
  unfold calculate_reward. intros H.
  destruct (decide (position a = destination (env a))).
  { injection H as <- <- <-. by left. }
  destruct (decide (position a ∈ obstacles (env a))).
  { injection H as <- <- <-. right. by left. }
  apply bind_Ok in H as (dist & _ & H). injection H as <- <- <-.
  do 2 right. split_and!; [done..|].
  destruct (is_road _ _); simpl; [left|right]; (split; [done|]);
    destruct (prev_dest_dist a) as [prev|]; [destruct (PrimFloat.ltb _ _)| |
      destruct (PrimFloat.ltb _ _)|]; auto.
Qed.

(** One tick changes the total reward by 99 on the destination, by -101
    on an obstacle, and otherwise by -1 or 1 on the road and by -11 or -9
    off it; the two terminal rewards end the episode. *)
Lemma step_reward rnd pick a done a' :
  step rnd pick a = Ok (done, a') →
  let r := total_reward a' - total_reward a in
  (r = 99 ∧ done = true ∧ position a' = destination (env a')) ∨
  (r = -101 ∧ done = true ∧ position a' ≠ destination (env a') ∧
   position a' ∈ obstacles (env a')) ∨
  (position a' ≠ destination (env a') ∧ (position a' ∉ obstacles (env a')) ∧
   ((is_road (env a') (position a') = true ∧ (r = -1 ∨ r = 1)) ∨
    (is_road (env a') (position a') = false ∧ (r = -11 ∨ r = -9)))).
Proof.
  intros H.
  apply step_unfold in H
    as (a1 & a2 & state & action & a3 & moved & a4 & reward & d & a5 &
        next_state & H1 & H2 & _ & H3 & H4 & H5 & _ & H7 & Hdone).
  assert (F1 : total_reward a1 = total_reward a).
  { destruct (steps a =? 0); [|by simplify_eq].
    bind_ok H1. subst a1. apply replan_fields in Hx. simpl.
    by destruct_and!. }
  apply maybe_replan_fields in H2.
  assert (F3 : total_reward a3 = total_reward a2).
  { by apply choose_action_fields in H3 as [->| ->]. }
  apply execute_action_fields in H4.
  assert (F5 : total_reward a5 = total_reward a4 ∧ env a5 = env a4 ∧
               position a5 = position a4).
  { by apply calculate_reward_fields in H5 as [->|[? ->]]. }
  apply calculate_reward_values in H5.
  apply update_q_table_fields in H7 as [q ->]. simpl in *.
  assert (Hr : total_reward a5 + reward - total_reward a = reward)
    by (destruct_and!; lia).
  rewrite Hr. destruct F5 as (_ & -> & ->).
  destruct H5 as [(-> & -> & ?)|[(-> & -> & ? & ?)|(-> & ? & ? & ?)]].
  - left. split_and!; [done| |done]. subst done. by destruct (_ <=? _).
  - right. left. split_and!; [done| |done..]. subst done. by destruct (_ <=? _).
  - do 2 right. done.
Qed.

(** ** The table of learned values *)



(** The learned policy explores with the drawn action when the draw is
    below the exploration rate, and on a state it has not seen it
    exploits with Forward, the first of four equal values. *)
Lemma q_policy_cases state rnd pick a :
  let a1 := set_q_table a (ensure_row state (q_table a)) in
  (PrimFloat.ltb rnd (epsilon a) = true →
   q_policy state rnd pick a = Ok (pick, a1)) ∧
  (PrimFloat.ltb rnd (epsilon a) = false → q_table a !! state = None →
   q_policy state rnd pick a = Ok (Forward, a1)).
Proof.
  unfold q_policy. simpl. split.
  - by intros ->.
  - intros -> Hnone. unfold Py.getitem.
    rewrite ensure_row_lookup. unfold q_row. rewrite Hnone. reflexivity.
Qed.

(** ** Following the plan in a reachable state *)

Lemma reachable_choose_action a state rnd pick next_pos rest :
  reachable_agent a → planned_path a = next_pos :: rest →
  unit_step (position a) next_pos ∧
  choose_action state rnd pick a = Ok (plan_action a next_pos, a) ∧
  (plan_action a next_pos = Forward ∨ plan_action a next_pos = TurnRight).
Proof.
  intros Hr Hplan.
  pose proof (reachable_plan_chained a Hr) as Hc.
  assert (Hstep : unit_step (position a) next_pos).
  { unfold plan_chained in Hc. rewrite Hplan in Hc. by apply (Hc 0%nat). }
  destruct (choose_action_plan a state rnd pick next_pos rest Hplan Hstep)
    as [Hrun Hact].
  split_and!; [done..|].
  apply elem_of_cons in Hact as [?|Hact]; [by left|].
  apply list_elem_of_singleton in Hact. by right.
Qed.

(** ** Floating-point facts *)

(** Zero, a positive finite number or plus infinity. *)
Definition sf_nonneg (x : spec_float) : Prop :=
  match x with
  | S754_zero _ | S754_infinity false | S754_finite false _ _ => True
  | _ => False
  end.

(** What a square root can be: not a number, or not negative. *)
Definition sf_root (x : spec_float) : Prop := x = S754_nan ∨ sf_nonneg x.

Lemma binary_round_aux_sign mx ex lx :
  sf_root (binary_round_aux prec emax false mx ex lx).
Proof.
  unfold binary_round_aux.
  destruct (shr_fexp _ _ mx ex lx) as [mrs' e'].
  destruct (shr_fexp _ _ _ e' loc_Exact) as [mrs'' e''].
  destruct (shr_m mrs''); [by right| |by left].
  destruct (_ <=? _)%Z; by right.
Qed.

Lemma sqrt_root f : sf_root (Prim2SF (PrimFloat.sqrt f)).
Proof.
  rewrite sqrt_spec. unfold SF64sqrt, SFsqrt.
  destruct (Prim2SF f) as [s|[|]| |[|] m e]; try (by left); try (by right).
  destruct (SFsqrt_core_binary _ _ _ _) as [[mz ez] lz].
  apply binary_round_aux_sign.
Qed.

Lemma math_sqrt_root n f : Py.math_sqrt n = Ok f → sf_root (Prim2SF f).
Proof.
  unfold Py.math_sqrt. destruct (n <? 0); [done|].
  intros H. apply bind_Ok in H as (x & _ & [= <-]). apply sqrt_root.
Qed.

Lemma int_of_float_nonneg f z :
  sf_root (Prim2SF f) → Py.int_of_float f = Ok z → 0 ≤ z.
Proof.
  unfold Py.int_of_float. intros [Hnan|Hpos].
  - by rewrite Hnan.
  - destruct (Prim2SF f) as [s|[|]| |[|] m e]; try done.
    + intros [= <-]. done.
    + intros [= <-]. destruct (Z.leb_spec 0 e).
      * apply Z.mul_nonneg_nonneg; [lia|]. apply Z.pow_nonneg. lia.
      * apply Z.div_pos; [lia|]. apply Z.pow_pos_nonneg; lia.
Qed.

Lemma digits2_pos_bound m : Z.pos m < 2 ^ Z.pos (digits2_pos m).
Proof.
  induction m as [m IH|m IH|]; simpl; [| |done];
    rewrite Pos2Z.inj_succ, Z.pow_succ_r by lia; lia.
Qed.

Lemma valid_mantissa s m e :
  valid_binary (S754_finite s m e) = true → Z.pos m < 2 ^ 53.
Proof.
  unfold valid_binary. simpl. unfold bounded, canonical_mantissa, fexp.
  intros [Hc%Z.eqb_eq _]%andb_prop.
  pose proof (digits2_pos_bound m) as Hm.
  assert (Z.pos (digits2_pos m) ≤ 53) by (unfold prec in Hc; lia).
  eapply Z.lt_le_trans; [done|]. apply Z.pow_le_mono_r; lia.
Qed.

(** A float that is not above the float [c] truncates to an integer that
    is not above the truncation of [c]. *)
Lemma int_of_float_below (c : float) mc ec f z :
  Prim2SF c = S754_finite false mc ec → ec < 0 → 2 ^ 52 ≤ Z.pos mc →
  sf_root (Prim2SF f) → PrimFloat.ltb c f = false →
  Py.int_of_float f = Ok z → z ≤ Z.pos mc / 2 ^ (- ec).
Proof.
  intros Hc Hec Hmc Hroot Hlt Hint.
  pose proof (Prim2SF_valid f) as Hvalid.
  rewrite ltb_spec, Hc in Hlt. unfold Py.int_of_float in Hint.
  assert (Hk : 0 ≤ Z.pos mc / 2 ^ (- ec)).
  { apply Z.div_pos; [lia|]. apply Z.pow_pos_nonneg; lia. }
  destruct Hroot as [Hnan|Hpos]; [by rewrite Hnan in Hint|].
  destruct (Prim2SF f) as [s|[|]| |[|] m e]; try done.
  { by injection Hint as <-. }
  apply valid_mantissa in Hvalid.
  unfold SFltb, SFcompare in Hlt.
  destruct (Z.compare_spec ec e) as [<-|Hlt'|Hgt]; [|done|].
  - rewrite Pos.compare_cont_spec in Hlt. simpl in Hlt.
    destruct (Pos.compare_spec mc m) as [<-|?|?]; [|done|].
    + destruct (Z.leb_spec 0 ec); [lia|]. by injection Hint as <-.
    + destruct (Z.leb_spec 0 ec); [lia|]. injection Hint as <-.
      apply Z.div_le_mono; [apply Z.pow_pos_nonneg; lia|lia].
  - destruct (Z.leb_spec 0 e); [lia|]. injection Hint as <-.
    assert (Hpow : 2 ^ (- e) = 2 ^ (- ec) * 2 ^ (ec - e)).
    { rewrite <- Z.pow_add_r by lia. f_equal. lia. }
    assert (Hp1 : 0 < 2 ^ (- ec)) by (apply Z.pow_pos_nonneg; lia).
    assert (Hp2 : 2 ≤ 2 ^ (ec - e)).
    { change 2 with (2 ^ 1) at 1. apply Z.pow_le_mono_r; lia. }
    etrans; [apply (Z.div_le_compat_l _ (2 * 2 ^ (- ec))); nia|].
    etrans; [apply (Z.div_le_mono _ (2 * Z.pos mc)); nia|].
    rewrite Z.div_mul_cancel_l by lia. done.
Qed.

(** The order of floats is transitive. *)
Lemma SFltb_trans x y z :
  SFltb x y = true → SFltb y z = true → SFltb x z = true.
Proof.
  unfold SFltb, SFcompare.
  destruct x as [sx|[|]| |[|] mx ex], y as [sy|[|]| |[|] my ey],
    z as [sz|[|]| |[|] mz ez]; simpl; try done;
    repeat match goal with
           | |- context [(?a ?= ?b)%Z] => destruct (Z.compare_spec a b)
           end; try done; try lia; subst;
    rewrite ?Pos.compare_cont_spec; simpl;
    repeat match goal with
           | |- context [(?a ?= ?b)%positive] =>
               destruct (Pos.compare_spec a b)
           end; simpl; try done; try lia.
Qed.

Lemma ltb_trans x y z :
  PrimFloat.ltb x y = true → PrimFloat.ltb y z = true →
  PrimFloat.ltb x z = true.
Proof. rewrite !ltb_spec. apply SFltb_trans. Qed.

(** ** Minima *)

Lemma foldl_min2_elem x l : foldl Py.min2 x l ∈ x :: l.
Proof.
  revert x. induction l as [|y l IH]; intros x; simpl; [left|].
  specialize (IH (Py.min2 x y)). apply elem_of_cons in IH as [->|?].
  - unfold Py.min2. destruct (PrimFloat.ltb y x); [right|]; left.
  - by do 2 right.
Qed.

Lemma min_list_elem l m : Py.min_list l = Ok m → m ∈ l.
Proof.
  destruct l as [|x l]; [done|]. simpl. intros [= <-].
  apply foldl_min2_elem.
Qed.

Lemma foldl_min2_below c x l :
  PrimFloat.ltb c x = false →
  PrimFloat.ltb c (foldl Py.min2 x l) = false.
Proof.
  revert x. induction l as [|y l IH]; intros x Hx; simpl; [done|].
  apply IH. unfold Py.min2. destruct (PrimFloat.ltb y x) eqn:Hyx; [|done].
  destruct (PrimFloat.ltb c y) eqn:Hcy; [|done].
  by rewrite (ltb_trans c y x Hcy Hyx) in Hx.
Qed.

Lemma mapM_elem {A B} (f : A → result B) l bs b :
  Py.mapM f l = Ok bs → b ∈ bs → ∃ a, a ∈ l ∧ f a = Ok b.
Proof.
  revert bs. induction l as [|a l IH]; intros bs H Hb; simpl in H.
  - injection H as <-. by apply elem_of_nil in Hb.
  - apply (bind_Ok (f a)) in H as (b0 & Hb0 & H).
    apply (bind_Ok (Py.mapM f l)) in H as (bs0 & Hbs0 & [= <-]).
    apply elem_of_cons in Hb as [->|Hb].
    + exists a. split; [left|done].
    + destruct (IH bs0 Hbs0 Hb) as (a' & ? & ?). exists a'. split; [by right|done].
Qed.

(** ** Obstacles within a radius *)

Lemma get_obstacles_in_radius_spec env p radius l :
  get_obstacles_in_radius env p radius = Ok l →
  ∀ x y d, (x, y, d) ∈ l ↔
    (x, y) ∈ obstacles env ∧ Py.math_sqrt (sq_dist p (x, y)) = Ok d ∧
    PrimFloat.leb d radius = true.
Proof.
  unfold get_obstacles_in_radius. intros Hrun x y d.
  rewrite <- (elem_of_elements (obstacles env)).
  assert (Hgen : ∀ os acc l',
    for_each os (λ o nearby,
      dist ← Py.math_sqrt (sq_dist p o);
      Ok (if PrimFloat.leb dist radius then nearby ++ [(o.1, o.2, dist)]
          else nearby)) acc = Ok l' →
    (x, y, d) ∈ l' ↔
    (x, y, d) ∈ acc ∨
    ((x, y) ∈ os ∧ Py.math_sqrt (sq_dist p (x, y)) = Ok d ∧
     PrimFloat.leb d radius = true)).
  { induction os as [|o os IH]; intros acc l' H; simpl in H.
    - injection H as <-. rewrite elem_of_nil. tauto.
    - apply bind_Ok in H as (acc' & Hacc' & H).
      apply bind_Ok in Hacc' as (dist & Hdist & [= <-]).
      rewrite (IH _ _ H), elem_of_cons. destruct o as [ox oy]. simpl.
      destruct (PrimFloat.leb dist radius) eqn:Hleb.
      + rewrite elem_of_app, list_elem_of_singleton. split.
        * intros [[?|[= -> -> ->]]|(? & ? & ?)];
            [by left|right|right]; (split_and!; [by (left + right)|done..]).
        * intros [?|[[[= -> ->]|?] [Hd ?]]]; [by do 2 left| |by right].
          rewrite Hdist in Hd. injection Hd as <-. by left; right.
      + split.
        * intros [?|(? & ? & ?)]; [by left|right].
          split_and!; [by right|done..].
        * intros [?|[[[= -> ->]|?] [Hd Hle]]]; [by left| |by right].
          rewrite Hdist in Hd. injection Hd as <-. congruence. }
  rewrite (Hgen _ _ _ Hrun), elem_of_nil. tauto.
Qed.

(** ** The state key is bounded *)

Lemma prim_3 : Prim2SF 3 = S754_finite false 6755399441055744 (-51).
Proof. reflexivity. Qed.


Lemma int_of_float_below_3 f z :
  sf_root (Prim2SF f) → PrimFloat.ltb 3 f = false →
  Py.int_of_float f = Ok z → z ≤ 3.
Proof.
  intros. by apply (int_of_float_below 3 _ _ f z prim_3).
Qed.


Lemma min_path_dist_root a m :
  min_path_dist a = Ok m → sf_root (Prim2SF m).
Proof.
  unfold min_path_dist. intros H. apply bind_Ok in H as (ds & Hds & Hmin).
  apply min_list_elem in Hmin.
  destruct (mapM_elem _ _ _ _ Hds Hmin) as (q & _ & Hq).
  by eapply math_sqrt_root.
Qed.

(** The key that [get_state] builds: the truncated distance to the
    destination, at most 20; the truncated distance to the nearest
    obstacle within five cells, at most 5; the heading; and the truncated
    distance to the plan, at most 3 and 0 without a plan. *)
Lemma get_state_range a d o h p :
  get_state a = Ok (d, o, h, p) →
  0 ≤ d ≤ 20 ∧ 0 ≤ o ≤ 5 ∧ h = heading a ∧ 0 ≤ p ≤ 3 ∧
  (planned_path a = [] → p = 0).
Proof.
  unfold get_state. intros H.
  apply bind_Ok in H as (dest_dist & Hdd & H).
  apply bind_Ok in H as (obs & Hobs & H).
  apply bind_Ok in H as (mo & Hmo & H).
  apply bind_Ok in H as (pd & Hpd & H).
  apply bind_Ok in H as (d0 & Hd0 & H).
  apply bind_Ok in H as (o0 & Ho0 & H).
  apply bind_Ok in H as (p0 & Hp0 & H).
  injection H as <- <- <- <-.
  assert (0 ≤ d0).
  { eapply int_of_float_nonneg; [|done]. by eapply math_sqrt_root. }
  assert (0 ≤ o0).
  { destruct obs as [|t obs].
    - injection Hmo as <-. simpl in Ho0. injection Ho0 as <-. lia.
    - apply bind_Ok in Hmo as (m & Hm & [= <-]). simpl in Ho0.
      eapply int_of_float_nonneg; [|done].
      apply min_list_elem in Hm.
      apply list_elem_of_fmap in Hm as ([[x y] dist] & -> & Ht).
      apply (get_obstacles_in_radius_spec _ _ _ _ Hobs) in Ht
        as (_ & Hsqrt & _).
      by eapply math_sqrt_root. }
  assert (0 ≤ p0 ≤ 3 ∧ (planned_path a = [] → p0 = 0)) as [? ?].
  { destruct (planned_path a) as [|q rest] eqn:Hplan.
    - injection Hpd as <-. simpl in Hp0. injection Hp0 as <-. split; [lia|done].
    - apply bind_Ok in Hpd as (m & Hm & Hpd).
      split; [|done].
      destruct (PrimFloat.ltb 3 m) eqn:Hlt; injection Hpd as <-;
        simpl in Hp0.
      + injection Hp0 as <-. lia.
      + apply min_path_dist_root in Hm. split.
        * by eapply int_of_float_nonneg.
        * by apply (int_of_float_below_3 m). }
  split_and!; [lia..|done|lia|lia|done].
Qed.

(** ** The plan never drifts away from the agent *)

Lemma math_sqrt_1 : Py.math_sqrt 1 = Ok 1%float.
Proof. vm_compute. reflexivity. Qed.

Lemma unit_step_sq_dist p q : unit_step p q → sq_dist p q = 1.
Proof.
  rewrite unit_step_cases. unfold sq_dist.
  intros [[-> ->]|[[-> ->]|[[-> ->]|[-> ->]]]]; ring_simplify; lia.
Qed.

(** With the head of the plan one move away, the least distance to the
    plan is at most one. *)
Lemma min_path_dist_chained a m :
  plan_chained a → planned_path a ≠ [] → min_path_dist a = Ok m →
  PrimFloat.ltb 1 m = false.
Proof.
  intros Hc Hne. unfold min_path_dist.
  destruct (planned_path a) as [|q rest] eqn:Hplan; [done|].
  assert (Hstep : unit_step (position a) q).
  { unfold plan_chained in Hc. rewrite Hplan in Hc. by apply (Hc 0%nat). }
  simpl. rewrite (unit_step_sq_dist _ _ Hstep), math_sqrt_1. simpl.
  intros H. apply bind_Ok in H as (ds & Hds & Hmin).
  apply (bind_Ok (Py.mapM _ rest)) in Hds as (ds' & _ & [= <-]).
  simpl in Hmin. injection Hmin as <-.
  by apply foldl_min2_below.
Qed.

Lemma ltb_1_2 (m : float) :
  PrimFloat.ltb 1 m = false →
  PrimFloat.ltb replan_on_deviation_threshold m = false.
Proof.
  intros H1.
  destruct (PrimFloat.ltb replan_on_deviation_threshold m) eqn:H2; [|done].
  rewrite (ltb_trans 1 replan_on_deviation_threshold m) in H1;
    [done|reflexivity|done].
Qed.

(** In a state where the plan begins next to the agent, so in every
    reachable state, [_maybe_replan] acts only on its period or when an
    obstacle lies on the plan: the test on the distance to the plan
    never fires. *)
Lemma maybe_replan_quiet a a' :
  plan_chained a →
  steps a - _last_replan_step a < replan_every_n_steps →
  Forall (λ p, p ∉ obstacles (env a)) (planned_path a) →
  _maybe_replan a = Ok a' → a' = a.
Proof.
  intros Hc Hperiod Hfree. unfold _maybe_replan.
  destruct (Z.leb_spec replan_every_n_steps (steps a - _last_replan_step a));
    [lia|].
  destruct (planned_path a) as [|q rest] eqn:Hplan; [by intros [= <-]|].
  rewrite <- Hplan in *.
  assert (Hscan : existsb (λ p, bool_decide (p ∈ obstacles (env a)))
                          (planned_path a) = false).
  { apply not_true_iff_false. intros (p & Hp & Hobs)%existsb_exists.
    apply bool_decide_eq_true in Hobs. rewrite Forall_forall in Hfree.
    by apply (Hfree p); [apply list_elem_of_In|]. }
  rewrite Hscan. intros Hrun. apply bind_Ok in Hrun as (m & Hm & Hrun).
  apply min_path_dist_chained in Hm; [|done|by rewrite Hplan].
  rewrite (ltb_1_2 m Hm) in Hrun. by injection Hrun as <-.
Qed.


(** ** Properties of the agent *)

(** The first tick of an agent on the open grid: it plans and moves one
    cell along the plan. *)
Lemma first_step : step 0 Forward (init grid12) = Ok (false, planned_agent).
Proof. vm_compute. reflexivity. Qed.

Lemma planned_agent_reachable : reachable_agent planned_agent.
Proof. eapply reach_step; [apply reach_init|apply first_step]. Qed.

(** X13: in every state an agent reaches, the heading is one of 0, 1,
    2, 3, every row of the table of learned values has one entry per
    action, and the step counter is not negative; so neither
    [directions[heading]] nor [q_table[state][action]] can be out of
    range. *)
Theorem reachable_heading_rows (a : Agent) :
  reachable_agent a →
  0 ≤ heading a < 4 ∧
  (∀ s row, q_table a !! s = Some row → length row = 4%nat) ∧
  0 ≤ steps a.
Proof. apply reachable_wf. Qed.

Lemma reachable_heading_rows_witness :
  0 ≤ heading planned_agent < 4 ∧
  (∀ s row, q_table planned_agent !! s = Some row → length row = 4%nat) ∧
  0 ≤ steps planned_agent.
Proof.
  apply (reachable_heading_rows planned_agent).
  apply planned_agent_reachable.
Defined.

(** X14: with a heading between 0 and 3, [execute_action]
    returns for every action; afterwards the agent stands where it
    stood or on a valid position one move away, the flag it returns
    tells which, a turn does not move it, and the heading is still
    between 0 and 3. *)
Theorem execute_action_moves (action : Action) (a : Agent) :
  0 ≤ heading a < 4 →
  ∃ moved a', execute_action action a = Ok (moved, a') ∧
    0 ≤ heading a' < 4 ∧
    moved = bool_decide (position a' ≠ position a) ∧
    (position a' = position a ∨
     (unit_step (position a) (position a') ∧
      is_valid_position (env a) (position a') = true)) ∧
    (heading a' ≠ heading a → position a' = position a).
Proof. apply execute_action_spec. Qed.

Lemma execute_action_moves_witness :
  ∃ moved a', execute_action Forward (init grid12) = Ok (moved, a') ∧
    0 ≤ heading a' < 4 ∧
    moved = bool_decide (position a' ≠ position (init grid12)) ∧
    (position a' = position (init grid12) ∨
     (unit_step (position (init grid12)) (position a') ∧
      is_valid_position (env (init grid12)) (position a') = true)) ∧
    (heading a' ≠ heading (init grid12) → position a' = position (init grid12)).
Proof. apply (execute_action_moves Forward (init grid12)). simpl. lia. Defined.

(** X15: a left turn undoes a right turn, a right turn undoes a
    left turn, and four right turns bring the agent back to the state it
    was in; none of them counts as a move. *)
Theorem turns_undo (a : Agent) :
  0 ≤ heading a < 4 →
  ('(_, b) ← execute_action TurnRight a; execute_action TurnLeft b)
  = Ok (false, a) ∧
  ('(_, b) ← execute_action TurnLeft a; execute_action TurnRight b)
  = Ok (false, a) ∧
  ('(_, b) ← execute_action TurnRight a;
   '(_, b) ← execute_action TurnRight b;
   '(_, b) ← execute_action TurnRight b; execute_action TurnRight b)
  = Ok (false, a).
Proof. apply turns_cancel. Qed.

Lemma turns_undo_witness :
  ('(_, b) ← execute_action TurnRight (init grid12);
   execute_action TurnLeft b) = Ok (false, init grid12) ∧
  ('(_, b) ← execute_action TurnLeft (init grid12);
   execute_action TurnRight b) = Ok (false, init grid12) ∧
  ('(_, b) ← execute_action TurnRight (init grid12);
   '(_, b) ← execute_action TurnRight b;
   '(_, b) ← execute_action TurnRight b; execute_action TurnRight b)
  = Ok (false, init grid12).
Proof. apply (turns_undo (init grid12)). simpl. lia. Defined.

(** X16: one tick changes the total reward by 99 when it ends on
    the destination and by -101 when it ends on an obstacle, and both
    end the episode; otherwise by -1 or 1 on a road cell and by -11 or
    -9 off the road. *)
Theorem step_reward_values (rnd : float) (pick : Action) (a : Agent)
    (done : bool) (a' : Agent) :
  step rnd pick a = Ok (done, a') →
  let r := total_reward a' - total_reward a in
  (r = 99 ∧ done = true ∧ position a' = destination (env a')) ∨
  (r = -101 ∧ done = true ∧ position a' ≠ destination (env a') ∧
   position a' ∈ obstacles (env a')) ∨
  (position a' ≠ destination (env a') ∧ (position a' ∉ obstacles (env a')) ∧
   ((is_road (env a') (position a') = true ∧ (r = -1 ∨ r = 1)) ∨
    (is_road (env a') (position a') = false ∧ (r = -11 ∨ r = -9)))).
Proof. apply step_reward. Qed.

Lemma step_reward_values_witness :
  let r := total_reward planned_agent - total_reward (init grid12) in
  (r = 99 ∧ false = true ∧
   position planned_agent = destination (env planned_agent)) ∨
  (r = -101 ∧ false = true ∧
   position planned_agent ≠ destination (env planned_agent) ∧
   position planned_agent ∈ obstacles (env planned_agent)) ∨
  (position planned_agent ≠ destination (env planned_agent) ∧
   (position planned_agent ∉ obstacles (env planned_agent)) ∧
   ((is_road (env planned_agent) (position planned_agent) = true ∧
     (r = -1 ∨ r = 1)) ∨
    (is_road (env planned_agent) (position planned_agent) = false ∧
     (r = -11 ∨ r = -9)))).
Proof.
  apply (step_reward_values 0 Forward (init grid12) false planned_agent).
  vm_compute. reflexivity.
Defined.

(** X17: a tick leaves the environment and the exploration
    rate alone, advances the step counter by one, and reports the end of
    the episode exactly when the agent then stands on the destination or
    on an obstacle, or the counter has reached 500. *)
Theorem step_terminal (rnd : float) (pick : Action) (a : Agent)
    (done : bool) (a' : Agent) :
  step rnd pick a = Ok (done, a') →
  env a' = env a ∧ epsilon a' = epsilon a ∧ steps a' = steps a + 1 ∧
  done = bool_decide (position a' = destination (env a') ∨
                      position a' ∈ obstacles (env a')) ||
         (500 <=? steps a').
Proof. apply step_done. Qed.

Lemma step_terminal_witness :
  env planned_agent = env (init grid12) ∧
  epsilon planned_agent = epsilon (init grid12) ∧
  steps planned_agent = steps (init grid12) + 1 ∧
  false = bool_decide (position planned_agent = destination (env planned_agent) ∨
                       position planned_agent ∈ obstacles (env planned_agent)) ||
          (500 <=? steps planned_agent).
Proof.
  apply (step_terminal 0 Forward (init grid12) false planned_agent).
  vm_compute. reflexivity.
Defined.



(** X19: when the draw is not below the exploration rate and the
    state has no row yet, the learned policy makes the row, all zeros,
    and chooses Forward, the first of four equal values. *)
Theorem q_policy_unseen (state : StateKey) (rnd : float) (pick : Action)
    (a : Agent) :
  q_table a !! state = None → PrimFloat.ltb rnd (epsilon a) = false →
  q_policy state rnd pick a
  = Ok (Forward, set_q_table a (<[state := [0; 0; 0; 0]%float]> (q_table a))).
Proof.
  intros Hnone Hrnd.
  destruct (q_policy_cases state rnd pick a) as [_ Hrun].
  rewrite (Hrun Hrnd Hnone). unfold ensure_row. by rewrite Hnone.
Qed.

Lemma q_policy_unseen_witness :
  q_policy (7, 5, 0, 0) 0.5 Backward (init grid12)
  = Ok (Forward,
        set_q_table (init grid12)
          (<[(7, 5, 0, 0) := [0; 0; 0; 0]%float]> (q_table (init grid12)))).
Proof.
  apply (q_policy_unseen (7, 5, 0, 0) 0.5 Backward (init grid12));
    reflexivity.
Defined.

(** X20: in every state an agent reaches, its position followed by
    its plan is a chain of unit moves: the plan begins next to the agent
    and has no gap. *)
Theorem reachable_plan_chain (a : Agent) :
  reachable_agent a →
  ∀ i p q, (position a :: planned_path a) !! i = Some p →
           (position a :: planned_path a) !! S i = Some q → unit_step p q.
Proof. apply reachable_plan_chained. Qed.

Lemma reachable_plan_chain_witness :
  reachable_agent planned_agent ∧
  unit_step (position planned_agent) (4, 3) ∧ unit_step (4, 3) (5, 3).
Proof.
  split; [apply planned_agent_reachable|]. split.
  - apply (reachable_plan_chain planned_agent planned_agent_reachable 0%nat);
      vm_compute; reflexivity.
  - apply (reachable_plan_chain planned_agent planned_agent_reachable 1%nat);
      vm_compute; reflexivity.
Defined.

(** X21: in every state an agent reaches, while it holds a plan
    [choose_action] follows it: the head of the plan is one move away,
    the action is Forward when the heading points to it and TurnRight
    otherwise, and neither the random draws nor the table are used. *)
Theorem reachable_follows_plan (a : Agent) (state : StateKey) (rnd : float)
    (pick : Action) (next_pos : pos) (rest : list pos) :
  reachable_agent a → planned_path a = next_pos :: rest →
  unit_step (position a) next_pos ∧
  choose_action state rnd pick a = Ok (plan_action a next_pos, a) ∧
  (plan_action a next_pos = Forward ∨ plan_action a next_pos = TurnRight).
Proof. apply reachable_choose_action. Qed.

Lemma reachable_follows_plan_witness :
  unit_step (position planned_agent) (4, 3) ∧
  choose_action (6, 5, 0, 1) 0 Backward planned_agent
  = Ok (plan_action planned_agent (4, 3), planned_agent) ∧
  (plan_action planned_agent (4, 3) = Forward ∨
   plan_action planned_agent (4, 3) = TurnRight).
Proof.
  apply (reachable_follows_plan planned_agent (6, 5, 0, 1) 0 Backward (4, 3)
           [(5, 3); (6, 3); (7, 3); (8, 3); (9, 3)]).
  - apply planned_agent_reachable.
  - vm_compute. reflexivity.
Defined.

(** X22: in every state an agent reaches, [_maybe_replan] changes
    something only on its period of 30 steps or when an obstacle lies on
    the plan: the head of the plan is one cell away, so the test of the
    distance to the plan against 2.0 never fires. *)
Theorem maybe_replan_only_on_period_or_obstacle (a a' : Agent) :
  reachable_agent a →
  steps a - _last_replan_step a < 30 →
  Forall (λ p, p ∉ obstacles (env a)) (planned_path a) →
  _maybe_replan a = Ok a' → a' = a.
Proof.
  intros Hr. apply maybe_replan_quiet. by apply reachable_plan_chained.
Qed.

Lemma maybe_replan_only_on_period_or_obstacle_witness :
  _maybe_replan planned_agent = Ok planned_agent ∧
  planned_agent = planned_agent.
Proof.
  assert (Hrun : _maybe_replan planned_agent = Ok planned_agent)
    by (vm_compute; reflexivity).
  split; [exact Hrun|].
  apply (maybe_replan_only_on_period_or_obstacle planned_agent planned_agent).
  - apply planned_agent_reachable.
  - vm_compute. reflexivity.
  - apply Forall_forall. intros p _. vm_compute. set_solver.
  - exact Hrun.
Defined.

(** X23: whenever [get_state] returns, the key has the truncated
    distance to the destination, between 0 and 20; the truncated
    distance to the nearest obstacle within five cells, between 0 and 5;
    the heading; and the truncated distance to the plan, between 0 and
    3, and 0 without a plan. *)
Theorem get_state_bounds (a : Agent) (d o h p : Z) :
  get_state a = Ok (d, o, h, p) →
  0 ≤ d ≤ 20 ∧ 0 ≤ o ≤ 5 ∧ h = heading a ∧ 0 ≤ p ≤ 3 ∧
  (planned_path a = [] → p = 0).
Proof. apply get_state_range. Qed.

Lemma get_state_bounds_witness :
  0 ≤ 6 ≤ 20 ∧ 0 ≤ 5 ≤ 5 ∧ 0 = heading planned_agent ∧ 0 ≤ 1 ≤ 3 ∧
  (planned_path planned_agent = [] → 1 = 0).
Proof.
  apply (get_state_bounds planned_agent 6 5 0 1). vm_compute. reflexivity.
Defined.



(** X25: a list returned by [get_obstacles_in_radius] holds
    exactly the obstacles whose distance from [pos], as [math.sqrt]
    computes it, is at most [radius], each with that distance. *)
Theorem obstacles_in_radius (env : Environment) (p : pos) (radius : float)
    (l : list (Z * Z * float)) :
  get_obstacles_in_radius env p radius = Ok l →
  ∀ x y d, (x, y, d) ∈ l ↔
    (x, y) ∈ obstacles env ∧ Py.math_sqrt (sq_dist p (x, y)) = Ok d ∧
    PrimFloat.leb d radius = true.
Proof. apply get_obstacles_in_radius_spec. Qed.

Lemma obstacles_in_radius_witness :
  ∃ l, get_obstacles_in_radius grid12_walled (5, 3) 4 = Ok l ∧
  ∀ x y d, (x, y, d) ∈ l ↔
    (x, y) ∈ obstacles grid12_walled ∧
    Py.math_sqrt (sq_dist (5, 3) (x, y)) = Ok d ∧
    PrimFloat.leb d 4 = true.
Proof.
  assert (Hok : Py.is_ok (get_obstacles_in_radius grid12_walled (5, 3) 4)
                = true) by (vm_compute; reflexivity).
  destruct (get_obstacles_in_radius grid12_walled (5, 3) 4) as [l| |] eqn:Hrun;
    [|discriminate..].
  exists l. split; [reflexivity|].
  apply (obstacles_in_radius grid12_walled (5, 3) 4 l). exact Hrun.
Defined.

Import Main.

(** ** Choosing a destination *)

Lemma random_destination_loop_spec env prev rand :
  0 < grid_width env → 0 < grid_height env →
  ∀ fuel attempts, 0 ≤ attempts ≤ 1000 →
  (Z.to_nat (1001 - attempts) ≤ fuel)%nat →
  ∃ p, random_destination_loop fuel env prev rand attempts = Ok p ∧
       ((is_valid_position env p = true ∧ p ≠ start_pos env ∧ Some p ≠ prev) ∨
        p = (grid_width env `div` 2, grid_height env `div` 2)).
Proof.
  intros Hgw Hgh fuel.
  induction fuel as [|fuel IH]; intros attempts Hatt Hfuel; [lia|].
  simpl.
  destruct (randint_range 0 (grid_width env - 1) (rand (attempts + 1)).1)
    as (x & -> & Hx); [lia|].
  destruct (randint_range 0 (grid_height env - 1) (rand (attempts + 1)).2)
    as (y & -> & Hy); [lia|].
  simpl. destruct (_ && _) eqn:Hcond.
  - exists (x, y). split; [done|]. left.
    apply andb_prop in Hcond as [Hcond Hp%negb_true_iff%bool_decide_eq_false].
    apply andb_prop in Hcond as [Hv Hs%negb_true_iff%bool_decide_eq_false].
    done.
  - destruct (Z.ltb_spec 1000 (attempts + 1)); [by eauto|].
    apply IH; lia.
Qed.

Lemma random_destination_spec env prev rand :
  0 < grid_width env → 0 < grid_height env →
  ∃ p, random_destination env prev rand = Ok p ∧
       ((is_valid_position env p = true ∧ p ≠ start_pos env ∧ Some p ≠ prev) ∨
        p = (grid_width env `div` 2, grid_height env `div` 2)).
Proof.
  intros Hgw Hgh. apply random_destination_loop_spec; [done..|lia|lia].
Qed.

(** ** Setting up an episode *)

(** What the main loop keeps true of its environment: the map is the
    grid it claims to be, and the start and the destination are road
    cells that no obstacle covers. *)
Record env_ok (env : Environment) : Prop := {
  ok_width : 0 < grid_width env;
  ok_height : 0 < grid_height env;
  ok_map : rectangular (grid_width env) (grid_height env) (road_map env);
  ok_start : is_valid_position env (start_pos env) = true;
  ok_destination : is_valid_position env (destination env) = true
}.

Lemma valid_is_road env p :
  is_valid_position env p = true → is_road env p = true.
Proof. unfold is_valid_position. by intros [? _]%andb_prop. Qed.

(** [set_destination] followed by [regenerate_obstacles], as the main
    loop calls them. *)
Lemma retarget_ok env p num rand :
  env_ok env →
  ∃ obs env', regenerate_obstacles (set_destination env p).2 num rand
              = Ok (obs, env') ∧
    env_ok env' ∧
    grid_width env' = grid_width env ∧ grid_height env' = grid_height env ∧
    road_map env' = road_map env ∧ start_pos env' = start_pos env ∧
    destination env'
    = (if is_valid_position env p then p else destination env) ∧
    obstacles env' = obs ∧ Z.of_nat (size obs) ≤ Z.max 0 num ∧
    (∀ o, o ∈ obs → is_road env o = true).
Proof.
  intros [Hgw Hgh Hmap Hstart Hdest].
  set (env1 := (set_destination env p).2).
  assert (Hsame : grid_width env1 = grid_width env ∧
                  grid_height env1 = grid_height env ∧
                  road_map env1 = road_map env ∧
                  start_pos env1 = start_pos env ∧
                  destination env1
                  = (if is_valid_position env p then p else destination env)).
  { unfold env1, set_destination. by destruct (is_valid_position env p). }
  destruct Hsame as (Hw1 & Hh1 & Hm1 & Hs1 & Hd1).
  assert (Hroad : ∀ q, is_road env1 q = is_road env q).
  { intros q. unfold is_road, in_bounds, road_cell. by rewrite Hw1, Hh1, Hm1. }
  destruct (regenerate_obstacles_spec env1 num rand)
    as (obs & env' & Hrun & -> & [Hsize Hobs] & Hvs & Hvd);
    [by rewrite Hw1, Hh1, Hm1|lia|lia|].
  exists obs, (set_obstacles env1 obs). split; [done|].
  split_and!; try done.
  - split; simpl; [lia|lia|by rewrite Hw1, Hh1, Hm1| |].
    + simpl in Hvs. rewrite Hvs, Hroad, Hs1. by apply valid_is_road.
    + simpl in Hvd. rewrite Hvd, Hroad, Hd1.
      destruct (is_valid_position env p) eqn:Hp; by apply valid_is_road.
  - intros o Ho. rewrite <- Hroad. by apply Hobs.
Qed.

(** The arrangement of an agent at the start of an episode. *)
Definition at_start (e : Environment) (a : Agent) : Prop :=
  env a = e ∧ position a = start_pos e ∧ heading a = 0 ∧
  planned_path a = [] ∧ steps a = 0 ∧ total_reward a = 0.

(** After the end of an episode the environment is again in order, with
    at most 55 obstacles, and the agent stands on the start cell with an
    empty plan, no steps taken and all it has learned. *)
Lemma next_episode_ok e agent episode rand_d rand_o :
  env_ok e →
  ∃ e' agent',
    next_episode e agent episode rand_d rand_o
    = Ok (e', agent', episode + 1, Some (destination e)) ∧
    env_ok e' ∧ Z.of_nat (size (obstacles e')) ≤ 55 ∧
    at_start e' agent' ∧ q_table agent' = q_table agent.
Proof.
  intros Hok. unfold next_episode.
  destruct (random_destination_spec e (Some (destination e)) rand_d)
    as (p & -> & _); [apply Hok..|].
  simpl.
  destruct (retarget_ok e p (25 + Z.min 30 episode) rand_o Hok)
    as (obs & e' & Hrun & Hok' & _ & _ & _ & _ & _ & Hobs & Hsize & _).
  destruct (set_destination e p) as [b e1]. simpl in Hrun. rewrite Hrun.
  simpl. exists e', (reset (update_environment_ref agent e')).
  split_and!; [done|done|rewrite Hobs; lia| |done].
  by split_and!.
Qed.

(** A click on a valid cell makes that cell the destination of a new
    episode, and no obstacle is put on it; a click elsewhere changes
    nothing. *)
Lemma mouse_click_ok e agent episode prev_dest mouse_pos rand_o :
  env_ok e →
  let grid_pos := pixel_to_grid mouse_pos in
  if is_valid_position e grid_pos then
    ∃ e' agent',
      mouse_click e agent episode prev_dest mouse_pos rand_o
      = Ok (e', agent', episode + 1, Some grid_pos) ∧
      env_ok e' ∧ destination e' = grid_pos ∧
      Z.of_nat (size (obstacles e')) ≤ 25 ∧
      at_start e' agent' ∧ q_table agent' = q_table agent
  else
    mouse_click e agent episode prev_dest mouse_pos rand_o
    = Ok (e, agent, episode, prev_dest).
Proof.
  intros Hok. simpl. unfold mouse_click.
  destruct (is_valid_position e (pixel_to_grid mouse_pos)) eqn:Hvalid; [|done].
  destruct (retarget_ok e (pixel_to_grid mouse_pos) 25 rand_o Hok)
    as (obs & e' & Hrun & Hok' & _ & _ & _ & _ & Hdest & Hobs & Hsize & _).
  rewrite Hvalid in Hdest.
  destruct (set_destination e _) as [b e1]. simpl in Hrun. rewrite Hrun.
  simpl. exists e', (reset (update_environment_ref agent e')).
  split_and!; [done|done|done|rewrite Hobs; lia| |done].
  by split_and!.
Qed.

(** ** The constructor with its obstacles *)

Lemma set_obstacles_road e obs p :
  is_road (set_obstacles e obs) p = is_road e p.
Proof. reflexivity. Qed.

(** A window of at least 60 by 100 pixels gives a grid whose start and
    destination are valid positions, with at most 15 obstacles, all of
    them on road cells. *)
Lemma init_random_ok width height rand :
  60 ≤ width → 100 ≤ height →
  ∃ e, init_random width height rand = Ok e ∧
       grid_width e = width `div` 20 ∧ grid_height e = height `div` 20 ∧
       start_pos e = (2, grid_height e `div` 2) ∧
       destination e = (grid_width e - 3, grid_height e `div` 2) ∧
       env_ok e ∧ laid_out e ∧
       Z.of_nat (size (obstacles e)) ≤ 15 ∧
       (∀ o, o ∈ obstacles e → is_road e o = true).
Proof.
  intros Hw Hh. unfold init_random.
  destruct (init_spec width height ∅ Hh)
    as (e & -> & Hgw & Hgh & Hs & Hd & Hobs & Hrect & Hlay).
  simpl.
  assert (3 ≤ grid_width e).
  { rewrite Hgw. apply Z.div_le_lower_bound; lia. }
  assert (5 ≤ grid_height e) by apply Hlay.
  destruct (_place_obstacles_spec e 15 rand Hrect) as (obs & -> & Hsize & Hall);
    [lia..|].
  simpl. eexists. split; [done|]. simpl.
  pose proof (Z.div_mod (grid_height e) 2).
  pose proof (Z.mod_pos_bound (grid_height e) 2).
  assert (Hband : ∀ x, 0 ≤ x < grid_width e →
            is_road e (x, grid_height e `div` 2) = true).
  { intros x Hx. destruct Hlay as [_ ->]. apply andb_true_intro. split.
    - apply in_bounds_spec. simpl. lia.
    - apply on_layout_spec. simpl. lia. }
  split_and!; [done..| |exact Hlay|simpl; lia|].
  - split; simpl; [lia|lia|done| |].
    + unfold is_valid_position. simpl.
      rewrite set_obstacles_road, Hs, Hband by lia.
      rewrite bool_decide_eq_false_2; [done|].
      intros Hin. destruct (Hall _ Hin) as (_ & Hne & _). by rewrite Hs in Hne.
    + unfold is_valid_position. simpl.
      rewrite set_obstacles_road, Hd, Hband by lia.
      rewrite bool_decide_eq_false_2; [done|].
      intros Hin. destruct (Hall _ Hin) as (_ & _ & Hne). by rewrite Hd in Hne.
  - intros o Ho. simpl in Ho. rewrite set_obstacles_road.
    by destruct (Hall o Ho).
Qed.

(** The program starts on a grid of 50 by 35 cells, with the agent on
    the start cell (2, 17), a destination that is a valid position, and
    at most 25 obstacles. *)
Lemma startup_ok rand0 rand_d rand_o :
  ∃ e agent,
    startup rand0 rand_d rand_o = Ok (e, agent, 1, None) ∧
    grid_width e = 50 ∧ grid_height e = 35 ∧ start_pos e = (2, 17) ∧
    env_ok e ∧ Z.of_nat (size (obstacles e)) ≤ 25 ∧
    at_start e agent ∧ q_table agent = ∅.
Proof.
  unfold startup.
  destruct (init_random_ok WINDOW_WIDTH WINDOW_HEIGHT rand0)
    as (e0 & -> & Hgw & Hgh & Hs & Hd & Hok & _); [done..|].
  simpl.
  destruct (random_destination_spec e0 None rand_d)
    as (p & -> & _); [apply Hok..|].
  simpl.
  destruct (retarget_ok e0 p 25 rand_o Hok)
    as (obs & e' & Hrun & Hok' & Hw' & Hh' & _ & Hs' & _ & Hobs & Hsize & _).
  destruct (set_destination e0 p) as [b e1]. simpl in Hrun. rewrite Hrun.
  simpl. exists e', (update_environment_ref (SelfDrivingAgent.init e0) e').
  change (WINDOW_WIDTH `div` 20) with 50 in Hgw.
  change (WINDOW_HEIGHT `div` 20) with 35 in Hgh.
  rewrite Hgh in Hs. change (35 `div` 2) with 17 in Hs.
  split_and!; [done|congruence|congruence|congruence|done|
               rewrite Hobs; lia| |done].
  split_and!; simpl; [done|congruence|done..].
Qed.

(** ** Properties of the main loop *)

Lemma grid12_ok : env_ok grid12.
Proof.
  split; [reflexivity|reflexivity|apply grid12_rectangular|
          vm_compute; reflexivity..].
Qed.

(** X26: the constructor of a window of at least 60 by 100
    pixels returns a grid with the road layout, whose start and
    destination are valid positions, and with at most 15 obstacles, each
    on a road cell. *)
Theorem init_random_spec (width height : Z) (rand : Z → Z * Z) :
  60 ≤ width → 100 ≤ height →
  ∃ e, init_random width height rand = Ok e ∧
       grid_width e = width `div` 20 ∧ grid_height e = height `div` 20 ∧
       start_pos e = (2, grid_height e `div` 2) ∧
       destination e = (grid_width e - 3, grid_height e `div` 2) ∧
       is_valid_position e (start_pos e) = true ∧
       is_valid_position e (destination e) = true ∧
       Z.of_nat (size (obstacles e)) ≤ 15 ∧
       (∀ o, o ∈ obstacles e → is_road e o = true) ∧
       (∀ p, is_road e p
             = in_bounds e p &&
               on_layout (grid_width e) (grid_height e) p.1 p.2).
Proof.
  intros Hw Hh.
  destruct (init_random_ok width height rand Hw Hh)
    as (e & Hrun & ? & ? & ? & ? & Hok & [_ Hlay] & ? & ?).
  exists e. split_and!; try done; apply Hok.
Qed.

Lemma init_random_spec_witness :
  ∃ e, init_random 240 140 (λ n, (7 * n, 3 * n)) = Ok e ∧
       grid_width e = 240 `div` 20 ∧ grid_height e = 140 `div` 20 ∧
       start_pos e = (2, grid_height e `div` 2) ∧
       destination e = (grid_width e - 3, grid_height e `div` 2) ∧
       is_valid_position e (start_pos e) = true ∧
       is_valid_position e (destination e) = true ∧
       Z.of_nat (size (obstacles e)) ≤ 15 ∧
       (∀ o, o ∈ obstacles e → is_road e o = true) ∧
       (∀ p, is_road e p
             = in_bounds e p &&
               on_layout (grid_width e) (grid_height e) p.1 p.2).
Proof. apply (init_random_spec 240 140 (λ n, (7 * n, 3 * n))); lia. Defined.

(** X27: on a grid with at least one cell
    [random_destination] returns within 1001 attempts: a valid position
    other than the start and the previous destination, or else the
    centre cell of the grid, whatever that cell is. *)
Theorem random_destination_result (env : Environment) (prev_dest : option pos)
    (rand : Z → Z * Z) :
  0 < grid_width env → 0 < grid_height env →
  ∃ p, random_destination env prev_dest rand = Ok p ∧
       ((is_valid_position env p = true ∧ p ≠ start_pos env ∧
         Some p ≠ prev_dest) ∨
        p = (grid_width env `div` 2, grid_height env `div` 2)).
Proof. apply random_destination_spec. Qed.

Lemma random_destination_result_witness :
  ∃ p, random_destination grid12 None (λ n, (7 * n, 3 * n)) = Ok p ∧
       ((is_valid_position grid12 p = true ∧ p ≠ start_pos grid12 ∧
         Some p ≠ None) ∨
        p = (grid_width grid12 `div` 2, grid_height grid12 `div` 2)).
Proof.
  apply (random_destination_result grid12 None (λ n, (7 * n, 3 * n)));
    reflexivity.
Defined.

(** X28: when the start and the destination are valid positions,
    the end of an episode leaves them valid: the new environment has at
    most 55 obstacles, none on the start or on the destination, and the
    agent stands on the start cell with heading 0, an empty plan, no
    steps, no reward, and the table it had. *)
Theorem next_episode_spec (e : Environment) (agent : Agent) (episode : Z)
    (rand_d rand_o : Z → Z * Z) :
  env_ok e →
  ∃ e' agent',
    next_episode e agent episode rand_d rand_o
    = Ok (e', agent', episode + 1, Some (destination e)) ∧
    env_ok e' ∧ Z.of_nat (size (obstacles e')) ≤ 55 ∧
    at_start e' agent' ∧ q_table agent' = q_table agent.
Proof. apply next_episode_ok. Qed.

Lemma next_episode_spec_witness :
  ∃ e' agent',
    next_episode grid12 planned_agent 1 (λ n, (7 * n, 3 * n))
      (λ n, (5 * n, n))
    = Ok (e', agent', 1 + 1, Some (destination grid12)) ∧
    env_ok e' ∧ Z.of_nat (size (obstacles e')) ≤ 55 ∧
    at_start e' agent' ∧ q_table agent' = q_table planned_agent.
Proof.
  apply (next_episode_spec grid12 planned_agent 1). apply grid12_ok.
Defined.

(** X29: a click on a valid position makes it the destination of a
    new episode, and none of the at most 25 new obstacles is put on it
    or on the start; a click anywhere else changes nothing. *)
Theorem mouse_click_spec (e : Environment) (agent : Agent) (episode : Z)
    (prev_dest : option pos) (mouse_pos : pos) (rand_o : Z → Z * Z) :
  env_ok e →
  let grid_pos := pixel_to_grid mouse_pos in
  if is_valid_position e grid_pos then
    ∃ e' agent',
      mouse_click e agent episode prev_dest mouse_pos rand_o
      = Ok (e', agent', episode + 1, Some grid_pos) ∧
      env_ok e' ∧ destination e' = grid_pos ∧
      Z.of_nat (size (obstacles e')) ≤ 25 ∧
      at_start e' agent' ∧ q_table agent' = q_table agent
  else
    mouse_click e agent episode prev_dest mouse_pos rand_o
    = Ok (e, agent, episode, prev_dest).
Proof. apply mouse_click_ok. Qed.

Lemma mouse_click_spec_witness :
  ∃ e' agent',
    mouse_click grid12 planned_agent 1 None (105, 72) (λ n, (5 * n, n))
    = Ok (e', agent', 1 + 1, Some (5, 3)) ∧
    env_ok e' ∧ destination e' = (5, 3) ∧
    Z.of_nat (size (obstacles e')) ≤ 25 ∧
    at_start e' agent' ∧ q_table agent' = q_table planned_agent.
Proof.
  pose proof (mouse_click_spec grid12 planned_agent 1 None (105, 72)
                (λ n, (5 * n, n)) grid12_ok) as Hclick.
  assert (Hvalid : is_valid_position grid12 (pixel_to_grid (105, 72)) = true)
    by (vm_compute; reflexivity).
  cbv zeta in Hclick. rewrite Hvalid in Hclick. exact Hclick.
Defined.

(** X30: whatever the random draws, the program reaches its main
    loop on a grid of 50 by 35 cells with the start cell (2, 17), a
    destination that is a valid position and at most 25 obstacles, none
    on the start or on the destination, and with the agent on the start
    cell. *)
Theorem startup_spec (rand0 rand_d rand_o : Z → Z * Z) :
  ∃ e agent,
    startup rand0 rand_d rand_o = Ok (e, agent, 1, None) ∧
    grid_width e = 50 ∧ grid_height e = 35 ∧ start_pos e = (2, 17) ∧
    env_ok e ∧ Z.of_nat (size (obstacles e)) ≤ 25 ∧
    at_start e agent ∧ q_table agent = ∅.
Proof. apply startup_ok. Qed.
